(** * RxJStore: a shallow embedding of the keyed cache and its batching layer

    The development follows the TypeScript sources:
    - [RxStore] (class RxStore: getStore, getStores, updateStoreValue,
      expireAll, expireWhere, _getStore, expireKey, getKey, init),
    - [SubscriberMonitor] (the subscriber counting wrapper),
    - [RxStoreUtil] (storeFilterOutLoading, storeMapToLoading,
      storeMapToValue, storeMapToError),
    - [RxBatchingStore] (fetch, fetchBatch).

    The RxJS operators the sources are built from are library code; their
    behaviour is written out where it is used (each definition names the
    operator it stands for).  Execution is single threaded, so a run of the
    program is a sequence of calls and notifications handled one at a time. *)

From stdpp Require Import prelude strings gmap.

Open Scope Z_scope.
Open Scope nat_scope.

(** ** JavaScript truthiness

    The sources test values with [if (v)], [a || b], [filter(Boolean)] and
    [c ? x : y]; what these do depends on the truthiness of the value, not on
    whether it is defined.  [undefined] is the [None] of an [option]. *)
Class Truthy (A : Type) := truthy : A → bool.

#[export] Instance option_truthy `{Truthy A} : Truthy (option A) :=
  λ o, match o with Some a => truthy a | None => false end.

(** [a || b] of JavaScript on possibly undefined values. *)
Definition js_or `{Truthy A} (a b : option A) : option A :=
  if truthy a then a else b.

(** [xs.filter(Boolean)] on an array of possibly undefined values. *)
Definition filter_Boolean `{Truthy A} (xs : list (option A)) : list A :=
  omap (λ o, match o with
             | Some a => if truthy a then Some a else None
             | None => None
             end) xs.

(** ** Notifications of an observable *)
Inductive Notification (A Err : Type) : Type :=
  | Next (v : A)
  | Error (err : Err)
  | Complete.
Arguments Next {A Err} v.
Arguments Error {A Err} err.
Arguments Complete {A Err}.

(** ** The store's insertion ordered object [{[id: string]: ...}]

    [Object.keys] walks the keys in insertion order (integer-like keys, which
    JavaScript would move to the front, are not singled out), so the object is
    an association list: [expireAll] visits the entries in this order. *)
Section Dict.
Context {V : Type}.

Fixpoint dict_get (k : string) (d : list (string * V)) : option V :=
  match d with
  | [] => None
  | (k', v) :: d' => if decide (k' = k) then Some v else dict_get k d'
  end.

(** [d[k] = v] for a key that is not yet present. *)
Definition dict_add (k : string) (v : V) (d : list (string * V)) :=
  d ++ [(k, v)].

(** [delete d[k]] *)
Definition dict_delete (k : string) (d : list (string * V)) :=
  filter (λ kv, kv.1 ≠ k) d.

Definition dict_keys (d : list (string * V)) : list string := d.*1.

Lemma dict_get_app k d1 d2 :
  dict_get k (d1 ++ d2) =
  match dict_get k d1 with Some v => Some v | None => dict_get k d2 end.
Proof.
  induction d1 as [|[k' v] d1 IH]; simpl; [done|].
  case_decide; done.
Qed.

Lemma dict_get_add k k' v d :
  dict_get k d = None →
  dict_get k' (dict_add k v d) = if decide (k = k') then Some v else dict_get k' d.
Proof.
  intros Hk. unfold dict_add. rewrite dict_get_app. simpl.
  case_decide as Heq.
  - subst. by rewrite Hk.
  - by destruct (dict_get k' d).
Qed.

Lemma dict_get_delete k k' d :
  dict_get k' (dict_delete k d) = if decide (k = k') then None else dict_get k' d.
Proof.
  unfold dict_delete. induction d as [|[k1 v] d IH]; simpl.
  - by case_decide.
  - rewrite filter_cons. simpl. destruct (decide (k1 ≠ k)) as [Hne|Heq]; simpl.
    + rewrite IH. repeat case_decide; congruence.
    + apply dec_stable in Heq. subst k1. rewrite IH. repeat case_decide; congruence.
Qed.

Lemma dict_get_Some_elem k v d : dict_get k d = Some v → (k, v) ∈ d.
Proof.
  induction d as [|[k' v'] d IH]; simpl; [done|].
  case_decide; intros ?; simplify_eq; [left | right; auto].
Qed.
End Dict.

(** ** RxStore *)
Module RxStore.
Section RxStore.
(** [T], [Params], [Extra] and [TError] are the class's type parameters;
    [Err] is the raw error a fetch stream fails with. *)
Context {T Params Extra TError Err : Type}.
Context `{Truthy T, Truthy TError}.

(** [IRxStore<T, TError>]: [value] and [error] may be undefined. *)
Record IRxStore := {
  loading : bool;
  value : option T;
  error : option TError;
}.

(** [IRxStores<T, TError>] *)
Record IRxStores := {
  loadings : bool;
  values : list T;
  errors : list TError;
}.

(** [IRxStoreOptions<Extra>]; an absent [force] is falsy. *)
Record IRxStoreOptions := {
  force : bool;
  extra : option Extra;
}.

(** One value of [IRxStoreMap], the object [init] stores under its key,
    together with the state of the operators [init] closes over it:
    - [updateValueRS] is the buffer of the [ReplaySubject(1)] ([None]:
      [undefined] was pushed last; [init] pushes it first);
    - [connected]: [shareReplay(1)] has subscribed to its source; it has no
      [refCount], so it stays subscribed when its observers leave;
    - [fetching]: the inner observable [switchMap] is subscribed to is the
      stream the fetcher returned, and it has not ended;
    - [storeRef]: the [const store = this.store[key]] of the last
      subscription to [networkFetchOb];
    - [previousValue]: what [pairwise] holds ([None]: the [undefined] of
      [startWith]);
    - [replay]: the buffer of [shareReplay(1)];
    - [observers]: the subscribers of the shared stream, oldest first;
    - [counter]: the [counter] of the [SubscriberMonitor];
    - [invalidations] counts the calls [updateValueRS.next(undefined)]
      made after [init] (a history variable, read by no operation). *)
Record StoreEntry := {
  key : string;
  params : Params;
  extra0 : option Extra;
  updateValueRS : option IRxStore;
  lastFetchFailed : bool;
  clearFromStorageTimer : option nat;
  connected : bool;
  fetching : bool;
  storeRef : option nat;
  previousValue : option IRxStore;
  replay : option IRxStore;
  observers : list nat;
  counter : Z;
  invalidations : nat;
}.

Definition set_updateValueRS (v : option IRxStore) (e : StoreEntry) :=
  {| key := key e; params := params e; extra0 := extra0 e; updateValueRS := v;
     lastFetchFailed := lastFetchFailed e;
     clearFromStorageTimer := clearFromStorageTimer e; connected := connected e;
     fetching := fetching e; storeRef := storeRef e;
     previousValue := previousValue e; replay := replay e;
     observers := observers e; counter := counter e;
     invalidations :=
       match v with Some _ => invalidations e | None => S (invalidations e) end |}.

Definition set_lastFetchFailed (b : bool) (e : StoreEntry) :=
  {| key := key e; params := params e; extra0 := extra0 e;
     updateValueRS := updateValueRS e; lastFetchFailed := b;
     clearFromStorageTimer := clearFromStorageTimer e; connected := connected e;
     fetching := fetching e; storeRef := storeRef e;
     previousValue := previousValue e; replay := replay e;
     observers := observers e; counter := counter e;
     invalidations := invalidations e |}.

Definition set_clearFromStorageTimer (t : option nat) (e : StoreEntry) :=
  {| key := key e; params := params e; extra0 := extra0 e;
     updateValueRS := updateValueRS e; lastFetchFailed := lastFetchFailed e;
     clearFromStorageTimer := t; connected := connected e;
     fetching := fetching e; storeRef := storeRef e;
     previousValue := previousValue e; replay := replay e;
     observers := observers e; counter := counter e;
     invalidations := invalidations e |}.

Definition set_connected (b : bool) (e : StoreEntry) :=
  {| key := key e; params := params e; extra0 := extra0 e;
     updateValueRS := updateValueRS e; lastFetchFailed := lastFetchFailed e;
     clearFromStorageTimer := clearFromStorageTimer e; connected := b;
     fetching := fetching e; storeRef := storeRef e;
     previousValue := previousValue e; replay := replay e;
     observers := observers e; counter := counter e;
     invalidations := invalidations e |}.

Definition set_fetching (b : bool) (e : StoreEntry) :=
  {| key := key e; params := params e; extra0 := extra0 e;
     updateValueRS := updateValueRS e; lastFetchFailed := lastFetchFailed e;
     clearFromStorageTimer := clearFromStorageTimer e; connected := connected e;
     fetching := b; storeRef := storeRef e;
     previousValue := previousValue e; replay := replay e;
     observers := observers e; counter := counter e;
     invalidations := invalidations e |}.

Definition set_storeRef (r : option nat) (e : StoreEntry) :=
  {| key := key e; params := params e; extra0 := extra0 e;
     updateValueRS := updateValueRS e; lastFetchFailed := lastFetchFailed e;
     clearFromStorageTimer := clearFromStorageTimer e; connected := connected e;
     fetching := fetching e; storeRef := r;
     previousValue := previousValue e; replay := replay e;
     observers := observers e; counter := counter e;
     invalidations := invalidations e |}.

(** [pairwise] moves on to the new pair and [shareReplay] buffers the
    mapped value. *)
Definition set_emitted (raw merged : IRxStore) (e : StoreEntry) :=
  {| key := key e; params := params e; extra0 := extra0 e;
     updateValueRS := updateValueRS e; lastFetchFailed := lastFetchFailed e;
     clearFromStorageTimer := clearFromStorageTimer e; connected := connected e;
     fetching := fetching e; storeRef := storeRef e;
     previousValue := Some raw; replay := Some merged;
     observers := observers e; counter := counter e;
     invalidations := invalidations e |}.

Definition set_observers (l : list nat) (e : StoreEntry) :=
  {| key := key e; params := params e; extra0 := extra0 e;
     updateValueRS := updateValueRS e; lastFetchFailed := lastFetchFailed e;
     clearFromStorageTimer := clearFromStorageTimer e; connected := connected e;
     fetching := fetching e; storeRef := storeRef e;
     previousValue := previousValue e; replay := replay e;
     observers := l; counter := counter e;
     invalidations := invalidations e |}.

Definition set_counter (c : Z) (e : StoreEntry) :=
  {| key := key e; params := params e; extra0 := extra0 e;
     updateValueRS := updateValueRS e; lastFetchFailed := lastFetchFailed e;
     clearFromStorageTimer := clearFromStorageTimer e; connected := connected e;
     fetching := fetching e; storeRef := storeRef e;
     previousValue := previousValue e; replay := replay e;
     observers := observers e; counter := c;
     invalidations := invalidations e |}.

(** The state of one [RxStore] object and of its surroundings.
    - [store]: the field [this.store]; an entry is named by its position in
      [heap], which is also the identity of its [observable];
    - [heap]: every entry object [init] ever built (an observable that was
      handed out stays usable after [delete this.store[key]]);
    - [timers]: the pending [setTimeout] calls, handle, due time and the
      [key] their callback deletes;
    - [now]: the clock in milliseconds;
    - [fetchLog]: the calls [this.fetcher(params, extra)] made so far, with
      the entry that made them;
    - [out]: what the subscribers received so far, oldest first;
    - [backend]: the state behind the fetcher. *)
Context {B : Type}.

Record State := {
  store : list (string * nat);
  heap : list StoreEntry;
  timers : list (nat * (nat * string));
  nextTimer : nat;
  nextSubscriber : nat;
  now : nat;
  fetchLog : list (nat * Params * option Extra);
  out : list (nat * IRxStore);
  backend : B;
}.

Definition set_store (f : list (string * nat) → list (string * nat)) (s : State) :=
  {| store := f (store s); heap := heap s; timers := timers s;
     nextTimer := nextTimer s; nextSubscriber := nextSubscriber s; now := now s;
     fetchLog := fetchLog s; out := out s; backend := backend s |}.

Definition set_heap (f : list StoreEntry → list StoreEntry) (s : State) :=
  {| store := store s; heap := f (heap s); timers := timers s;
     nextTimer := nextTimer s; nextSubscriber := nextSubscriber s; now := now s;
     fetchLog := fetchLog s; out := out s; backend := backend s |}.

Definition set_timers (f : list (nat * (nat * string)) → list (nat * (nat * string)))
    (s : State) :=
  {| store := store s; heap := heap s; timers := f (timers s);
     nextTimer := nextTimer s; nextSubscriber := nextSubscriber s; now := now s;
     fetchLog := fetchLog s; out := out s; backend := backend s |}.

Definition set_nextTimer (n : nat) (s : State) :=
  {| store := store s; heap := heap s; timers := timers s;
     nextTimer := n; nextSubscriber := nextSubscriber s; now := now s;
     fetchLog := fetchLog s; out := out s; backend := backend s |}.

Definition set_nextSubscriber (n : nat) (s : State) :=
  {| store := store s; heap := heap s; timers := timers s;
     nextTimer := nextTimer s; nextSubscriber := n; now := now s;
     fetchLog := fetchLog s; out := out s; backend := backend s |}.

Definition set_now (n : nat) (s : State) :=
  {| store := store s; heap := heap s; timers := timers s;
     nextTimer := nextTimer s; nextSubscriber := nextSubscriber s; now := n;
     fetchLog := fetchLog s; out := out s; backend := backend s |}.

Definition add_fetchLog (c : nat * Params * option Extra) (s : State) :=
  {| store := store s; heap := heap s; timers := timers s;
     nextTimer := nextTimer s; nextSubscriber := nextSubscriber s; now := now s;
     fetchLog := fetchLog s ++ [c]; out := out s; backend := backend s |}.

Definition add_out (o : list (nat * IRxStore)) (s : State) :=
  {| store := store s; heap := heap s; timers := timers s;
     nextTimer := nextTimer s; nextSubscriber := nextSubscriber s; now := now s;
     fetchLog := fetchLog s; out := out s ++ o; backend := backend s |}.

Definition set_backend (b : B) (s : State) :=
  {| store := store s; heap := heap s; timers := timers s;
     nextTimer := nextTimer s; nextSubscriber := nextSubscriber s; now := now s;
     fetchLog := fetchLog s; out := out s; backend := b |}.

(** [heap[eid] = f(heap[eid])] *)
Definition update (eid : nat) (f : StoreEntry → StoreEntry) (s : State) : State :=
  set_heap (alter f eid) s.

(** *** The constructor's arguments

    [fetcher] is given by what subscribing to the stream it returns does:
    [fetch_subscribe b eid params extra] is the call
    [this.fetcher(params, extra)] followed by the subscription [flatMap]
    makes to its result; it returns the state behind the fetcher and the
    notifications the stream sends during that subscription (a synchronous
    fetcher sends all of them there).  What the stream sends later arrives
    as a notification of its own.  [fetch_unsubscribe] is the unsubscription
    [switchMap] makes when it leaves a stream that has not ended. *)
Context (fetch_subscribe :
           B → nat → Params → option Extra → B * list (Notification (option T) Err)).
Context (fetch_unsubscribe : B → nat → B).
Context (errorParserLogger : Err → option TError).
Context (deleteFromCacheTimeMS : option nat).
Context (paramHasher : Params → string).

(** [getKey] *)
Definition getKey (p : Params) : string := paramHasher p.

(** The [map] after [pairwise] in [init]:
    [{ loading: newValue.loading,
       value: (newValue && newValue.value) || (previousValue && previousValue.value),
       ...(newValue.error ? { error: newValue.error } : undefined) }].
    [newValue] is always an object. *)
Definition merge (previousValue : option IRxStore) (newValue : IRxStore) : IRxStore :=
  {| loading := loading newValue;
     value := js_or (value newValue) (previousValue ≫= value);
     error := if truthy (error newValue) then error newValue else None |}.

(** A value leaves [networkFetchObWithRefetch]: through [pairwise], the
    [map] and into [shareReplay(1)], which buffers it and hands it to its
    observers. *)
Definition emit (eid : nat) (newValue : IRxStore) (s : State) : option State :=
  e ← heap s !! eid;
  let merged := merge (previousValue e) newValue in
  Some (add_out ((λ sid, (sid, merged)) <$> observers e)
          (update eid (set_emitted newValue merged) s)).

(** The fetcher's stream, piped through
    [map(value => ({ value, loading: false }))] and [catchError]:
    [const error = this.errorParserLogger(err); store.lastFetchFailed = true;
     return of({ value: undefined, loading: false, error })].
    [store] is [storeRef]; the assignment raises a TypeError ([None]) when
    it is undefined.  A stream that has ended, or that [switchMap] has
    left, sends nothing. *)
Definition fetcher_notification (eid : nat) (n : Notification (option T) Err)
    (s : State) : option State :=
  e ← heap s !! eid;
  if fetching e then
    match n with
    | Next v => emit eid {| loading := false; value := v; error := None |} s
    | Error err =>
        let error := errorParserLogger err in
        c ← storeRef e;
        _ ← heap s !! c;
        let s := update c (set_lastFetchFailed true) s in
        let s := update eid (set_fetching false) s in
        emit eid {| loading := false; value := None; error := error |} s
    | Complete => Some (update eid (set_fetching false) s)
    end
  else Some s.

Fixpoint fetcher_notifications (eid : nat) (ns : list (Notification (option T) Err))
    (s : State) : option State :=
  match ns with
  | [] => Some s
  | n :: ns => s ← fetcher_notification eid n s; fetcher_notifications eid ns s
  end.

(** Subscribing to [networkFetchOb]: the body of [new Observable(...)]
    under [flatMap]. *)
Definition networkFetchOb (eid : nat) (s : State) : option State :=
  e ← heap s !! eid;
  let s := update eid (set_storeRef (dict_get (key e) (store s))) s in
  s ← emit eid {| loading := true; value := None; error := None |} s;
  let '(b, sync) := fetch_subscribe (backend s) eid (params e) (extra0 e) in
  let s := set_backend b (add_fetchLog (eid, params e, extra0 e) s) in
  let s := update eid (set_fetching true) s in
  fetcher_notifications eid sync s.

(** [switchMap((val) => val ? of(val) : networkFetchOb)] receives [val]:
    the inner subscription it holds is dropped and the new inner observable
    is subscribed to. *)
Definition switchMap (eid : nat) (val : option IRxStore) (s : State) : option State :=
  e ← heap s !! eid;
  let s := if fetching e
           then update eid (set_fetching false)
                  (set_backend (fetch_unsubscribe (backend s) eid) s)
           else s in
  match val with
  | Some v => emit eid v s
  | None => networkFetchOb eid s
  end.

(** [this.store[key].updateValueRS.next(val)]: the subject buffers [val],
    and passes it on when [shareReplay] is subscribed to it. *)
Definition updateValueRS_next (eid : nat) (val : option IRxStore) (s : State)
    : option State :=
  e ← heap s !! eid;
  let s := update eid (set_updateValueRS val) s in
  if connected e then switchMap eid val s else Some s.

(** The object literal at the end of [init], after
    [updateValueRS.next(undefined)]. *)
Definition new_entry (k : string) (p : Params) (x : option Extra) : StoreEntry :=
  {| key := k; params := p; extra0 := x; updateValueRS := None;
     lastFetchFailed := false; clearFromStorageTimer := None;
     connected := false; fetching := false; storeRef := None;
     previousValue := None; replay := None; observers := []; counter := 0%Z;
     invalidations := 0 |}.

(** [init] *)
Definition init (p : Params) (x : option Extra) (s : State) : State :=
  let k := getKey p in
  match dict_get k (store s) with
  | Some _ => s
  | None =>
      set_store (dict_add k (length (heap s)))
        (set_heap (λ h, h ++ [new_entry k p x]) s)
  end.

(** [_getStore]; the result is the state and [this.store[key].observable]. *)
Definition _getStore (p : Params) (options : IRxStoreOptions) (s : State)
    : option (State * nat) :=
  let s := init p (extra options) s in
  let k := getKey p in
  eid ← dict_get k (store s);
  e ← heap s !! eid;
  s ← (if force options || lastFetchFailed e
       then updateValueRS_next eid None s else Some s);
  ob ← dict_get k (store s);
  Some (s, ob).

(** [getStore] *)
Definition getStore (p : Params) (options : IRxStoreOptions) (s : State)
    : option (State * nat) :=
  _getStore p options s.

(** [updateStoreValue] *)
Definition updateStoreValue (p : Params) (v : T) (s : State) : option State :=
  let s := init p None s in
  eid ← dict_get (getKey p) (store s);
  updateValueRS_next eid (Some {| error := None; loading := false; value := Some v |}) s.

(** [expireKey] *)
Definition expireKey (k : string) (s : State) : option State :=
  eid ← dict_get k (store s);
  updateValueRS_next eid None s.

Fixpoint forEach {A} (f : A → State → option State) (l : list A) (s : State)
    : option State :=
  match l with
  | [] => Some s
  | a :: l => s ← f a s; forEach f l s
  end.

(** [expireAll] *)
Definition expireAll (s : State) : option State :=
  forEach expireKey (dict_keys (store s)) s.

(** [expireWhere] *)
Definition expireWhere (predicate : Params → bool) (s : State) : option State :=
  forEach (λ k s,
    eid ← dict_get k (store s);
    e ← heap s !! eid;
    if predicate (params e) then expireKey k s else Some s)
    (dict_keys (store s)) s.

(** *** Subscribing: [shareReplay(1)] and the [SubscriberMonitor] *)

(** [clearTimeout(handle)]; [clearTimeout(undefined)] does nothing. *)
Definition clearTimeout (handle : option nat) (s : State) : State :=
  match handle with
  | Some h => set_timers (filter (λ t, t.1 ≠ h)) s
  | None => s
  end.

(** [setTimeout(() => { delete this.store[key]; }, ms)]; the result is the
    state and the handle. *)
Definition setTimeout (k : string) (ms : nat) (s : State) : State * nat :=
  let h := nextTimer s in
  (set_nextTimer (S h) (set_timers (λ ts, ts ++ [(h, (now s + ms, k))]) s), h).

(** [this.deleteFromCacheTimeMS ? new SubscriberMonitor(...) : observable]:
    zero is falsy. *)
Definition monitored : bool :=
  match deleteFromCacheTimeMS with
  | Some (S _) => true
  | _ => false
  end.

(** [(_) => clearTimeout(this.store[key].clearFromStorageTimer)]; reading a
    property of [undefined] raises a TypeError ([None]). *)
Definition onSubscribe (k : string) (s : State) : option State :=
  c ← dict_get k (store s);
  e ← heap s !! c;
  Some (clearTimeout (clearFromStorageTimer e) s).

(** [(subCount) => { if (subCount === 0) {
       this.store[key].clearFromStorageTimer = setTimeout(...); } }] *)
Definition onUnsubscribe (k : string) (subCount : Z) (s : State) : option State :=
  if decide (subCount = 0%Z) then
    c ← dict_get k (store s);
    _ ← heap s !! c;
    let '(s, h) := setTimeout k (default 0 deleteFromCacheTimeMS) s in
    Some (update c (set_clearFromStorageTimer (Some h)) s)
  else Some s.

(** Subscribing [sid] to the stream [shareReplay(1)] returns.  The first
    subscription subscribes to the source: [startWith(undefined)] feeds
    [pairwise], the [ReplaySubject] replays its buffer into [switchMap].
    What the source sends there goes to the buffer before [sid] is an
    observer, so [sid] receives the last value only (the note in [init]:
    the subscriber is not guaranteed to receive [loading: true]). *)
Definition shareReplay_subscribe (eid sid : nat) (s : State) : option State :=
  e ← heap s !! eid;
  s ← (if connected e then Some s
       else switchMap eid (updateValueRS e) (update eid (set_connected true) s));
  e ← heap s !! eid;
  let s := update eid (set_observers (observers e ++ [sid])) s in
  Some (add_out (option_list ((λ m, (sid, m)) <$> replay e)) s).

(** The function [SubscriberMonitor] passes to [super]:
    [observable.subscribe(subscriber); this.counter++;
     onSubscribe(this.counter)]. *)
Definition SubscriberMonitor_subscribe (eid sid : nat) (s : State) : option State :=
  s ← shareReplay_subscribe eid sid s;
  e ← heap s !! eid;
  let s := update eid (set_counter (counter e + 1)%Z) s in
  onSubscribe (key e) s.

(** The teardown it returns:
    [subscription.unsubscribe(); this.counter--; onUnsubscribe(this.counter)]. *)
Definition SubscriberMonitor_unsubscribe (eid sid : nat) (s : State) : option State :=
  e ← heap s !! eid;
  let s := update eid (set_observers (filter (λ x, x ≠ sid) (observers e))) s in
  let s := update eid (set_counter (counter e - 1)%Z) s in
  onUnsubscribe (key e) (counter e - 1)%Z s.

(** [observable.subscribe()] on the observable of entry [ob]; the result is
    the state and the new subscription. *)
Definition subscribe (ob : nat) (s : State) : option (State * nat) :=
  let sid := nextSubscriber s in
  let s := set_nextSubscriber (S sid) s in
  s ← (if monitored then SubscriberMonitor_subscribe ob sid s
       else shareReplay_subscribe ob sid s);
  Some (s, sid).

(** [subscription.unsubscribe()]; a second call does nothing. *)
Definition unsubscribe (ob sid : nat) (s : State) : option State :=
  e ← heap s !! ob;
  if decide (sid ∈ observers e) then
    if monitored then SubscriberMonitor_unsubscribe ob sid s
    else Some (update ob (set_observers (filter (λ x, x ≠ sid) (observers e))) s)
  else Some s.

(** The clock moves on by [dt] milliseconds and the timers that are due
    run their callback [delete this.store[key]]. *)
Definition advance (dt : nat) (s : State) : State :=
  let s := set_now (now s + dt) s in
  let due := filter (λ t, t.2.1 ≤ now s) (timers s) in
  let s := set_timers (filter (λ t, ¬ (t.2.1 ≤ now s))) s in
  foldl (λ s t, set_store (dict_delete t.2.2) s) s due.

(** [params.map((param) => this._getStore(param, options))] *)
Fixpoint _getStore_map (ps : list Params) (options : IRxStoreOptions) (s : State)
    : option (State * list nat) :=
  match ps with
  | [] => Some (s, [])
  | p :: ps =>
      '(s, ob) ← _getStore p options s;
      '(s, obs) ← _getStore_map ps options s;
      Some (s, ob :: obs)
  end.

(** What [getStores] returns: [of(v)], or the [combineLatest] of the
    observables of the entries [sources], piped through the [map] and
    [distinctUntilKeyChanged("loading")]. *)
Inductive IRxStoresObservable :=
  | of_ (v : IRxStores)
  | combineLatest (sources : list nat).

(** [getStores] *)
Definition getStores (ps : list Params) (options : IRxStoreOptions) (s : State)
    : option (State * IRxStoresObservable) :=
  match ps with
  | [] => Some (s, of_ {| loadings := false; values := []; errors := [] |})
  | _ => '(s, obs) ← _getStore_map ps options s; Some (s, combineLatest obs)
  end.

(** *** Runs

    What happens to a store, one call or notification at a time. *)
Inductive Event :=
  | GetStore (p : Params) (options : IRxStoreOptions)
  | GetStores (ps : list Params) (options : IRxStoreOptions)
  | UpdateStoreValue (p : Params) (v : T)
  | ExpireAll
  | ExpireWhere (predicate : Params → bool)
  | Subscribe (ob : nat)
  | Unsubscribe (ob sid : nat)
  | FetcherNotifies (eid : nat) (n : Notification (option T) Err)
  | Advance (dt : nat).

Definition step (s : State) (ev : Event) : option State :=
  match ev with
  | GetStore p options => fst <$> getStore p options s
  | GetStores ps options => fst <$> getStores ps options s
  | UpdateStoreValue p v => updateStoreValue p v s
  | ExpireAll => expireAll s
  | ExpireWhere predicate => expireWhere predicate s
  | Subscribe ob => fst <$> subscribe ob s
  | Unsubscribe ob sid => unsubscribe ob sid s
  | FetcherNotifies eid n => fetcher_notification eid n s
  | Advance dt => Some (advance dt s)
  end.

Fixpoint run (s : State) (evs : list Event) : option State :=
  match evs with
  | [] => Some s
  | ev :: evs => s ← step s ev; run s evs
  end.

(** [new RxStore(...)]: [store = {}]. *)
Definition new (b : B) : State :=
  {| store := []; heap := []; timers := []; nextTimer := 0; nextSubscriber := 0;
     now := 0; fetchLog := []; out := []; backend := b |}.

(** What subscriber [sid] received, oldest first. *)
Definition received (sid : nat) (s : State) : list IRxStore :=
  (filter (λ o, o.1 = sid) (out s)).*2.

(** The calls of the fetcher that entry [eid] made. *)
Definition fetches (eid : nat) (s : State) : nat :=
  length (filter (λ c, c.1.1 = eid) (fetchLog s)).

(** *** Basic facts about the state updates *)

Lemma heap_update j f s i :
  heap (update j f s) !! i =
  if decide (j = i) then f <$> heap s !! i else heap s !! i.
Proof.
  unfold update; simpl. rewrite list_lookup_alter. by case_decide; subst.
Qed.

Lemma heap_update_eq j f s e :
  heap s !! j = Some e → heap (update j f s) !! j = Some (f e).
Proof. intros He. rewrite heap_update, decide_True, He; done. Qed.

Lemma heap_update_ne j f s i : j ≠ i → heap (update j f s) !! i = heap s !! i.
Proof. intros. rewrite heap_update, decide_False; done. Qed.

Lemma length_heap_update j f s : length (heap (update j f s)) = length (heap s).
Proof. unfold update; simpl. apply length_alter. Qed.

Lemma emit_Some eid r s e :
  heap s !! eid = Some e →
  emit eid r s =
  Some (add_out ((λ sid, (sid, merge (previousValue e) r)) <$> observers e)
          (update eid (set_emitted r (merge (previousValue e) r)) s)).
Proof. intros He. unfold emit. rewrite He. done. Qed.

Lemma emit_inv eid r s s' :
  emit eid r s = Some s' →
  ∃ e, heap s !! eid = Some e ∧
    s' = add_out ((λ sid, (sid, merge (previousValue e) r)) <$> observers e)
           (update eid (set_emitted r (merge (previousValue e) r)) s).
Proof.
  unfold emit. destruct (heap s !! eid) as [e|] eqn:He; simpl; [|done].
  intros [= <-]. eauto.
Qed.

(** *** What the operations on one entry leave alone *)

(** [frame s s']: the store object, the timers, the clock and the
    counters are the same, and no entry was built. *)
Definition frame (s s' : State) : Prop :=
  store s' = store s ∧ timers s' = timers s ∧ now s' = now s ∧
  nextTimer s' = nextTimer s ∧ nextSubscriber s' = nextSubscriber s ∧
  length (heap s') = length (heap s).

Lemma frame_refl s : frame s s.
Proof. by repeat split. Qed.

Lemma frame_trans s1 s2 s3 : frame s1 s2 → frame s2 s3 → frame s1 s3.
Proof. unfold frame. intros (?&?&?&?&?&?) (?&?&?&?&?&?). repeat split; congruence. Qed.

Lemma frame_update j f s : frame s (update j f s).
Proof. unfold frame. repeat split; try done. apply length_heap_update. Qed.

(** [entry_le e e']: what never changes in an entry, and what only grows. *)
Definition entry_le (e e' : StoreEntry) : Prop :=
  key e' = key e ∧ params e' = params e ∧ extra0 e' = extra0 e ∧
  (lastFetchFailed e = true → lastFetchFailed e' = true) ∧
  (connected e = true → connected e' = true) ∧
  invalidations e ≤ invalidations e'.

Definition heap_le (s s' : State) : Prop :=
  ∀ j e, heap s !! j = Some e → ∃ e', heap s' !! j = Some e' ∧ entry_le e e'.

Lemma entry_le_refl e : entry_le e e.
Proof. by repeat split. Qed.

Lemma entry_le_trans e1 e2 e3 : entry_le e1 e2 → entry_le e2 e3 → entry_le e1 e3.
Proof.
  unfold entry_le. intros (?&?&?&?&?&?) (?&?&?&?&?&?).
  repeat split; try congruence; try lia; auto.
Qed.

Lemma heap_le_refl s : heap_le s s.
Proof. intros j e He. eauto using entry_le_refl. Qed.

Lemma heap_le_trans s1 s2 s3 : heap_le s1 s2 → heap_le s2 s3 → heap_le s1 s3.
Proof.
  intros H12 H23 j e He. destruct (H12 _ _ He) as (e2 & He2 & Hle).
  destruct (H23 _ _ He2) as (e3 & He3 & Hle'). eauto using entry_le_trans.
Qed.

Lemma heap_le_update j f s :
  (∀ e, heap s !! j = Some e → entry_le e (f e)) → heap_le s (update j f s).
Proof.
  intros Hf i e He. rewrite heap_update. case_decide; subst.
  - rewrite He. simpl. eauto.
  - eauto using entry_le_refl.
Qed.

(** The steps on one entry the proofs below compose. *)
Definition quiet (s s' : State) : Prop :=
  frame s s' ∧ heap_le s s'.

Lemma quiet_refl s : quiet s s.
Proof. split; [apply frame_refl | apply heap_le_refl]. Qed.

Lemma quiet_trans s1 s2 s3 : quiet s1 s2 → quiet s2 s3 → quiet s1 s3.
Proof. intros [] []. split; eauto using frame_trans, heap_le_trans. Qed.

Lemma quiet_update j f s :
  (∀ e, heap s !! j = Some e → entry_le e (f e)) → quiet s (update j f s).
Proof. split; [apply frame_update | by apply heap_le_update]. Qed.

Lemma quiet_emit eid r s s' : emit eid r s = Some s' → quiet s s'.
Proof.
  intros (e & He & ->)%emit_inv.
  apply (quiet_update eid (set_emitted r (merge (previousValue e) r)) s).
  intros e' _. by repeat split.
Qed.

Lemma quiet_fetcher_notification eid n s s' :
  fetcher_notification eid n s = Some s' → quiet s s'.
Proof.
  unfold fetcher_notification.
  destruct (heap s !! eid) as [e|] eqn:He; simpl; [|done].
  destruct (fetching e); [|intros [= <-]; apply quiet_refl].
  destruct n as [v|err|].
  - apply quiet_emit.
  - destruct (storeRef e) as [c|]; simpl; [|done].
    destruct (heap s !! c); simpl; [|done].
    intros Hemit%quiet_emit.
    eapply quiet_trans; [|eapply quiet_trans; [|exact Hemit]].
    + apply (quiet_update c (set_lastFetchFailed true)). intros e' _. by repeat split.
    + apply quiet_update. intros e' _. by repeat split.
  - intros [= <-]. apply quiet_update. intros e' _. by repeat split.
Qed.

Lemma quiet_fetcher_notifications eid ns s s' :
  fetcher_notifications eid ns s = Some s' → quiet s s'.
Proof.
  revert s. induction ns as [|n ns IH]; simpl; intros s.
  - intros [= <-]. apply quiet_refl.
  - destruct (fetcher_notification eid n s) as [s1|] eqn:H1; simpl; [|done].
    intros H2. eauto using quiet_trans, quiet_fetcher_notification.
Qed.

Lemma quiet_same s s' :
  store s' = store s → heap s' = heap s → timers s' = timers s → now s' = now s →
  nextTimer s' = nextTimer s → nextSubscriber s' = nextSubscriber s → quiet s s'.
Proof.
  intros Hst Hh ????. split; [unfold frame; rewrite Hh; by repeat split|].
  intros j e He. rewrite Hh. eauto using entry_le_refl.
Qed.

Lemma quiet_networkFetchOb eid s s' : networkFetchOb eid s = Some s' → quiet s s'.
Proof.
  unfold networkFetchOb.
  destruct (heap s !! eid) as [e|] eqn:He; simpl; [|done].
  destruct (emit _ _ _) as [s1|] eqn:Hemit; simpl; [|done].
  destruct (fetch_subscribe _ _ _ _) as [b sync].
  intros Hns%quiet_fetcher_notifications. apply quiet_emit in Hemit.
  eapply quiet_trans; [|eapply quiet_trans; [exact Hemit|]].
  - apply quiet_update. intros e' _. by repeat split.
  - eapply quiet_trans; [|exact Hns].
    eapply quiet_trans; [|apply quiet_update; intros e' _; by repeat split].
    by apply quiet_same.
Qed.

Lemma quiet_switchMap eid val s s' : switchMap eid val s = Some s' → quiet s s'.
Proof.
  unfold switchMap.
  destruct (heap s !! eid) as [e|] eqn:He; simpl; [|done].
  intros Hk. eapply quiet_trans; [|destruct val; [eapply quiet_emit|eapply quiet_networkFetchOb]; exact Hk].
  destruct (fetching e); [|apply quiet_refl].
  eapply quiet_trans; [|apply quiet_update; intros e' _; by repeat split].
  by apply quiet_same.
Qed.

Lemma quiet_updateValueRS_next eid val s s' :
  updateValueRS_next eid val s = Some s' → quiet s s'.
Proof.
  unfold updateValueRS_next.
  destruct (heap s !! eid) as [e|] eqn:He; simpl; [|done].
  intros Hk. eapply quiet_trans.
  - apply (quiet_update eid (set_updateValueRS val)). intros e' _.
    repeat split; try done. simpl. destruct val; lia.
  - destruct (connected e); [by eapply quiet_switchMap|].
    injection Hk as <-. apply quiet_refl.
Qed.

(** *** The invariant of a store *)

Definition calls (eid : nat) (log : list (nat * Params * option Extra)) : nat :=
  length (filter (λ c, c.1.1 = eid) log).

Lemma calls_app eid l1 l2 : calls eid (l1 ++ l2) = calls eid l1 + calls eid l2.
Proof. unfold calls. by rewrite filter_app, length_app. Qed.

Lemma calls_0 eid log : (∀ c, c ∈ log → c.1.1 ≠ eid) → calls eid log = 0.
Proof.
  unfold calls. induction log as [|c log IH]; intros Hne; [done|].
  rewrite filter_cons, decide_False by (apply Hne; left).
  apply IH. intros c' Hc'. apply Hne. by right.
Qed.

(** The fetches an entry may have made: one when [shareReplay] connected,
    one for each [updateValueRS.next(undefined)]. *)
Definition allowance (e : StoreEntry) : nat :=
  (if connected e then 1 else 0) + invalidations e.

Definition entry_ok (st : list (string * nat)) (log : list (nat * Params * option Extra))
    (n eid : nat) (e : StoreEntry) : Prop :=
  (fetching e = true → connected e = true) ∧
  (fetching e = true → dict_get (key e) st = Some eid → storeRef e = Some eid) ∧
  (∀ c, storeRef e = Some c → c < n) ∧
  calls eid log ≤ allowance e.

Definition Inv (s : State) : Prop :=
  (∀ k eid, dict_get k (store s) = Some eid →
     ∃ e, heap s !! eid = Some e ∧ key e = k) ∧
  (∀ eid e, heap s !! eid = Some e →
     entry_ok (store s) (fetchLog s) (length (heap s)) eid e) ∧
  (∀ c, c ∈ fetchLog s → c.1.1 < length (heap s)).

Lemma Inv_new b : Inv (new b).
Proof.
  split; [|split]; simpl.
  - done.
  - intros eid e He. by rewrite lookup_nil in He.
  - intros c Hc. by apply elem_of_nil in Hc.
Qed.

(** [Inv] speaks of the store object, the heap and the log only. *)
Lemma Inv_same s s' :
  store s' = store s → heap s' = heap s → fetchLog s' = fetchLog s → Inv s → Inv s'.
Proof. unfold Inv. intros -> -> ->. done. Qed.

Lemma Inv_update j f s :
  Inv s →
  (∀ e, heap s !! j = Some e →
     key (f e) = key e ∧
     entry_ok (store s) (fetchLog s) (length (heap s)) j (f e)) →
  Inv (update j f s).
Proof.
  intros (Hst & Hen & Hlog) Hf. split; [|split].
  - intros k eid Hk. destruct (Hst _ _ Hk) as (e & He & Hkey).
    change (store (update j f s)) with (store s) in Hk.
    rewrite heap_update. case_decide; subst; rewrite He; simpl; [|eauto].
    exists (f e). split; [done|]. by destruct (Hf _ He) as [-> _].
  - intros eid e. rewrite heap_update, length_heap_update.
    change (store (update j f s)) with (store s).
    change (fetchLog (update j f s)) with (fetchLog s).
    case_decide; subst; [|by apply Hen].
    destruct (heap s !! eid) as [e0|] eqn:He0; simpl; [|done].
    intros [= <-]. by apply Hf.
  - intros c Hc. rewrite length_heap_update. by apply Hlog.
Qed.

Lemma Inv_entry s eid e :
  Inv s → heap s !! eid = Some e →
  entry_ok (store s) (fetchLog s) (length (heap s)) eid e.
Proof. intros (_ & Hen & _). apply Hen. Qed.

Lemma Inv_emit eid r s s' : Inv s → emit eid r s = Some s' → Inv s'.
Proof.
  intros HI (e & He & ->)%emit_inv.
  eapply Inv_same; [done..|].
  apply Inv_update; [done|]. intros e' He'. split; [done|].
  by apply (Inv_entry s eid e').
Qed.

Lemma Inv_fetcher_notification eid n s s' :
  Inv s → fetcher_notification eid n s = Some s' → Inv s'.
Proof.
  intros HI. unfold fetcher_notification.
  destruct (heap s !! eid) as [e|] eqn:He; simpl; [|done].
  destruct (fetching e); [|by intros [= <-]].
  destruct n as [v|err|].
  - by apply Inv_emit.
  - destruct (storeRef e) as [c|]; simpl; [|done].
    destruct (heap s !! c); simpl; [|done].
    apply Inv_emit. apply Inv_update.
    + apply Inv_update; [done|]. intros e' He'. split; [done|].
      by apply (Inv_entry s c e').
    + intros e' He'. split; [done|].
      rewrite length_heap_update.
      assert (entry_ok (store s) (fetchLog s) (length (heap s)) eid e') as (?&?&?&?).
      { revert He'. rewrite heap_update. case_decide; subst.
        - destruct (heap s !! eid) as [e0|] eqn:He0; simpl; [|done].
          intros [= <-]. by apply (Inv_entry s eid e0).
        - by apply Inv_entry. }
      by repeat split.
  - intros [= <-]. apply Inv_update; [done|]. intros e' He'. split; [done|].
    destruct (Inv_entry s eid e' HI He') as (?&?&?&?). by repeat split.
Qed.

Lemma Inv_fetcher_notifications eid ns s s' :
  Inv s → fetcher_notifications eid ns s = Some s' → Inv s'.
Proof.
  revert s. induction ns as [|n ns IH]; simpl; intros s HI.
  - by intros [= <-].
  - destruct (fetcher_notification eid n s) as [s1|] eqn:H1; simpl; [|done].
    eauto using Inv_fetcher_notification.
Qed.

Lemma Inv_add_fetchLog eid e s :
  Inv s → heap s !! eid = Some e →
  calls eid (fetchLog s) < allowance e →
  Inv (add_fetchLog (eid, params e, extra0 e) s).
Proof.
  intros (Hst & Hen & Hlog) He Hlt. split; [|split]; simpl.
  - done.
  - intros j ej Hj. destruct (Hen _ _ Hj) as (?&?&?&Hc). repeat split; try done.
    rewrite calls_app. unfold calls at 2. simpl. rewrite filter_cons, filter_nil. simpl.
    case_decide; simpl; [|lia]. subst j. rewrite He in Hj. injection Hj as <-. lia.
  - intros c [Hc|Hc]%elem_of_app; [by apply Hlog|].
    apply list_elem_of_singleton in Hc as ->. simpl. by eapply lookup_lt_Some.
Qed.

Lemma Inv_networkFetchOb eid e s s' :
  Inv s → heap s !! eid = Some e → connected e = true →
  calls eid (fetchLog s) < allowance e →
  networkFetchOb eid s = Some s' → Inv s'.
Proof.
  intros HI He Hcon Hlt. unfold networkFetchOb. rewrite He. simpl.
  set (r := dict_get (key e) (store s)).
  assert (Inv (update eid (set_storeRef r) s)) as HI1.
  { apply Inv_update; [done|]. intros e' He'. rewrite He in He'. injection He' as <-.
    split; [done|]. destruct (Inv_entry s eid e HI He) as (?&?&?&?).
    repeat split; try done.
    intros c Hc. simpl in Hc. destruct HI as (Hst & _).
    destruct (Hst _ _ Hc) as (ec & Hec & _). by eapply lookup_lt_Some. }
  rewrite (emit_Some _ _ _ (set_storeRef r e)) by by apply heap_update_eq.
  simpl. destruct (fetch_subscribe _ _ _ _) as [b sync].
  apply Inv_fetcher_notifications.
  set (m := merge _ _).
  set (s2 := add_out _ (update eid (set_emitted _ m) (update eid (set_storeRef r) s))).
  assert (Inv s2) as HI2.
  { eapply Inv_emit; [exact HI1|].
    apply (emit_Some _ _ _ (set_storeRef r e)). by apply heap_update_eq. }
  assert (heap s2 !! eid = Some (set_emitted {| loading := true; value := None; error := None |} m (set_storeRef r e))) as He2.
  { unfold s2. simpl. rewrite list_lookup_alter_eq, list_lookup_alter_eq, He. done. }
  apply Inv_update.
  - eapply Inv_same; [..|eapply (Inv_add_fetchLog eid _ s2 HI2 He2)]; done.
  - intros e' He'. split; [done|].
    change (heap (set_backend b (add_fetchLog (eid, params e, extra0 e) s2))) with (heap s2) in *.
    rewrite He2 in He'. injection He' as <-.
    assert (Inv (add_fetchLog (eid, params e, extra0 e) s2)) as HI3
      by (by eapply (Inv_add_fetchLog eid _ s2 HI2 He2)).
    destruct (Inv_entry _ eid _ HI3 He2) as (?&?&?&?).
    repeat split; try done.
Qed.

Lemma Inv_switchMap eid e val s s' :
  Inv s → heap s !! eid = Some e → connected e = true →
  (val = None → calls eid (fetchLog s) < allowance e) →
  switchMap eid val s = Some s' → Inv s'.
Proof.
  intros HI He Hcon Hlt. unfold switchMap. rewrite He. simpl.
  set (s1 := if fetching e then _ else s).
  assert (Inv s1 ∧ ∃ e1, heap s1 !! eid = Some e1 ∧ connected e1 = true ∧
          allowance e1 = allowance e ∧ fetchLog s1 = fetchLog s) as (HI1 & e1 & He1 & Hc1 & Ha1 & Hl1).
  { unfold s1. destruct (fetching e); [|by eauto 10].
    split.
    - apply Inv_update; [by eapply Inv_same|]. intros e' He'. split; [done|].
      destruct (Inv_entry s eid e' HI He') as (?&?&?&?). by repeat split.
    - exists (set_fetching false e). split; [by apply heap_update_eq|done]. }
  destruct val as [v|].
  - by apply Inv_emit.
  - apply (Inv_networkFetchOb eid e1); try done. rewrite Hl1, Ha1. auto.
Qed.

Lemma Inv_updateValueRS_next eid val s s' :
  Inv s → updateValueRS_next eid val s = Some s' → Inv s'.
Proof.
  intros HI. unfold updateValueRS_next.
  destruct (heap s !! eid) as [e|] eqn:He; simpl; [|done].
  assert (Inv (update eid (set_updateValueRS val) s)) as HI1.
  { apply Inv_update; [done|]. intros e' He'. split; [done|].
    destruct (Inv_entry s eid e' HI He') as (?&?&?&Hc). repeat split; try done.
    unfold allowance in *. simpl. destruct val; lia. }
  destruct (connected e) eqn:Hcon; [|by intros [= <-]].
  apply (Inv_switchMap eid (set_updateValueRS val e)); try done.
  - by apply heap_update_eq.
  - intros ->. destruct (Inv_entry s eid e HI He) as (?&?&?&Hc).
    change (fetchLog (update eid (set_updateValueRS None) s)) with (fetchLog s).
    unfold allowance in *. simpl. lia.
Qed.

Lemma Inv_shareReplay_subscribe eid sid s s' :
  Inv s → shareReplay_subscribe eid sid s = Some s' → Inv s'.
Proof.
  intros HI. unfold shareReplay_subscribe.
  destruct (heap s !! eid) as [e|] eqn:He; simpl; [|done].
  destruct (if connected e then _ else _) as [s1|] eqn:H1; simpl; [|done].
  assert (Inv s1) as HI1.
  { destruct (connected e) eqn:Hcon; [by injection H1 as <-|].
    eapply (Inv_switchMap eid (set_connected true e)); [| |done| |exact H1].
    - apply Inv_update; [done|]. intros e' He'. split; [done|].
      destruct (Inv_entry s eid e' HI He') as (?&?&?&Hc). repeat split; try done.
      unfold allowance in *. simpl. destruct (connected e'); lia.
    - by apply heap_update_eq.
    - intros _. destruct (Inv_entry s eid e HI He) as (?&?&?&Hc).
      change (fetchLog (update eid (set_connected true) s)) with (fetchLog s).
      unfold allowance in *. rewrite Hcon in Hc. simpl. lia. }
  destruct (heap s1 !! eid) as [e1|] eqn:He1; simpl; [|done].
  intros [= <-]. eapply Inv_same; [done..|].
  apply Inv_update; [done|]. intros e' He'. split; [done|].
  by apply (Inv_entry s1 eid e').
Qed.

Lemma Inv_init p x s : Inv s → Inv (init p x s).
Proof.
  intros HI. unfold init. destruct (dict_get _ _) eqn:Hk; [done|].
  destruct HI as (Hst & Hen & Hlog). split; [|split]; simpl.
  - intros k eid. rewrite dict_get_add by done. case_decide as Hkk.
    + intros [= <-]. rewrite lookup_app_r, Nat.sub_diag by done. simpl. eauto.
    + intros Hg. destruct (Hst _ _ Hg) as (e & He & Hkey).
      exists e. split; [|done]. by apply lookup_app_l_Some.
  - intros eid e He. rewrite length_app. simpl.
    apply lookup_app_Some in He as [He|[Hge He]].
    + destruct (Hen _ _ He) as (?&Href&Hlt&?). repeat split; try done.
      * intros Hf. rewrite dict_get_add by done. case_decide; [|by auto].
        intros [= <-]. apply lookup_lt_Some in He. lia.
      * intros c Hc. specialize (Hlt _ Hc). lia.
    + apply list_lookup_singleton_Some in He as [Hz <-].
      repeat split; try done. unfold allowance. simpl.
      rewrite calls_0; [lia|]. intros c Hc. specialize (Hlog _ Hc). lia.
  - intros c Hc. rewrite length_app. specialize (Hlog _ Hc). simpl. lia.
Qed.

Lemma Inv__getStore p options s s' ob :
  Inv s → _getStore p options s = Some (s', ob) → Inv s'.
Proof.
  intros HI. unfold _getStore. apply (Inv_init p (extra options)) in HI.
  destruct (dict_get _ _) as [eid|]; simpl; [|done].
  destruct (heap _ !! eid) as [e|]; simpl; [|done].
  destruct (force options || lastFetchFailed e).
  - destruct (updateValueRS_next _ _ _) as [s1|] eqn:H1; simpl; [|done].
    destruct (dict_get _ (store s1)); simpl; [|done]. intros [= <- _].
    by eapply Inv_updateValueRS_next.
  - simpl. destruct (dict_get _ _); simpl; [|done]. by intros [= <- _].
Qed.

Lemma Inv__getStore_map ps options s s' obs :
  Inv s → _getStore_map ps options s = Some (s', obs) → Inv s'.
Proof.
  revert s obs. induction ps as [|p ps IH]; simpl; intros s obs HI.
  - by intros [= <- _].
  - destruct (_getStore p options s) as [[s1 ob]|] eqn:H1; simpl; [|done].
    destruct (_getStore_map ps options s1) as [[s2 obs']|] eqn:H2; simpl; [|done].
    intros [= <- _]. eauto using Inv__getStore.
Qed.

Lemma Inv_forEach {A} (f : A → State → option State) l s s' :
  (∀ a s s', Inv s → f a s = Some s' → Inv s') →
  Inv s → forEach f l s = Some s' → Inv s'.
Proof.
  intros Hf. revert s. induction l as [|a l IH]; simpl; intros s HI.
  - by intros [= <-].
  - destruct (f a s) as [s1|] eqn:H1; simpl; [|done]. eauto.
Qed.

Lemma Inv_expireKey k s s' : Inv s → expireKey k s = Some s' → Inv s'.
Proof.
  intros HI. unfold expireKey. destruct (dict_get _ _); simpl; [|done].
  by apply Inv_updateValueRS_next.
Qed.

Lemma Inv_onSubscribe k s s' : Inv s → onSubscribe k s = Some s' → Inv s'.
Proof.
  intros HI. unfold onSubscribe. destruct (dict_get _ _) as [c|]; simpl; [|done].
  destruct (heap s !! c) as [e|]; simpl; [|done]. intros [= <-].
  unfold clearTimeout. destruct (clearFromStorageTimer e); [|done].
  by eapply Inv_same.
Qed.

Lemma Inv_onUnsubscribe k n s s' : Inv s → onUnsubscribe k n s = Some s' → Inv s'.
Proof.
  intros HI. unfold onUnsubscribe. case_decide; [|by intros [= <-]].
  destruct (dict_get _ _) as [c|]; simpl; [|done].
  destruct (heap s !! c) as [e|]; simpl; [|done]. intros [= <-].
  apply Inv_update; [by eapply Inv_same|]. intros e' He'. split; [done|].
  by apply (Inv_entry s c e').
Qed.

Lemma Inv_advance dt s : Inv s → Inv (advance dt s).
Proof.
  intros HI. unfold advance.
  set (s0 := set_timers _ _).
  assert (Inv s0) as HI0 by by eapply Inv_same.
  clearbody s0. revert s0 HI0.
  induction (filter _ _) as [|t due IH]; simpl; intros s0 HI0; [done|].
  apply IH. destruct HI0 as (Hst & Hen & Hlog). split; [|split]; simpl; [| |done].
  - intros k eid. rewrite dict_get_delete. case_decide; [done|]. apply Hst.
  - intros eid e He. destruct (Hen _ _ He) as (?&Href&?&?). repeat split; try done.
    intros Hf. rewrite dict_get_delete. case_decide; [done|]. by apply Href.
Qed.

Lemma Inv_subscribe ob s s' sid : Inv s → subscribe ob s = Some (s', sid) → Inv s'.
Proof.
  intros HI. unfold subscribe.
  set (s0 := set_nextSubscriber _ s).
  assert (Inv s0) as HI0 by by eapply Inv_same.
  destruct monitored.
  - unfold SubscriberMonitor_subscribe.
    destruct (shareReplay_subscribe _ _ _) as [s1|] eqn:H1; simpl; [|done].
    apply Inv_shareReplay_subscribe in H1; [|done].
    destruct (heap s1 !! ob) as [e|] eqn:He; simpl; [|done].
    destruct (onSubscribe _ _) as [s2|] eqn:H2; simpl; [|done]. intros [= <- _].
    eapply Inv_onSubscribe; [|exact H2].
    apply Inv_update; [done|]. intros e' He'. split; [done|].
    by apply (Inv_entry s1 ob e').
  - destruct (shareReplay_subscribe _ _ _) as [s1|] eqn:H1; simpl; [|done].
    intros [= <- _]. by eapply Inv_shareReplay_subscribe.
Qed.

Lemma Inv_unsubscribe ob sid s s' : Inv s → unsubscribe ob sid s = Some s' → Inv s'.
Proof.
  intros HI. unfold unsubscribe.
  destruct (heap s !! ob) as [e|] eqn:He; simpl; [|done].
  case_decide; [|by intros [= <-]].
  assert (Inv (update ob (set_observers (filter (λ x, x ≠ sid) (observers e))) s)) as HI1.
  { apply Inv_update; [done|]. intros e' He'. split; [done|].
    by apply (Inv_entry s ob e'). }
  destruct monitored; [|by intros [= <-]].
  unfold SubscriberMonitor_unsubscribe. rewrite He. simpl.
  apply Inv_onUnsubscribe.
  apply Inv_update; [done|]. intros e' He'. split; [done|].
  by apply (Inv_entry _ ob e').
Qed.

Lemma Inv_step s ev s' : Inv s → step s ev = Some s' → Inv s'.
Proof.
  intros HI. destruct ev as [p o|ps o|p v| |pr|ob|ob sid|eid n|dt]; simpl.
  - unfold getStore. destruct (_getStore p o s) as [[s1 ob]|] eqn:H1; simpl; [|done].
    intros [= <-]. by eapply Inv__getStore.
  - unfold getStores. destruct ps as [|p ps]; [by intros [= <-]|].
    destruct (_getStore_map (p :: ps) o s) as [[s1 obs]|] eqn:H1; simpl; [|done].
    intros [= <-]. by eapply Inv__getStore_map.
  - unfold updateStoreValue. destruct (dict_get _ _); simpl; [|done].
    apply Inv_updateValueRS_next. by apply Inv_init.
  - apply Inv_forEach; [|done]. apply Inv_expireKey.
  - apply Inv_forEach; [|done]. intros k s0 s0' HI0.
    destruct (dict_get _ _) as [eid|]; simpl; [|done].
    destruct (heap s0 !! eid) as [e|]; simpl; [|done].
    destruct (pr (params e)); [by apply Inv_expireKey|by intros [= <-]].
  - destruct (subscribe ob s) as [[s1 sid]|] eqn:H1; simpl; [|done].
    intros [= <-]. by eapply Inv_subscribe.
  - by apply Inv_unsubscribe.
  - by apply Inv_fetcher_notification.
  - intros [= <-]. by apply Inv_advance.
Qed.

Lemma Inv_run evs s s' : Inv s → run s evs = Some s' → Inv s'.
Proof.
  revert s. induction evs as [|ev evs IH]; simpl; intros s HI.
  - by intros [= <-].
  - destruct (step s ev) as [s1|] eqn:H1; simpl; [|done].
    eauto using Inv_step.
Qed.

(** *** How a store changes over a run *)

(** Entries stay, and so do the bindings of the store object (nothing is
    deleted). *)
Definition grows (s s' : State) : Prop :=
  heap_le s s' ∧
  ∀ k eid, dict_get k (store s) = Some eid → dict_get k (store s') = Some eid.

Lemma grows_refl s : grows s s.
Proof. split; [apply heap_le_refl|done]. Qed.

Lemma grows_trans s1 s2 s3 : grows s1 s2 → grows s2 s3 → grows s1 s3.
Proof. intros [? H12] [? H23]. split; [by eapply heap_le_trans|]. auto. Qed.

Lemma quiet_grows s s' : quiet s s' → grows s s'.
Proof. intros [(Hst&_) Hle]. split; [done|]. by rewrite Hst. Qed.

Lemma grows_same s s' : store s' = store s → heap s' = heap s → grows s s'.
Proof.
  intros Hst Hh. split; [|by rewrite Hst].
  intros j e He. rewrite Hh. eauto using entry_le_refl.
Qed.

Lemma grows_update j f s :
  (∀ e, heap s !! j = Some e → entry_le e (f e)) → grows s (update j f s).
Proof. intros. by apply quiet_grows, quiet_update. Qed.

Lemma grows_init p x s : grows s (init p x s).
Proof.
  unfold init. destruct (dict_get _ _) eqn:Hk; [apply grows_refl|].
  split; simpl.
  - intros j e He. exists e. split; [by apply lookup_app_l_Some|apply entry_le_refl].
  - intros k eid Hg. rewrite dict_get_add by done. case_decide; [congruence|done].
Qed.

Lemma grows__getStore p options s s' ob :
  _getStore p options s = Some (s', ob) → grows s s'.
Proof.
  unfold _getStore. intros Hg. eapply grows_trans; [apply (grows_init p (extra options))|].
  revert Hg.
  destruct (dict_get _ _) as [eid|]; simpl; [|done].
  destruct (heap _ !! eid) as [e|]; simpl; [|done].
  destruct (force options || lastFetchFailed e).
  - destruct (updateValueRS_next _ _ _) as [s1|] eqn:H1; simpl; [|done].
    destruct (dict_get _ (store s1)); simpl; [|done]. intros [= <- _].
    by eapply quiet_grows, quiet_updateValueRS_next.
  - simpl. destruct (dict_get _ _); simpl; [|done]. intros [= <- _]. apply grows_refl.
Qed.

Lemma grows__getStore_map ps options s s' obs :
  _getStore_map ps options s = Some (s', obs) → grows s s'.
Proof.
  revert s obs. induction ps as [|p ps IH]; simpl; intros s obs.
  - intros [= <- _]. apply grows_refl.
  - destruct (_getStore p options s) as [[s1 ob]|] eqn:H1; simpl; [|done].
    destruct (_getStore_map ps options s1) as [[s2 obs']|] eqn:H2; simpl; [|done].
    intros [= <- _]. eauto using grows_trans, grows__getStore.
Qed.

Lemma grows_forEach {A} (f : A → State → option State) l s s' :
  (∀ a s s', f a s = Some s' → grows s s') →
  forEach f l s = Some s' → grows s s'.
Proof.
  intros Hf. revert s. induction l as [|a l IH]; simpl; intros s.
  - intros [= <-]. apply grows_refl.
  - destruct (f a s) as [s1|] eqn:H1; simpl; [|done]. eauto using grows_trans.
Qed.

Lemma grows_expireKey k s s' : expireKey k s = Some s' → grows s s'.
Proof.
  unfold expireKey. destruct (dict_get _ _); simpl; [|done].
  intros. by eapply quiet_grows, quiet_updateValueRS_next.
Qed.

Lemma grows_shareReplay_subscribe eid sid s s' :
  shareReplay_subscribe eid sid s = Some s' → grows s s'.
Proof.
  unfold shareReplay_subscribe.
  destruct (heap s !! eid) as [e|] eqn:He; simpl; [|done].
  destruct (connected e) eqn:Hcon.
  - simpl. rewrite He. simpl. intros [= <-].
    eapply grows_trans; [|by apply grows_same].
    apply grows_update. intros e' _. by repeat split.
  - destruct (switchMap _ _ _) as [s1|] eqn:H1; simpl; [|done].
    destruct (heap s1 !! eid) as [e1|] eqn:He1; simpl; [|done]. intros [= <-].
    eapply grows_trans; [apply (grows_update eid (set_connected true))|].
    { intros e' _. by repeat split. }
    eapply grows_trans; [eapply quiet_grows, quiet_switchMap, H1|].
    eapply grows_trans; [|by apply grows_same].
    apply grows_update. intros e' _. by repeat split.
Qed.

Lemma grows_onSubscribe k s s' : onSubscribe k s = Some s' → grows s s'.
Proof.
  unfold onSubscribe. destruct (dict_get _ _) as [c|]; simpl; [|done].
  destruct (heap s !! c) as [e|]; simpl; [|done]. intros [= <-].
  unfold clearTimeout. destruct (clearFromStorageTimer e); [|apply grows_refl].
  by apply grows_same.
Qed.

Lemma grows_onUnsubscribe k n s s' : onUnsubscribe k n s = Some s' → grows s s'.
Proof.
  unfold onUnsubscribe. case_decide; [|intros [= <-]; apply grows_refl].
  destruct (dict_get _ _) as [c|]; simpl; [|done].
  destruct (heap s !! c) as [e|]; simpl; [|done]. intros [= <-].
  eapply grows_trans; [|apply grows_update; intros e' _; by repeat split].
  by apply grows_same.
Qed.

Lemma grows_subscribe ob s s' sid : subscribe ob s = Some (s', sid) → grows s s'.
Proof.
  unfold subscribe. intros Hs.
  eapply grows_trans; [apply (grows_same s (set_nextSubscriber (S (nextSubscriber s)) s)); done|].
  revert Hs. destruct monitored.
  - unfold SubscriberMonitor_subscribe.
    destruct (shareReplay_subscribe _ _ _) as [s1|] eqn:H1; simpl; [|done].
    destruct (heap s1 !! ob) as [e|] eqn:He; simpl; [|done].
    destruct (onSubscribe _ _) as [s2|] eqn:H2; simpl; [|done]. intros [= <- _].
    eapply grows_trans; [by eapply grows_shareReplay_subscribe|].
    eapply grows_trans; [|by eapply grows_onSubscribe].
    apply grows_update. intros e' _. by repeat split.
  - destruct (shareReplay_subscribe _ _ _) as [s1|] eqn:H1; simpl; [|done].
    intros [= <- _]. by eapply grows_shareReplay_subscribe.
Qed.

Lemma grows_unsubscribe ob sid s s' : unsubscribe ob sid s = Some s' → grows s s'.
Proof.
  unfold unsubscribe.
  destruct (heap s !! ob) as [e|] eqn:He; simpl; [|done].
  case_decide; [|intros [= <-]; apply grows_refl].
  destruct monitored.
  - unfold SubscriberMonitor_unsubscribe. rewrite He. simpl. intros Hu.
    eapply grows_trans; [|by eapply grows_onUnsubscribe].
    eapply grows_trans; apply grows_update; intros e' _; by repeat split.
  - intros [= <-]. apply grows_update. intros e' _. by repeat split.
Qed.

Definition is_Advance (ev : Event) : bool :=
  match ev with Advance _ => true | _ => false end.

Lemma grows_step s ev s' : is_Advance ev = false → step s ev = Some s' → grows s s'.
Proof.
  destruct ev as [p o|ps o|p v| |pr|ob|ob sid|eid n|dt]; simpl; intros Hadv; [..|done].
  - unfold getStore. destruct (_getStore p o s) as [[s1 ob]|] eqn:H1; simpl; [|done].
    intros [= <-]. by eapply grows__getStore.
  - unfold getStores. destruct ps as [|p ps]; [intros [= <-]; apply grows_refl|].
    destruct (_getStore_map (p :: ps) o s) as [[s1 obs]|] eqn:H1; simpl; [|done].
    intros [= <-]. by eapply grows__getStore_map.
  - unfold updateStoreValue. destruct (dict_get _ _); simpl; [|done].
    intros Hn. eapply grows_trans; [apply (grows_init p None)|].
    by eapply quiet_grows, quiet_updateValueRS_next.
  - apply grows_forEach. apply grows_expireKey.
  - apply grows_forEach. intros k s0 s0'.
    destruct (dict_get _ _) as [eid|]; simpl; [|done].
    destruct (heap s0 !! eid) as [e|]; simpl; [|done].
    destruct (pr (params e)); [by apply grows_expireKey|intros [= <-]; apply grows_refl].
  - destruct (subscribe ob s) as [[s1 sid]|] eqn:H1; simpl; [|done].
    intros [= <-]. by eapply grows_subscribe.
  - by apply grows_unsubscribe.
  - intros. by eapply quiet_grows, quiet_fetcher_notification.
Qed.

(** The timer callbacks delete bindings and do nothing else. *)
Lemma advance_heap dt s : heap (advance dt s) = heap s.
Proof.
  unfold advance. set (s0 := set_timers _ _).
  change (heap s) with (heap s0). clearbody s0. revert s0.
  induction (filter _ _) as [|t due IH]; simpl; intros s0; [done|]. by rewrite IH.
Qed.

Lemma advance_fetchLog dt s : fetchLog (advance dt s) = fetchLog s.
Proof.
  unfold advance. set (s0 := set_timers _ _).
  change (fetchLog s) with (fetchLog s0). clearbody s0. revert s0.
  induction (filter _ _) as [|t due IH]; simpl; intros s0; [done|]. by rewrite IH.
Qed.





(** *** Runs without force, expiry or failure *)























(** *** The keys of the store object *)

Lemma store_shareReplay_subscribe eid sid s s' :
  shareReplay_subscribe eid sid s = Some s' → store s' = store s.
Proof.
  unfold shareReplay_subscribe.
  destruct (heap s !! eid) as [e|] eqn:He; simpl; [|done].
  destruct (if connected e then _ else _) as [s1|] eqn:Hs1; simpl; [|done].
  destruct (heap s1 !! eid) as [e1|]; simpl; [|done]. intros [= <-]. simpl.
  destruct (connected e); [by injection Hs1 as <-|].
  by apply quiet_switchMap in Hs1 as [(-> & _) _].
Qed.

Lemma store_onSubscribe k s s' : onSubscribe k s = Some s' → store s' = store s.
Proof.
  unfold onSubscribe. destruct (dict_get _ _) as [c|]; simpl; [|done].
  destruct (heap s !! c) as [e|]; simpl; [|done]. intros [= <-].
  unfold clearTimeout. by destruct (clearFromStorageTimer e).
Qed.

Lemma store_onUnsubscribe k n s s' : onUnsubscribe k n s = Some s' → store s' = store s.
Proof.
  unfold onUnsubscribe. case_decide; [|by intros [= <-]].
  destruct (dict_get _ _) as [c|]; simpl; [|done].
  destruct (heap s !! c) as [e|]; simpl; [|done]. by intros [= <-].
Qed.

Lemma store_subscribe ob s s' sid : subscribe ob s = Some (s', sid) → store s' = store s.
Proof.
  unfold subscribe. destruct monitored.
  - unfold SubscriberMonitor_subscribe.
    destruct (shareReplay_subscribe _ _ _) as [s1|] eqn:Hs1; simpl; [|done].
    destruct (heap s1 !! ob) as [e|]; simpl; [|done].
    destruct (onSubscribe _ _) as [s2|] eqn:Hs2; simpl; [|done]. intros [= <- _].
    apply store_onSubscribe in Hs2. apply store_shareReplay_subscribe in Hs1.
    by rewrite Hs2.
  - destruct (shareReplay_subscribe _ _ _) as [s1|] eqn:Hs1; simpl; [|done].
    intros [= <- _]. by apply store_shareReplay_subscribe in Hs1.
Qed.

Lemma store_unsubscribe ob sid s s' : unsubscribe ob sid s = Some s' → store s' = store s.
Proof.
  unfold unsubscribe.
  destruct (heap s !! ob) as [e|] eqn:He; simpl; [|done].
  case_decide; [|by intros [= <-]].
  destruct monitored; [|by intros [= <-]].
  unfold SubscriberMonitor_unsubscribe. rewrite He. simpl.
  by intros ->%store_onUnsubscribe.
Qed.

Lemma store_forEach {A} (f : A → State → option State) l s s' :
  (∀ a s s', f a s = Some s' → store s' = store s) →
  forEach f l s = Some s' → store s' = store s.
Proof.
  intros Hf. revert s. induction l as [|a l IH]; simpl; intros s.
  - by intros [= <-].
  - destruct (f a s) as [s1|] eqn:Hs1; simpl; [|done].
    intros Hs'. apply IH in Hs'. apply Hf in Hs1. congruence.
Qed.

Lemma store_expireKey k s s' : expireKey k s = Some s' → store s' = store s.
Proof.
  unfold expireKey. destruct (dict_get _ _); simpl; [|done].
  by intros [(-> & _) _]%quiet_updateValueRS_next.
Qed.

Lemma store__getStore p options s s' ob :
  _getStore p options s = Some (s', ob) → store s' = store (init p (extra options) s).
Proof.
  unfold _getStore.
  destruct (dict_get _ _) as [eid|]; simpl; [|done].
  destruct (heap _ !! eid) as [e|]; simpl; [|done].
  destruct (force options || lastFetchFailed e).
  - destruct (updateValueRS_next _ _ _) as [s1|] eqn:Hs1; simpl; [|done].
    destruct (dict_get _ (store s1)); simpl; [|done]. intros [= <- _].
    by apply quiet_updateValueRS_next in Hs1 as [(-> & _) _].
  - simpl. destruct (dict_get _ _); simpl; [|done]. by intros [= <- _].
Qed.

Definition keys_NoDup (s : State) : Prop := NoDup (dict_keys (store s)).

Lemma dict_get_None_keys {V} k (d : list (string * V)) :
  dict_get k d = None → k ∉ dict_keys d.
Proof.
  unfold dict_keys. induction d as [|[k' v] d IH]; simpl; [intros _; apply not_elem_of_nil|].
  case_decide; [done|]. intros Hd. apply not_elem_of_cons. auto.
Qed.

Lemma keys_NoDup_init p x s : keys_NoDup s → keys_NoDup (init p x s).
Proof.
  unfold keys_NoDup, init. destruct (dict_get _ _) eqn:Hk; [done|]. simpl.
  unfold dict_add, dict_keys. rewrite fmap_app. simpl. intros Hnd.
  apply NoDup_app. split; [done|]. split; [|apply NoDup_singleton].
  intros k Hin ->%list_elem_of_singleton. by apply dict_get_None_keys in Hk.
Qed.

Lemma keys_NoDup_delete {V} k (d : list (string * V)) :
  NoDup (dict_keys d) → NoDup (dict_keys (dict_delete k d)).
Proof.
  unfold dict_keys, dict_delete. induction d as [|[k' v] d IH]; simpl; [done|].
  intros [Hnin Hnd]%NoDup_cons. rewrite filter_cons. simpl.
  case_decide; [|by apply IH]. rewrite fmap_cons. apply NoDup_cons. split; [|by apply IH].
  simpl. intros (kv & Hkv & [_ Hin]%list_elem_of_filter)%list_elem_of_fmap.
  apply Hnin. apply list_elem_of_fmap. by exists kv.
Qed.

Lemma keys_NoDup_advance dt s : keys_NoDup s → keys_NoDup (advance dt s).
Proof.
  unfold keys_NoDup, advance. set (s0 := set_timers _ _).
  change (store s) with (store s0). clearbody s0. revert s0.
  induction (filter _ _) as [|t due IH]; simpl; intros s0 Hnd; [done|].
  apply IH. simpl. by apply keys_NoDup_delete.
Qed.

Lemma keys_NoDup__getStore_map ps options s s' obs :
  keys_NoDup s → _getStore_map ps options s = Some (s', obs) → keys_NoDup s'.
Proof.
  revert s obs. induction ps as [|p ps IH]; simpl; intros s obs Hnd.
  - by intros [= <- _].
  - destruct (_getStore p options s) as [[s1 ob]|] eqn:Hs1; simpl; [|done].
    destruct (_getStore_map ps options s1) as [[s2 obs']|] eqn:Hs2; simpl; [|done].
    intros [= <- _]. apply (IH s1 obs'); [|done].
    unfold keys_NoDup. rewrite (store__getStore _ _ _ _ _ Hs1). by apply keys_NoDup_init.
Qed.

(** The store object holds each key once. *)
Lemma keys_NoDup_step s ev s' : keys_NoDup s → step s ev = Some s' → keys_NoDup s'.
Proof.
  intros Hnd. destruct ev as [p o|ps o|p v| |pr|ob|ob sid|eid n|dt]; simpl.
  - unfold getStore. destruct (_getStore p o s) as [[s1 ob]|] eqn:Hs1; simpl; [|done].
    intros [= <-]. unfold keys_NoDup. rewrite (store__getStore _ _ _ _ _ Hs1).
    by apply keys_NoDup_init.
  - unfold getStores. destruct ps as [|p ps]; [by intros [= <-]|].
    destruct (_getStore_map (p :: ps) o s) as [[s1 obs]|] eqn:Hs1; simpl; [|done].
    intros [= <-]. by eapply keys_NoDup__getStore_map.
  - unfold updateStoreValue. destruct (dict_get _ _); simpl; [|done].
    intros [(Hst & _) _]%quiet_updateValueRS_next. unfold keys_NoDup. rewrite Hst.
    by apply keys_NoDup_init.
  - intros Hs'. unfold keys_NoDup.
    by rewrite (store_forEach _ _ _ _ store_expireKey Hs').
  - intros Hs'. unfold keys_NoDup. apply store_forEach in Hs'; [by rewrite Hs'|].
    intros k s0 s0'. destruct (dict_get _ _) as [eid|]; simpl; [|done].
    destruct (heap s0 !! eid) as [e|]; simpl; [|done].
    destruct (pr (params e)); [apply store_expireKey|by intros [= <-]].
  - destruct (subscribe ob s) as [[s1 sid]|] eqn:Hs1; simpl; [|done].
    intros [= <-]. unfold keys_NoDup. by rewrite (store_subscribe _ _ _ _ Hs1).
  - intros Hs'. unfold keys_NoDup. by rewrite (store_unsubscribe _ _ _ _ Hs').
  - intros [(Hst & _) _]%quiet_fetcher_notification. unfold keys_NoDup. by rewrite Hst.
  - intros [= <-]. by apply keys_NoDup_advance.
Qed.

Lemma keys_NoDup_run evs s s' : keys_NoDup s → run s evs = Some s' → keys_NoDup s'.
Proof.
  revert s. induction evs as [|ev evs IH]; simpl; intros s Hnd.
  - by intros [= <-].
  - destruct (step s ev) as [s1|] eqn:Hs1; simpl; [|done].
    eauto using keys_NoDup_step.
Qed.

(** *** Repeated calls of [getStore] *)



Lemma _getStore_ob p options s s' ob :
  _getStore p options s = Some (s', ob) → dict_get (getKey p) (store s') = Some ob.
Proof.
  unfold _getStore.
  destruct (dict_get _ _) as [eid|]; simpl; [|done].
  destruct (heap _ !! eid) as [e|]; simpl; [|done].
  destruct (if force options || lastFetchFailed e then _ else _) as [s1|]; simpl; [|done].
  destruct (dict_get _ (store s1)) eqn:Hk; simpl; [|done]. by intros [= <- <-].
Qed.

Lemma _getStore_existing p options s s' ob eid :
  dict_get (getKey p) (store s) = Some eid →
  _getStore p options s = Some (s', ob) → ob = eid.
Proof.
  intros Hk Hg. destruct (grows__getStore _ _ _ _ _ Hg) as [_ Hst].
  apply Hst in Hk. apply _getStore_ob in Hg. congruence.
Qed.




(** *** Notifications of the fetcher's stream *)

(** [passes eid s s']: what handling notifications of entry [eid]'s fetch
    leaves alone. *)
Definition passes (eid : nat) (s s' : State) : Prop :=
  store s' = store s ∧ length (heap s') = length (heap s) ∧
  fetchLog s' = fetchLog s ∧ (∃ rest, out s' = out s ++ rest) ∧
  ∀ e, heap s !! eid = Some e →
    ∃ e', heap s' !! eid = Some e' ∧ storeRef e' = storeRef e ∧
      observers e' = observers e ∧ invalidations e' = invalidations e ∧
      connected e' = connected e ∧ key e' = key e ∧ params e' = params e ∧
      extra0 e' = extra0 e ∧ updateValueRS e' = updateValueRS e.

Lemma passes_refl eid s : passes eid s s.
Proof.
  repeat split; try done; [exists []; by rewrite app_nil_r|]. intros e He. eauto 15.
Qed.

Lemma passes_trans eid s1 s2 s3 : passes eid s1 s2 → passes eid s2 s3 → passes eid s1 s3.
Proof.
  intros (?&?&?&[r1 Hr1]&H12) (?&?&?&[r2 Hr2]&H23).
  repeat split; try congruence.
  - exists (r1 ++ r2). by rewrite Hr2, Hr1, <- app_assoc.
  - intros e He. destruct (H12 _ He) as (e2 & He2 &?&?&?&?&?&?&?&?).
    destruct (H23 _ He2) as (e3 & He3 &?&?&?&?&?&?&?&?).
    exists e3. repeat split; congruence.
Qed.

Lemma passes_update eid j f s :
  (∀ e, storeRef (f e) = storeRef e ∧ observers (f e) = observers e ∧
        invalidations (f e) = invalidations e ∧ connected (f e) = connected e ∧
        key (f e) = key e ∧ params (f e) = params e ∧ extra0 (f e) = extra0 e ∧
        updateValueRS (f e) = updateValueRS e) →
  passes eid s (update j f s).
Proof.
  intros Hf. repeat split; try done.
  - apply length_heap_update.
  - exists []. by rewrite app_nil_r.
  - intros e He. rewrite heap_update. case_decide; subst; rewrite He; simpl; [|eauto 15].
    exists (f e). split; [done|]. apply Hf.
Qed.

Lemma passes_emit eid j r s s' : emit j r s = Some s' → passes eid s s'.
Proof.
  intros (e & He & ->)%emit_inv.
  eapply passes_trans; [apply (passes_update eid j (set_emitted r (merge (previousValue e) r)))|].
  { by intros. }
  repeat split; try done; [by eexists|]. intros e' He'. eauto 15.
Qed.

Lemma passes_fetcher_notification eid n s s' :
  fetcher_notification eid n s = Some s' → passes eid s s'.
Proof.
  unfold fetcher_notification.
  destruct (heap s !! eid) as [e|] eqn:He; simpl; [|done].
  destruct (fetching e); [|intros [= <-]; apply passes_refl].
  destruct n as [v|err|].
  - apply passes_emit.
  - destruct (storeRef e) as [c|]; simpl; [|done].
    destruct (heap s !! c); simpl; [|done].
    intros Hemit%(passes_emit eid).
    eapply passes_trans; [|eapply passes_trans; [|exact Hemit]].
    + by apply (passes_update eid c (set_lastFetchFailed true)).
    + by apply passes_update.
  - intros [= <-]. by apply passes_update.
Qed.

Lemma passes_fetcher_notifications eid ns s s' :
  fetcher_notifications eid ns s = Some s' → passes eid s s'.
Proof.
  revert s. induction ns as [|n ns IH]; simpl; intros s.
  - intros [= <-]. apply passes_refl.
  - destruct (fetcher_notification eid n s) as [s1|] eqn:H1; simpl; [|done].
    intros H2. eauto using passes_trans, passes_fetcher_notification.
Qed.

(** With a [store] at hand, [catchError] does not raise. *)
Lemma fetcher_notification_total eid n s e c :
  heap s !! eid = Some e → storeRef e = Some c → c < length (heap s) →
  is_Some (fetcher_notification eid n s).
Proof.
  intros He Href Hc. unfold fetcher_notification. rewrite He. simpl.
  destruct (fetching e); [|done].
  destruct n as [v|err|]; [| |done].
  - by rewrite (emit_Some _ _ _ e).
  - rewrite Href. simpl. destruct (lookup_lt_is_Some_2 _ _ Hc) as [ec Hec].
    rewrite Hec. simpl.
    assert (is_Some (heap (update eid (set_fetching false)
              (update c (set_lastFetchFailed true) s)) !! eid)) as [e' He'].
    { apply lookup_lt_is_Some. rewrite !length_heap_update. by eapply lookup_lt_Some. }
    by rewrite (emit_Some _ _ _ e').
Qed.

Lemma fetcher_notifications_total eid ns s e c :
  heap s !! eid = Some e → storeRef e = Some c → c < length (heap s) →
  is_Some (fetcher_notifications eid ns s).
Proof.
  revert s e. induction ns as [|n ns IH]; simpl; intros s e He Href Hc; [done|].
  destruct (fetcher_notification_total eid n s e c He Href Hc) as [s1 H1].
  rewrite H1. simpl.
  destruct (passes_fetcher_notification _ _ _ _ H1) as (_ & Hlen & _ & _ & Hp).
  destruct (Hp _ He) as (e1 & He1 & Href1 & _).
  apply (IH s1 e1); [done|congruence|lia].
Qed.

(** [updateValueRS.next(undefined)] on an entry the store object holds and
    whose stream is connected: the observers receive the loading state, and
    the fetcher is called once. *)
Lemma refetch s k eid e :
  Inv s → dict_get k (store s) = Some eid → heap s !! eid = Some e →
  connected e = true →
  ∃ s' e' rest,
    updateValueRS_next eid None s = Some s' ∧
    store s' = store s ∧
    fetchLog s' = fetchLog s ++ [(eid, params e, extra0 e)] ∧
    out s' = out s ++
      ((λ sid, (sid, merge (previousValue e)
                       {| loading := true; value := None; error := None |}))
         <$> observers e) ++ rest ∧
    heap s' !! eid = Some e' ∧ invalidations e' = S (invalidations e) ∧
    observers e' = observers e.
Proof.
  intros HI Hk He Hcon.
  destruct HI as (Hst & _). destruct (Hst _ _ Hk) as (e0 & He0 & Hkey).
  rewrite He in He0. injection He0 as <-.
  unfold updateValueRS_next. rewrite He. simpl. rewrite Hcon.
  unfold switchMap. rewrite (heap_update_eq _ _ _ e He). simpl.
  set (s1 := if fetching e then _ else _).
  assert (∃ e1, heap s1 !! eid = Some e1 ∧ previousValue e1 = previousValue e ∧
            observers e1 = observers e ∧ invalidations e1 = S (invalidations e) ∧
            key e1 = key e ∧ params e1 = params e ∧ extra0 e1 = extra0 e ∧
            store s1 = store s ∧ fetchLog s1 = fetchLog s ∧ out s1 = out s ∧
            length (heap s1) = length (heap s))
    as (e1 & He1 & Hp1 & Ho1 & Hi1 & Hk1 & Hpa1 & Hx1 & Hst1 & Hl1 & Hout1 & Hlen1).
  { unfold s1. destruct (fetching e).
    - exists (set_fetching false (set_updateValueRS None e)). repeat split.
      + apply heap_update_eq. simpl. by rewrite list_lookup_alter_eq, He.
      + simpl. by rewrite !length_alter.
    - exists (set_updateValueRS None e). repeat split.
      + by apply heap_update_eq.
      + simpl. by rewrite length_alter. }
  clearbody s1. unfold networkFetchOb. rewrite He1. simpl.
  set (r := dict_get (key e1) (store s1)).
  rewrite (emit_Some _ _ _ (set_storeRef r e1)) by by apply heap_update_eq.
  simpl. destruct (fetch_subscribe _ _ _ _) as [b sync].
  set (s3 := update eid (set_fetching true) _).
  assert (heap s3 !! eid = Some (set_fetching true (set_emitted
            {| loading := true; value := None; error := None |}
            (merge (previousValue e1) {| loading := true; value := None; error := None |})
            (set_storeRef r e1)))) as He3.
  { unfold s3. apply heap_update_eq. simpl.
    by rewrite !list_lookup_alter_eq, He1. }
  destruct (fetcher_notifications_total eid sync s3 _ eid He3) as [s' Hs'].
  { simpl. unfold r. rewrite Hk1, Hst1, Hkey. done. }
  { unfold s3. simpl. rewrite !length_alter. rewrite Hlen1. by eapply lookup_lt_Some. }
  rewrite Hs'.
  destruct (passes_fetcher_notifications _ _ _ _ Hs') as (Hst' & _ & Hlog' & [rest Hrest] & Hp).
  destruct (Hp _ He3) as (e' & He' & _ & Ho' & Hi' & _).
  exists s', e', rest. split; [done|]. split; [by rewrite Hst'|].
  split; [rewrite Hlog'; simpl; by rewrite Hl1, Hpa1, Hx1|].
  split; [rewrite Hrest; simpl; by rewrite Hout1, Hp1, Ho1, <- app_assoc|].
  split; [done|]. simpl in *. split; congruence.
Qed.

(** [getStore] on an entry the store object holds, with [force] or after a
    failed fetch. *)
Lemma getStore_refetch s p options eid e :
  Inv s → dict_get (getKey p) (store s) = Some eid → heap s !! eid = Some e →
  connected e = true → force options || lastFetchFailed e = true →
  ∃ s' e' rest,
    getStore p options s = Some (s', eid) ∧
    fetchLog s' = fetchLog s ++ [(eid, params e, extra0 e)] ∧
    out s' = out s ++
      ((λ sid, (sid, merge (previousValue e)
                       {| loading := true; value := None; error := None |}))
         <$> observers e) ++ rest ∧
    heap s' !! eid = Some e' ∧ invalidations e' = S (invalidations e) ∧
    observers e' = observers e.
Proof.
  intros HI Hk He Hcon Hf.
  destruct (refetch s _ eid e HI Hk He Hcon) as (s' & e' & rest & Hn & Hst & Hrest).
  exists s', e', rest. split; [|done].
  unfold getStore, _getStore, init. rewrite Hk. simpl. rewrite Hk. simpl.
  rewrite He. simpl. rewrite Hf, Hn. simpl. rewrite Hst, Hk. done.
Qed.

(** *** A failing fetch *)

(** What handling the failure [err] of the fetch of a held entry does. *)
Lemma fetch_failure b evs s k eid e err :
  run (new b) evs = Some s →
  dict_get k (store s) = Some eid → heap s !! eid = Some e → fetching e = true →
  let result :=
    {| loading := false; value := previousValue e ≫= value;
       error := if truthy (errorParserLogger err) then errorParserLogger err else None |} in
  ∃ s1 e1,
    step s (FetcherNotifies eid (Error err)) = Some s1 ∧
    Inv s1 ∧ store s1 = store s ∧ fetchLog s1 = fetchLog s ∧
    out s1 = out s ++ ((λ sid, (sid, result)) <$> observers e) ∧
    heap s1 !! eid = Some e1 ∧ replay e1 = Some result ∧
    previousValue e1 =
      Some {| loading := false; value := None; error := errorParserLogger err |} ∧
    observers e1 = observers e ∧ params e1 = params e ∧ extra0 e1 = extra0 e ∧
    lastFetchFailed e1 = true ∧ connected e1 = true.
Proof.
  intros Hrun Hk He Hf result.
  assert (Inv s) as HI by (eapply Inv_run; [apply Inv_new|exact Hrun]).
  destruct (Inv_entry s eid e HI He) as (Hcon & Href & _ & _).
  pose proof HI as (Hst & _). destruct (Hst _ _ Hk) as (e0 & He0 & Hkey).
  rewrite He in He0. injection He0 as <-.
  rewrite <- Hkey in Hk. specialize (Href Hf Hk). specialize (Hcon Hf).
  assert (step s (FetcherNotifies eid (Error err)) =
          Some (add_out ((λ sid, (sid, result)) <$> observers e)
                  (update eid (set_emitted
                     {| loading := false; value := None; error := errorParserLogger err |}
                     result)
                     (update eid (set_fetching false)
                        (update eid (set_lastFetchFailed true) s))))) as Hstep.
  { simpl. unfold fetcher_notification. rewrite He. simpl. rewrite Hf, Href. simpl.
    rewrite He. simpl.
    rewrite (emit_Some _ _ _ (set_fetching false (set_lastFetchFailed true e))); [done|].
    apply heap_update_eq. by apply heap_update_eq. }
  eexists _, (set_emitted
                {| loading := false; value := None; error := errorParserLogger err |}
                result (set_fetching false (set_lastFetchFailed true e))).
  split; [exact Hstep|].
  split; [by eapply Inv_step|].
  repeat split; try done.
  simpl. by rewrite !list_lookup_alter_eq, He.
Qed.



(** *** Values of the fetcher's stream *)

(** [{ loading: false, value, error: undefined }] *)
Definition ready (v : option T) : IRxStore :=
  {| loading := false; value := v; error := None |}.

Lemma merge_truthy prev v : truthy v = true → merge prev (ready v) = ready v.
Proof. intros Hv. unfold merge, js_or, ready. simpl. by rewrite Hv. Qed.



Lemma fetcher_values eid vs s e :
  heap s !! eid = Some e → fetching e = true →
  Forall (λ v, truthy v = true) vs →
  ∃ s' e',
    run s (FetcherNotifies eid ∘ Next <$> vs) = Some s' ∧
    out s' = out s ++ (vs ≫= λ v, (λ sid, (sid, ready v)) <$> observers e) ∧
    fetchLog s' = fetchLog s ∧
    heap s' !! eid = Some e' ∧ observers e' = observers e ∧
    fetching e' = true ∧ connected e' = connected e ∧
    replay e' = match last vs with Some v => Some (ready v) | None => replay e end.
Proof.
  intros He Hf Hvs. revert s e He Hf.
  induction Hvs as [|v vs Hv Hvs IH]; intros s e He Hf.
  - exists s, e. simpl. by rewrite app_nil_r.
  - set (s1 := add_out ((λ sid, (sid, ready v)) <$> observers e)
                 (update eid (set_emitted (ready v) (ready v)) s)).
    assert (step s (FetcherNotifies eid (Next v)) = Some s1) as Hstep.
    { simpl. unfold fetcher_notification. rewrite He. simpl. rewrite Hf.
      rewrite (emit_Some _ _ _ e He). fold (ready v). by rewrite merge_truthy. }
    destruct (IH s1 (set_emitted (ready v) (ready v) e)) as (s' & e' & Hrun & Hout & Hlog & He' & Hobs & Hf' & Hcon & Hrep).
    { by apply heap_update_eq. }
    { done. }
    exists s', e'.
    change (run s (FetcherNotifies eid ∘ Next <$> v :: vs))
      with (step s (FetcherNotifies eid (Next v)) ≫=
              λ s, run s (FetcherNotifies eid ∘ Next <$> vs)).
    rewrite Hstep. simpl.
    split; [done|]. split.
    { rewrite Hout. unfold s1. simpl. by rewrite <- app_assoc. }
    repeat (split; [done|]).
    rewrite Hrep, last_cons. simpl. by destruct (last vs).
Qed.


(** *** getStores *)

(** The [map] of [getStores]:
    [anyLoading = storeOutput.map(store => store.loading).some(loading => loading === true)],
    [values = storeOutput.map(store => store.value).filter(Boolean)],
    [errors = storeOutput.map(store => store.error).filter(Boolean)]. *)
Definition combine (storeOutput : list IRxStore) : IRxStores :=
  {| loadings := existsb (λ l, eqb l true) (loading <$> storeOutput);
     values := filter_Boolean (value <$> storeOutput);
     errors := filter_Boolean (error <$> storeOutput) |}.

(** A subscription to the observable [getStores] returns:
    - [latest]: the last value of each source, as [combineLatest] keeps
      them ([None]: the source has sent nothing yet);
    - [lastKey]: the [loading] of the last value
      [distinctUntilKeyChanged("loading")] let through. *)
Record Combined := {
  latest : list (option IRxStore);
  lastKey : option bool;
}.

(** Subscribing to [n] sources. *)
Definition Combined_new (n : nat) : Combined :=
  {| latest := replicate n None; lastKey := None |}.

(** Source [i] sends [r]: [combineLatest] sends the array of the last values
    once every source has sent one, the [map] turns it into an [IRxStores],
    and [distinctUntilKeyChanged("loading")] lets it through when it is the
    first or its [loading] is not that of the last one let through.  The
    result is the new state and what the subscriber receives. *)
Definition Combined_next (i : nat) (r : IRxStore) (c : Combined)
    : Combined * option IRxStores :=
  let latest' := <[i := Some r]> (latest c) in
  match mapM id latest' with
  | None => ({| latest := latest'; lastKey := lastKey c |}, None)
  | Some storeOutput =>
      let v := combine storeOutput in
      if decide (lastKey c = Some (loadings v))
      then ({| latest := latest'; lastKey := lastKey c |}, None)
      else ({| latest := latest'; lastKey := Some (loadings v) |}, Some v)
  end.

(** What the subscriber receives while the sources send [inputs], each with
    the position of its source. *)
Fixpoint Combined_run (inputs : list (nat * IRxStore)) (c : Combined)
    : list IRxStores :=
  match inputs with
  | [] => []
  | (i, r) :: inputs =>
      let '(c, o) := Combined_next i r c in
      option_list o ++ Combined_run inputs c
  end.

(** The inputs of a subscription whose subscriptions to the sources are
    [sids], read off what those received: [combineLatest] subscribes to its
    sources in order. *)
Definition Combined_inputs (sids : list nat) (o : list (nat * IRxStore))
    : list (nat * IRxStore) :=
  omap (λ x, i ← fst <$> list_find (λ sid, sid = x.1) sids; Some (i, x.2)) o.



Lemma Combined_next_inv c i r c' o :
  Combined_next i r c = (c', o) →
  latest c' = <[i := Some r]> (latest c) ∧
  match mapM id (<[i := Some r]> (latest c)) with
  | None => o = None ∧ lastKey c' = lastKey c
  | Some storeOutput =>
      let v := combine storeOutput in
      if decide (lastKey c = Some (loadings v))
      then o = None ∧ lastKey c' = lastKey c
      else o = Some v ∧ lastKey c' = Some (loadings v)
  end.
Proof.
  unfold Combined_next. destruct (mapM id _) as [l|]; simpl.
  - case_decide; by intros [= <- <-].
  - by intros [= <- <-].
Qed.


(** [alternating k vs]: each result of [vs] has a [loading] other than that
    of the one before it, the first other than [k]. *)
Fixpoint alternating (k : option bool) (vs : list IRxStores) : Prop :=
  match vs with
  | [] => True
  | v :: vs => k ≠ Some (loadings v) ∧ alternating (Some (loadings v)) vs
  end.

Lemma Combined_run_alternating inputs c :
  alternating (lastKey c) (Combined_run inputs c).
Proof.
  revert c. induction inputs as [|[i r] inputs IH]; simpl; intros c; [done|].
  destruct (Combined_next i r c) as [c' o] eqn:Hn.
  apply Combined_next_inv in Hn as [_ Hm].
  specialize (IH c').
  destruct (mapM id _) as [l|]; simpl in Hm.
  - case_decide; destruct Hm as [-> Hk]; simpl; rewrite Hk in IH; [done|].
    split; [done|]. done.
  - destruct Hm as [-> Hk]. simpl. by rewrite Hk in IH.
Qed.

Lemma alternating_lookup k vs j v1 v2 :
  alternating k vs → vs !! j = Some v1 → vs !! S j = Some v2 →
  loadings v2 = negb (loadings v1).
Proof.
  revert k j. induction vs as [|v vs IH]; intros k j; [done|].
  intros [_ Halt]. destruct j as [|j]; simpl.
  - intros [= ->]. destruct vs as [|v' vs]; simpl; [done|]. intros [= ->].
    destruct Halt as [Hne _]. destruct (loadings v2), (loadings v1); naive_solver.
  - by apply (IH (Some (loadings v))).
Qed.

(** C4, amended.  A subscription to [getStores] recomputes its result
    whenever a key reports, but delivers it only when every key has reported
    and its [loading] is not the [loading] of the result delivered last (the
    first is always delivered).  A result that differs from the last one in
    [value] or [error] alone is not delivered; two results delivered one after
    the other never have the same [loading]. *)
Theorem getStores_delivers_on_loading_change :
  (∀ c i r c' o storeOutput,
     Combined_next i r c = (c', o) →
     mapM id (<[i := Some r]> (latest c)) = Some storeOutput →
     (lastKey c = Some (loadings (combine storeOutput)) → o = None) ∧
     (lastKey c ≠ Some (loadings (combine storeOutput)) →
      o = Some (combine storeOutput))) ∧
  (∀ inputs c j v1 v2,
     Combined_run inputs c !! j = Some v1 →
     Combined_run inputs c !! S j = Some v2 →
     loadings v2 = negb (loadings v1)).
Proof.
  split.
  - intros c i r c' o storeOutput [_ Hm]%Combined_next_inv Hmap.
    rewrite Hmap in Hm. simpl in Hm. case_decide; destruct Hm as [-> _]; done.
  - intros inputs c j v1 v2. apply alternating_lookup with (lastKey c).
    apply Combined_run_alternating.
Qed.

Lemma backend_emit eid r s s' : emit eid r s = Some s' → backend s' = backend s.
Proof. by intros (e & He & ->)%emit_inv. Qed.

(** Handling a notification of a fetch leaves the state behind the fetcher
    alone. *)
Lemma backend_fetcher_notification eid n s s' :
  fetcher_notification eid n s = Some s' → backend s' = backend s.
Proof.
  unfold fetcher_notification.
  destruct (heap s !! eid) as [e|] eqn:He; simpl; [|done].
  destruct (fetching e); [|by intros [= <-]].
  destruct n as [v|err|].
  - apply backend_emit.
  - destruct (storeRef e) as [c|]; simpl; [|done].
    destruct (heap s !! c); simpl; [|done].
    by intros ->%backend_emit.
  - by intros [= <-].
Qed.

(** *** Eviction, for the entry the store holds *)

Lemma foldl_delete_None (due : list (nat * (nat * string))) (s0 : State) k :
  k ∈ due.*2.*2 ∨ dict_get k (store s0) = None →
  dict_get k (store (foldl (λ s t, set_store (dict_delete t.2.2) s) s0 due)) = None.
Proof.
  revert s0. induction due as [|t due IH]; simpl; intros s0.
  - intros [Hin|Hn]; [by apply elem_of_nil in Hin|done].
  - intros Hk. apply IH. simpl. rewrite dict_get_delete.
    destruct (decide (t.2.2 = k)) as [Heq|Hne]; [by right|].
    destruct Hk as [[Heq|Hin]%elem_of_cons|Hn]; [congruence|by left|by right].
Qed.

(** A timer that is due deletes the binding of its key. *)
Lemma due_timer_deletes s dt h d k :
  (h, (d, k)) ∈ timers s → d ≤ now s + dt →
  dict_get k (store (advance dt s)) = None.
Proof.
  intros Hin Hd. unfold advance. apply foldl_delete_None. left.
  apply list_elem_of_fmap. exists (d, k). split; [done|].
  apply list_elem_of_fmap. exists (h, (d, k)). split; [done|].
  apply list_elem_of_filter. simpl. split; [lia|done].
Qed.

(** The last observer of the entry the store holds leaves: a timer is set
    for [deleteFromCacheTimeMS] from now, and the entry keeps its handle. *)
Lemma unsubscribe_last_starts_timer s k eid e sid :
  monitored = true →
  dict_get k (store s) = Some eid → heap s !! eid = Some e → key e = k →
  sid ∈ observers e → counter e = 1%Z →
  ∃ s' e',
    unsubscribe eid sid s = Some s' ∧ store s' = store s ∧ now s' = now s ∧
    timers s' =
      timers s ++ [(nextTimer s, (now s + default 0 deleteFromCacheTimeMS, k))] ∧
    heap s' !! eid = Some e' ∧ clearFromStorageTimer e' = Some (nextTimer s) ∧
    key e' = k ∧ connected e' = connected e ∧
    observers e' = filter (λ x, x ≠ sid) (observers e).
Proof.
  intros Hmon Hk He Hkey Hsid Hc. unfold unsubscribe. rewrite He. simpl.
  rewrite decide_True by done. rewrite Hmon.
  unfold SubscriberMonitor_unsubscribe. rewrite He. simpl.
  unfold onUnsubscribe. rewrite Hc. simpl. rewrite Hkey, Hk. simpl.
  rewrite !list_lookup_alter_eq, He. simpl.
  eexists _, _. split; [done|]. simpl. repeat (split; [done|]).
  rewrite !list_lookup_alter_eq, He. simpl. done.
Qed.

(** A subscriber arrives at the entry the store holds: the timer the entry
    keeps is cancelled. *)
Lemma subscribe_cancels_timer s k eid e h s' sid :
  monitored = true →
  dict_get k (store s) = Some eid → heap s !! eid = Some e → key e = k →
  connected e = true → clearFromStorageTimer e = Some h →
  subscribe eid s = Some (s', sid) →
  store s' = store s ∧ h ∉ (timers s').*1.
Proof.
  intros Hmon Hk He Hkey Hcon Ht. unfold subscribe. rewrite Hmon.
  unfold SubscriberMonitor_subscribe, shareReplay_subscribe. simpl.
  rewrite He. simpl. rewrite Hcon. simpl. rewrite He. simpl.
  rewrite list_lookup_alter_eq, He. simpl.
  unfold onSubscribe. simpl. rewrite Hkey, Hk. simpl.
  rewrite !list_lookup_alter_eq, He. simpl. rewrite Ht. simpl.
  intros [= <- _]. simpl. split; [done|].
  intros ([h' t] & Hh & [Hne _]%list_elem_of_filter)%list_elem_of_fmap.
  simpl in *. congruence.
Qed.

(** Over the life of one entry: when its last observer has left and nothing
    else happens for [deleteFromCacheTimeMS], the binding is deleted. *)
Lemma unsubscribed_entry_is_evicted s k eid e sid ttl dt :
  deleteFromCacheTimeMS = Some (S ttl) →
  dict_get k (store s) = Some eid → heap s !! eid = Some e → key e = k →
  sid ∈ observers e → counter e = 1%Z → S ttl ≤ dt →
  ∃ s',
    run s [Unsubscribe eid sid; Advance dt] = Some s' ∧
    dict_get k (store s') = None.
Proof.
  intros Httl Hk He Hkey Hsid Hc Hdt.
  assert (monitored = true) as Hmon by (unfold monitored; by rewrite Httl).
  destruct (unsubscribe_last_starts_timer s k eid e sid Hmon Hk He Hkey Hsid Hc)
    as (s1 & e1 & Hun & Hst & Hnow & Htimers & _).
  exists (advance dt s1). split; [simpl; rewrite Hun; reflexivity|].
  apply (due_timer_deletes s1 dt (nextTimer s) (now s + S ttl)).
  - rewrite Htimers, Httl. simpl. apply elem_of_app. right. by left.
  - lia.
Qed.

(** *** What a call on one entry leaves alone *)

(** [same_but_flag e e']: [e'] is [e] but for [lastFetchFailed] (the one
    field [catchError] may write through the [store] of another entry). *)
Definition same_but_flag (e e' : StoreEntry) : Prop :=
  set_lastFetchFailed true e' = set_lastFetchFailed true e.

Lemma same_but_flag_fields e e' :
  same_but_flag e e' →
  key e' = key e ∧ params e' = params e ∧ updateValueRS e' = updateValueRS e ∧
  connected e' = connected e ∧ fetching e' = fetching e ∧
  previousValue e' = previousValue e ∧ replay e' = replay e ∧
  observers e' = observers e ∧ invalidations e' = invalidations e.
Proof. unfold same_but_flag, set_lastFetchFailed. intros [=]. by repeat split. Qed.

Lemma same_but_flag_refl e : same_but_flag e e.
Proof. done. Qed.

Lemma same_but_flag_trans e1 e2 e3 :
  same_but_flag e1 e2 → same_but_flag e2 e3 → same_but_flag e1 e3.
Proof. unfold same_but_flag. congruence. Qed.

(** [only eid s s']: of the entries, [eid] alone was changed, and [eid]
    alone called the fetcher. *)
Definition only (eid : nat) (s s' : State) : Prop :=
  (∀ j e, j ≠ eid → heap s !! j = Some e →
     ∃ e', heap s' !! j = Some e' ∧ same_but_flag e e') ∧
  (∀ j, j ≠ eid → calls j (fetchLog s') = calls j (fetchLog s)).

Lemma only_refl eid s : only eid s s.
Proof. split; [|done]. intros j e _ He. eauto using same_but_flag_refl. Qed.

Lemma only_trans eid s1 s2 s3 : only eid s1 s2 → only eid s2 s3 → only eid s1 s3.
Proof.
  intros [H12 L12] [H23 L23]. split.
  - intros j e Hj He. destruct (H12 _ _ Hj He) as (e2 & He2 & ?).
    destruct (H23 _ _ Hj He2) as (e3 & He3 & ?). eauto using same_but_flag_trans.
  - intros j Hj. by rewrite L23, L12.
Qed.

Lemma only_update eid f s : only eid s (update eid f s).
Proof.
  split; [|done]. intros j e Hj He. exists e.
  rewrite heap_update_ne by done. done.
Qed.

Lemma only_flag eid c s : only eid s (update c (set_lastFetchFailed true) s).
Proof.
  split; [|done]. intros j e Hj He. rewrite heap_update. case_decide; subst.
  - rewrite He. simpl. by eexists.
  - eauto using same_but_flag_refl.
Qed.

Lemma only_same eid s s' :
  heap s' = heap s → fetchLog s' = fetchLog s → only eid s s'.
Proof.
  intros Hh Hl. split.
  - intros j e _ He. rewrite Hh. eauto using same_but_flag_refl.
  - intros j _. by rewrite Hl.
Qed.

Lemma only_emit eid r s s' : emit eid r s = Some s' → only eid s s'.
Proof.
  intros (e & He & ->)%emit_inv.
  eapply only_trans; [apply (only_update eid (set_emitted r (merge (previousValue e) r)))|].
  by apply only_same.
Qed.

Lemma only_fetcher_notification eid n s s' :
  fetcher_notification eid n s = Some s' → only eid s s'.
Proof.
  unfold fetcher_notification.
  destruct (heap s !! eid) as [e|] eqn:He; simpl; [|done].
  destruct (fetching e); [|intros [= <-]; apply only_refl].
  destruct n as [v|err|].
  - apply only_emit.
  - destruct (storeRef e) as [c|]; simpl; [|done].
    destruct (heap s !! c); simpl; [|done].
    intros Hemit%only_emit.
    eapply only_trans; [apply (only_flag eid c)|].
    eapply only_trans; [apply (only_update eid (set_fetching false))|]. done.
  - intros [= <-]. apply only_update.
Qed.

Lemma only_fetcher_notifications eid ns s s' :
  fetcher_notifications eid ns s = Some s' → only eid s s'.
Proof.
  revert s. induction ns as [|n ns IH]; simpl; intros s.
  - intros [= <-]. apply only_refl.
  - destruct (fetcher_notification eid n s) as [s1|] eqn:H1; simpl; [|done].
    intros H2. eauto using only_trans, only_fetcher_notification.
Qed.

Lemma only_add_fetchLog eid p x b s :
  only eid s (set_backend b (add_fetchLog (eid, p, x) s)).
Proof.
  split.
  - intros j e _ He. eauto using same_but_flag_refl.
  - intros j Hj. simpl. rewrite calls_app.
    rewrite (calls_0 j [(eid, p, x)]); [lia|].
    intros c ->%list_elem_of_singleton. simpl. congruence.
Qed.

Lemma only_networkFetchOb eid s s' : networkFetchOb eid s = Some s' → only eid s s'.
Proof.
  unfold networkFetchOb.
  destruct (heap s !! eid) as [e|] eqn:He; simpl; [|done].
  destruct (emit _ _ _) as [s1|] eqn:Hemit; simpl; [|done].
  destruct (fetch_subscribe _ _ _ _) as [b sync].
  intros Hns%only_fetcher_notifications. apply only_emit in Hemit.
  eapply only_trans; [apply (only_update eid (set_storeRef (dict_get (key e) (store s))))|].
  eapply only_trans; [exact Hemit|].
  eapply only_trans; [apply (only_add_fetchLog eid (params e) (extra0 e) b)|].
  eapply only_trans; [apply (only_update eid (set_fetching true))|]. done.
Qed.

Lemma only_switchMap eid val s s' : switchMap eid val s = Some s' → only eid s s'.
Proof.
  unfold switchMap.
  destruct (heap s !! eid) as [e|] eqn:He; simpl; [|done].
  intros Hk. eapply only_trans;
    [|destruct val; [eapply only_emit|eapply only_networkFetchOb]; exact Hk].
  destruct (fetching e); [|apply only_refl].
  eapply only_trans; [|apply only_update]. by apply only_same.
Qed.

Lemma only_updateValueRS_next eid val s s' :
  updateValueRS_next eid val s = Some s' → only eid s s'.
Proof.
  unfold updateValueRS_next.
  destruct (heap s !! eid) as [e|] eqn:He; simpl; [|done].
  intros Hk. eapply only_trans; [apply (only_update eid (set_updateValueRS val))|].
  destruct (connected e); [by eapply only_switchMap|].
  injection Hk as <-. apply only_refl.
Qed.

(** *** [getStore] is cold *)

Lemma init_lookup p x s j e :
  heap (init p x s) !! j = Some e →
  heap s !! j = Some e ∨ (j = length (heap s) ∧ e = new_entry (getKey p) p x).
Proof.
  unfold init. destruct (dict_get _ _); [by left|]. simpl.
  intros [He|[Hge He]]%lookup_app_Some; [by left|right].
  apply list_lookup_singleton_Some in He as [Hz <-]. split; [lia|done].
Qed.

Lemma init_logs p x s :
  fetchLog (init p x s) = fetchLog s ∧ out (init p x s) = out s ∧
  backend (init p x s) = backend s ∧ timers (init p x s) = timers s ∧
  nextSubscriber (init p x s) = nextSubscriber s.
Proof. unfold init. by destruct (dict_get _ _). Qed.

(** [getStore] is cold: on a key the store does not hold, or whose stream
    nobody has subscribed to yet, it calls no fetcher and delivers nothing,
    with or without [force]; the stream it returns is still unconnected. *)
Theorem getStore_is_cold p options s s' ob :
  (∀ e, heap s !! ob = Some e → connected e = false) →
  getStore p options s = Some (s', ob) →
  fetchLog s' = fetchLog s ∧ out s' = out s ∧ backend s' = backend s ∧
  ∃ e', heap s' !! ob = Some e' ∧ connected e' = false.
Proof.
  intros Hcold Hget. unfold getStore in Hget.
  pose proof (_getStore_ob _ _ _ _ _ Hget) as Hob.
  pose proof (store__getStore _ _ _ _ _ Hget) as Hst.
  destruct (init_logs p (extra options) s) as (Hl & Ho & Hb & _).
  revert Hget. unfold _getStore. cbv zeta.
  destruct (dict_get (getKey p) (store (init p (extra options) s))) as [eid|] eqn:Hk;
    simpl; [|done].
  assert (ob = eid) as -> by (rewrite Hst in Hob; congruence).
  destruct (heap (init p (extra options) s) !! eid) as [e|] eqn:He; simpl; [|done].
  assert (connected e = false) as Hc.
  { apply init_lookup in He as [He|[_ ->]]; [by eapply Hcold|done]. }
  destruct (force options || lastFetchFailed e).
  - unfold updateValueRS_next. rewrite He. simpl. rewrite Hc. simpl. rewrite Hk. simpl.
    intros [= <-]. simpl. repeat (split; [done|]).
    rewrite list_lookup_alter_eq, He. simpl. eauto.
  - simpl. rewrite Hk. simpl. intros [= <-]. eauto 10.
Qed.

(** *** [updateStoreValue] *)

(** [updateStoreValue(params, v)] never calls the fetcher.  The entry of the
    key (built when there is none) holds the local value, and a fetch that
    was under way is left: its result will not arrive.  When the stream is
    connected its observers receive the local value at once, with
    [loading: false] and no error (for a falsy [v], the value of the previous
    emission instead); when it is not, nothing is delivered. *)
Theorem updateStoreValue_is_local b evs s p v s' :
  run (new b) evs = Some s →
  updateStoreValue p v s = Some s' →
  let local := {| error := None; loading := false; value := Some v |} in
  ∃ eid e',
    dict_get (getKey p) (store s') = Some eid ∧ heap s' !! eid = Some e' ∧
    updateValueRS e' = Some local ∧ fetching e' = false ∧
    fetchLog s' = fetchLog s ∧
    (∀ e, heap s !! eid = Some e → connected e = true →
       out s' = out s ++ ((λ sid, (sid, merge (previousValue e) local)) <$> observers e) ∧
       replay e' = Some (merge (previousValue e) local) ∧
       (truthy v = true → merge (previousValue e) local = local)) ∧
    ((∀ e, heap s !! eid = Some e → connected e = false) →
       out s' = out s ∧ connected e' = false).
Proof.
  intros Hrun Hup local.
  assert (Inv (init p None s)) as HI0.
  { apply Inv_init. eapply Inv_run; [apply Inv_new|exact Hrun]. }
  destruct (init_logs p None s) as (Hl & Ho & _).
  revert Hup. unfold updateStoreValue. cbv zeta.
  destruct (dict_get (getKey p) (store (init p None s))) as [eid|] eqn:Hk; simpl; [|done].
  intros Hup. exists eid.
  pose proof (quiet_updateValueRS_next _ _ _ _ Hup) as [(Hst & _) _].
  revert Hup. unfold updateValueRS_next.
  destruct (heap (init p None s) !! eid) as [e0|] eqn:He0; simpl; [|done].
  destruct (Inv_entry _ eid e0 HI0 He0) as (Hfc & _).
  destruct (connected e0) eqn:Hc0.
  - assert (heap s !! eid = Some e0) as Hes.
    { apply init_lookup in He0 as [He0|[_ ->]]; done. }
    unfold switchMap. rewrite (heap_update_eq _ _ _ e0 He0). simpl.
    destruct (fetching e0) eqn:Hf0.
    + rewrite (emit_Some _ _ _ (set_fetching false (set_updateValueRS (Some local) e0))).
      2:{ apply heap_update_eq. simpl. by rewrite list_lookup_alter_eq, He0. }
      intros [= <-]. eexists. split; [by rewrite <- Hk|].
      split; [simpl; by rewrite !list_lookup_alter_eq, He0|].
      simpl. repeat (split; [done|]). split.
      * intros e He _. rewrite Hes in He. injection He as <-. rewrite Ho.
        repeat split; try done. intros Hv. unfold merge, js_or. simpl.
        change (truthy (Some v)) with (truthy v). by rewrite Hv.
      * intros Hcold. specialize (Hcold _ Hes). congruence.
    + rewrite (emit_Some _ _ _ (set_updateValueRS (Some local) e0))
        by by apply heap_update_eq.
      intros [= <-]. eexists. split; [by rewrite <- Hk|].
      split; [simpl; by rewrite !list_lookup_alter_eq, He0|].
      simpl. repeat (split; [done|]). split.
      * intros e He _. rewrite Hes in He. injection He as <-. rewrite Ho.
        repeat split; try done. intros Hv. unfold merge, js_or. simpl.
        change (truthy (Some v)) with (truthy v). by rewrite Hv.
      * intros Hcold. specialize (Hcold _ Hes). congruence.
  - intros [= <-]. eexists. split; [done|].
    split; [by apply heap_update_eq|]. simpl.
    split; [done|]. split; [by destruct (fetching e0); [discriminate Hfc|]|].
    split; [done|]. split; [|done].
    intros e He Hc. apply init_lookup in He0 as [He0|[-> ->]].
    + congruence.
    + apply lookup_lt_Some in He. lia.
Qed.

(** *** [expireWhere] and [expireAll] *)

(** The function [expireWhere] applies to each key. *)
Definition expireWhere_key (predicate : Params → bool) (k : string) (s : State)
    : option State :=
  eid ← dict_get k (store s);
  e ← heap s !! eid;
  if predicate (params e) then expireKey k s else Some s.

Lemma expireWhere_forEach predicate s :
  expireWhere predicate s = forEach (expireWhere_key predicate) (dict_keys (store s)) s.
Proof. done. Qed.

Lemma dict_keys_get {V} k (d : list (string * V)) :
  k ∈ dict_keys d → is_Some (dict_get k d).
Proof.
  unfold dict_keys. induction d as [|[k' v] d IH]; simpl.
  - by intros ?%elem_of_nil.
  - intros [->|Hin]%elem_of_cons; [by rewrite decide_True|].
    case_decide; [done|auto].
Qed.

Lemma dict_get_keys {V} k v (d : list (string * V)) :
  dict_get k d = Some v → k ∈ dict_keys d.
Proof.
  intros Hin%dict_get_Some_elem. unfold dict_keys.
  apply list_elem_of_fmap. by exists (k, v).
Qed.

(** Two keys of the store object do not share an entry. *)
Lemma Inv_key_inj s k k' eid :
  Inv s → dict_get k (store s) = Some eid → dict_get k' (store s) = Some eid → k = k'.
Proof.
  intros (Hst & _) Hk Hk'. destruct (Hst _ _ Hk) as (e & He & <-).
  destruct (Hst _ _ Hk') as (e' & He' & <-). congruence.
Qed.

(** [updateValueRS.next(undefined)] on an entry the store object holds does
    not raise. *)
Lemma expire_held s k eid e :
  Inv s → dict_get k (store s) = Some eid → heap s !! eid = Some e →
  ∃ s' e',
    updateValueRS_next eid None s = Some s' ∧
    heap s' !! eid = Some e' ∧ invalidations e' = S (invalidations e) ∧
    connected e' = connected e ∧ params e' = params e ∧
    calls eid (fetchLog s') =
      calls eid (fetchLog s) + (if connected e then 1 else 0).
Proof.
  intros HI Hk He. destruct (connected e) eqn:Hc.
  - destruct (refetch s k eid e HI Hk He Hc) as (s' & e' & rest & Hn & _ & Hl & _ & He' & Hi & _).
    exists s', e'. repeat (split; [done|]).
    destruct (quiet_updateValueRS_next _ _ _ _ Hn) as [_ Hle].
    destruct (Hle _ _ He) as (e'' & He'' & _ & Hp & _ & _ & Hcon & _).
    rewrite He' in He''. injection He'' as <-.
    split; [by apply Hcon|]. split; [done|].
    rewrite Hl, calls_app. f_equal. unfold calls. simpl.
    rewrite filter_cons, filter_nil. simpl. by rewrite decide_True.
  - exists (update eid (set_updateValueRS None) s), (set_updateValueRS None e).
    split; [unfold updateValueRS_next; by rewrite He; simpl; rewrite Hc|].
    split; [by apply heap_update_eq|]. simpl. repeat (split; [done|]). lia.
Qed.

Lemma expireWhere_key_effect predicate k s s' :
  expireWhere_key predicate k s = Some s' →
  s' = s ∨
  ∃ eid e, dict_get k (store s) = Some eid ∧ heap s !! eid = Some e ∧
    predicate (params e) = true ∧ updateValueRS_next eid None s = Some s'.
Proof.
  unfold expireWhere_key.
  destruct (dict_get k (store s)) as [eid|] eqn:Hk; simpl; [|done].
  destruct (heap s !! eid) as [e|] eqn:He; simpl; [|done].
  destruct (predicate (params e)) eqn:Hp; [|intros [= <-]; by left].
  unfold expireKey. rewrite Hk. simpl. intros Hn. right. eauto 10.
Qed.

Lemma store_expireWhere_key predicate k s s' :
  expireWhere_key predicate k s = Some s' → store s' = store s.
Proof.
  intros [->|(eid & e & _ & _ & _ & Hn)]%expireWhere_key_effect; [done|].
  by destruct (quiet_updateValueRS_next _ _ _ _ Hn) as [(-> & _) _].
Qed.

Lemma expireWhere_untouched predicate l s s' j e :
  Inv s →
  forEach (expireWhere_key predicate) l s = Some s' →
  heap s !! j = Some e →
  (∀ k, k ∈ l → dict_get k (store s) = Some j → predicate (params e) = false) →
  ∃ e', heap s' !! j = Some e' ∧ same_but_flag e e' ∧
    calls j (fetchLog s') = calls j (fetchLog s).
Proof.
  revert s e. induction l as [|k l IH]; simpl; intros s e HI.
  - intros [= <-] He _. eauto using same_but_flag_refl.
  - destruct (expireWhere_key predicate k s) as [s1|] eqn:H1; simpl; [|done].
    intros Hrest He Hno.
    apply expireWhere_key_effect in H1 as [->|(eid & ek & Hk & Hek & Hp & Hn)].
    { apply (IH s e); try done. intros k' Hk'. apply Hno. by right. }
    assert (j ≠ eid) as Hne.
    { intros ->. rewrite He in Hek. injection Hek as <-.
      rewrite (Hno k) in Hp; [done|by left|done]. }
    destruct (only_updateValueRS_next _ _ _ _ Hn) as [Hh Hl].
    destruct (Hh _ _ Hne He) as (e1 & He1 & Hsame).
    destruct (quiet_updateValueRS_next _ _ _ _ Hn) as [(Hst & _) _].
    destruct (IH s1 e1) as (e' & He' & Hsame' & Hl'); try done.
    { by eapply Inv_updateValueRS_next. }
    { intros k' Hk'. rewrite Hst.
      destruct (same_but_flag_fields _ _ Hsame) as (_ & -> & _).
      apply Hno. by right. }
    exists e'. split; [done|]. split; [by eapply same_but_flag_trans|].
    by rewrite Hl', Hl.
Qed.

Lemma expireWhere_matching predicate l s s' k j e :
  Inv s → NoDup l → k ∈ l →
  dict_get k (store s) = Some j → heap s !! j = Some e →
  predicate (params e) = true →
  forEach (expireWhere_key predicate) l s = Some s' →
  ∃ e', heap s' !! j = Some e' ∧ invalidations e' = S (invalidations e) ∧
    calls j (fetchLog s') =
      calls j (fetchLog s) + (if connected e then 1 else 0).
Proof.
  revert s e. induction l as [|k0 l IH]; simpl; intros s e HI Hnd Hin Hk He Hp.
  { by apply elem_of_nil in Hin. }
  apply NoDup_cons in Hnd as [Hk0 Hnd].
  destruct (expireWhere_key predicate k0 s) as [s1|] eqn:H1; simpl; [|done].
  intros Hrest. destruct (decide (k0 = k)) as [->|Hkk].
  - revert H1. unfold expireWhere_key. rewrite Hk. simpl. rewrite He. simpl.
    rewrite Hp. unfold expireKey. rewrite Hk. simpl. intros Hn.
    destruct (expire_held s k j e HI Hk He) as (s1' & e1 & Hn' & He1 & Hi1 & _ & _ & Hl1).
    rewrite Hn in Hn'. injection Hn' as <-.
    destruct (quiet_updateValueRS_next _ _ _ _ Hn) as [(Hst & _) _].
    assert (Inv s1) as HI1 by by eapply Inv_updateValueRS_next.
    destruct (expireWhere_untouched predicate l s1 s' j e1 HI1 Hrest He1)
      as (e' & He' & Hsame & Hl').
    { intros k' Hk' Hg. rewrite Hst in Hg.
      rewrite (Inv_key_inj s k' k j HI Hg Hk) in Hk'. done. }
    exists e'. split; [done|].
    destruct (same_but_flag_fields _ _ Hsame) as (_&_&_&_&_&_&_&_& ->).
    split; [done|]. by rewrite Hl', Hl1.
  - apply elem_of_cons in Hin as [->|Hin]; [done|].
    apply expireWhere_key_effect in H1 as [->|(eid & ek & Hk1 & Hek & Hp1 & Hn)].
    { by apply (IH s e). }
    assert (j ≠ eid) as Hne.
    { intros ->. by rewrite (Inv_key_inj s k0 k eid HI Hk1 Hk) in Hkk. }
    destruct (only_updateValueRS_next _ _ _ _ Hn) as [Hh Hl].
    destruct (Hh _ _ Hne He) as (e1 & He1 & Hsame).
    destruct (quiet_updateValueRS_next _ _ _ _ Hn) as [(Hst & _) _].
    destruct (same_but_flag_fields _ _ Hsame) as (_& Hpar &_& Hcon &_&_&_&_& Hinv).
    destruct (IH s1 e1) as (e' & He' & Hi' & Hl'); try done.
    { by eapply Inv_updateValueRS_next. }
    { by rewrite Hst. }
    { by rewrite Hpar. }
    exists e'. split; [done|]. split; [by rewrite Hi', Hinv|].
    by rewrite Hl', Hl, Hcon.
Qed.

Lemma expireWhere_total predicate l s :
  Inv s → (∀ k, k ∈ l → is_Some (dict_get k (store s))) →
  is_Some (forEach (expireWhere_key predicate) l s).
Proof.
  revert s. induction l as [|k l IH]; simpl; intros s HI Hl; [done|].
  destruct (Hl k) as [eid Hk]; [by left|].
  pose proof HI as (Hst & _). destruct (Hst _ _ Hk) as (e & He & _).
  assert (∃ s1, expireWhere_key predicate k s = Some s1 ∧ Inv s1 ∧ store s1 = store s)
    as (s1 & -> & HI1 & Hst1).
  { unfold expireWhere_key. rewrite Hk. simpl. rewrite He. simpl.
    destruct (predicate (params e)); [|by eauto].
    unfold expireKey. rewrite Hk. simpl.
    destruct (expire_held s k eid e HI Hk He) as (s1 & e1 & Hn & _).
    exists s1. split; [done|]. split; [by eapply Inv_updateValueRS_next|].
    by destruct (quiet_updateValueRS_next _ _ _ _ Hn) as [(-> & _) _]. }
  simpl. apply IH; [done|]. intros k' Hk'. rewrite Hst1. apply Hl. by right.
Qed.

(** [expireWhere(predicate)] does not raise, and leaves the store object as
    it is.  An entry whose params fail the predicate, or that the store
    object does not hold any more, is not invalidated and calls no fetcher;
    its local value, its stream and its observers are as before.  An entry
    the store object holds and whose params pass is invalidated exactly once:
    it calls the fetcher once when its stream is connected (subscribed or
    not), and not at all when it is not (the fetch then waits for the first
    subscriber). *)
Theorem expireWhere_refetches_matching_only b evs s predicate :
  run (new b) evs = Some s →
  ∃ s',
    expireWhere predicate s = Some s' ∧ store s' = store s ∧
    (∀ j e, heap s !! j = Some e →
       (dict_get (key e) (store s) = Some j → predicate (params e) = false) →
       ∃ e', heap s' !! j = Some e' ∧
         invalidations e' = invalidations e ∧ fetches j s' = fetches j s ∧
         updateValueRS e' = updateValueRS e ∧ fetching e' = fetching e ∧
         replay e' = replay e ∧ observers e' = observers e) ∧
    (∀ j e, heap s !! j = Some e →
       dict_get (key e) (store s) = Some j → predicate (params e) = true →
       ∃ e', heap s' !! j = Some e' ∧
         invalidations e' = S (invalidations e) ∧
         fetches j s' = fetches j s + (if connected e then 1 else 0)).
Proof.
  intros Hrun.
  assert (Inv s) as HI by (eapply Inv_run; [apply Inv_new|exact Hrun]).
  assert (NoDup (dict_keys (store s))) as Hnd.
  { eapply keys_NoDup_run; [|exact Hrun]. apply NoDup_nil_2. }
  rewrite expireWhere_forEach.
  destruct (expireWhere_total predicate (dict_keys (store s)) s HI) as [s' Hs'].
  { intros k. apply dict_keys_get. }
  exists s'. split; [done|]. split; [|split].
  - apply (store_forEach _ _ _ _ (store_expireWhere_key predicate) Hs').
  - intros j e He Hno.
    destruct (expireWhere_untouched predicate _ s s' j e HI Hs' He) as (e' & He' & Hsame & Hl).
    { intros k _ Hk. apply Hno.
      destruct HI as (Hst & _). destruct (Hst _ _ Hk) as (e0 & He0 & <-). congruence. }
    exists e'. split; [done|].
    destruct (same_but_flag_fields _ _ Hsame) as (_&_&?&_&?&_&?&?&?).
    by repeat split.
  - intros j e He Hk Hp.
    apply (expireWhere_matching predicate (dict_keys (store s)) s s' (key e) j e); try done.
    by eapply dict_get_keys.
Qed.

Lemma expireAll_expireWhere l s :
  Inv s → (∀ k, k ∈ l → is_Some (dict_get k (store s))) →
  forEach expireKey l s = forEach (expireWhere_key (λ _, true)) l s.
Proof.
  revert s. induction l as [|k l IH]; simpl; intros s HI Hl; [done|].
  destruct (Hl k) as [eid Hk]; [by left|].
  pose proof HI as (Hst & _). destruct (Hst _ _ Hk) as (e & He & _).
  assert (expireWhere_key (λ _, true) k s = expireKey k s) as ->.
  { unfold expireWhere_key. rewrite Hk. simpl. by rewrite He. }
  destruct (expireKey k s) as [s1|] eqn:H1; simpl; [|done].
  apply IH; [by eapply Inv_expireKey|].
  intros k' Hk'. rewrite (store_expireKey _ _ _ H1). apply Hl. by right.
Qed.

(** [expireAll()] does not raise and does what [expireWhere(() => true)]
    does: every entry the store object holds is invalidated exactly once; the
    connected ones call the fetcher once each, with or without a subscriber,
    and the entries the store object no longer holds are left alone. *)
Theorem expireAll_refetches_every_connected_entry b evs s :
  run (new b) evs = Some s →
  ∃ s',
    expireAll s = Some s' ∧ expireWhere (λ _, true) s = Some s' ∧
    (∀ j e, heap s !! j = Some e → dict_get (key e) (store s) = Some j →
       ∃ e', heap s' !! j = Some e' ∧
         invalidations e' = S (invalidations e) ∧
         fetches j s' = fetches j s + (if connected e then 1 else 0)) ∧
    (∀ j e, heap s !! j = Some e → dict_get (key e) (store s) ≠ Some j →
       ∃ e', heap s' !! j = Some e' ∧
         invalidations e' = invalidations e ∧ fetches j s' = fetches j s).
Proof.
  intros Hrun.
  assert (Inv s) as HI by (eapply Inv_run; [apply Inv_new|exact Hrun]).
  assert (NoDup (dict_keys (store s))) as Hnd.
  { eapply keys_NoDup_run; [|exact Hrun]. apply NoDup_nil_2. }
  assert (expireAll s = expireWhere (λ _, true) s) as Heq.
  { rewrite expireWhere_forEach. unfold expireAll.
    apply expireAll_expireWhere; [done|]. intros k. apply dict_keys_get. }
  rewrite Heq, expireWhere_forEach.
  destruct (expireWhere_total (λ _, true) (dict_keys (store s)) s HI) as [s' Hs'].
  { intros k. apply dict_keys_get. }
  exists s'. repeat (split; [done|]). split.
  - intros j e He Hk.
    apply (expireWhere_matching (λ _, true) (dict_keys (store s)) s s' (key e) j e); try done.
    by eapply dict_get_keys.
  - intros j e He Hk.
    destruct (expireWhere_untouched (λ _, true) _ s s' j e HI Hs' He) as (e' & He' & Hsame & Hl).
    { intros k _ Hg. destruct Hk.
      destruct HI as (Hst & _). destruct (Hst _ _ Hg) as (e0 & He0 & <-). congruence. }
    exists e'. split; [done|].
    destruct (same_but_flag_fields _ _ Hsame) as (_&_&_&_&_&_&_&_&?).
    by split.
Qed.

(** *** A store without [deleteFromCacheTimeMS] *)

Lemma timers_shareReplay_subscribe eid sid s s' :
  shareReplay_subscribe eid sid s = Some s' → timers s' = timers s.
Proof.
  unfold shareReplay_subscribe.
  destruct (heap s !! eid) as [e|] eqn:He; simpl; [|done].
  destruct (if connected e then _ else _) as [s1|] eqn:Hs1; simpl; [|done].
  destruct (heap s1 !! eid) as [e1|]; simpl; [|done]. intros [= <-]. simpl.
  destruct (connected e); [by injection Hs1 as <-|].
  by apply quiet_switchMap in Hs1 as [(_ & -> & _) _].
Qed.

Lemma timers__getStore p options s s' ob :
  _getStore p options s = Some (s', ob) → timers s' = timers s.
Proof.
  destruct (init_logs p (extra options) s) as (_ & _ & _ & Ht & _).
  unfold _getStore.
  destruct (dict_get _ _) as [eid|]; simpl; [|done].
  destruct (heap _ !! eid) as [e|]; simpl; [|done].
  destruct (force options || lastFetchFailed e).
  - destruct (updateValueRS_next _ _ _) as [s1|] eqn:Hs1; simpl; [|done].
    destruct (dict_get _ (store s1)); simpl; [|done]. intros [= <- _].
    apply quiet_updateValueRS_next in Hs1 as [(_ & -> & _) _]. done.
  - simpl. destruct (dict_get _ _); simpl; [|done]. by intros [= <- _].
Qed.

Lemma timers__getStore_map ps options s s' obs :
  _getStore_map ps options s = Some (s', obs) → timers s' = timers s.
Proof.
  revert s obs. induction ps as [|p ps IH]; simpl; intros s obs.
  - by intros [= <- _].
  - destruct (_getStore p options s) as [[s1 ob]|] eqn:Hs1; simpl; [|done].
    destruct (_getStore_map ps options s1) as [[s2 obs']|] eqn:Hs2; simpl; [|done].
    intros [= <- _]. apply IH in Hs2. apply timers__getStore in Hs1. congruence.
Qed.

Lemma timers_forEach {A} (f : A → State → option State) l s s' :
  (∀ a s s', f a s = Some s' → timers s' = timers s) →
  forEach f l s = Some s' → timers s' = timers s.
Proof.
  intros Hf. revert s. induction l as [|a l IH]; simpl; intros s.
  - by intros [= <-].
  - destruct (f a s) as [s1|] eqn:Hs1; simpl; [|done].
    intros Hs'. apply IH in Hs'. apply Hf in Hs1. congruence.
Qed.

Lemma timers_expireKey k s s' : expireKey k s = Some s' → timers s' = timers s.
Proof.
  unfold expireKey. destruct (dict_get _ _); simpl; [|done].
  by intros [(_ & -> & _) _]%quiet_updateValueRS_next.
Qed.

(** Without a [SubscriberMonitor] no call sets a timer. *)
Lemma timers_step s ev s' :
  monitored = false → is_Advance ev = false →
  step s ev = Some s' → timers s' = timers s.
Proof.
  intros Hmon.
  destruct ev as [p o|ps o|p v| |pr|ob|ob sid|eid n|dt]; simpl; intros Hadv; [..|done].
  - unfold getStore. destruct (_getStore p o s) as [[s1 ob]|] eqn:H1; simpl; [|done].
    intros [= <-]. by eapply timers__getStore.
  - unfold getStores. destruct ps as [|p ps]; [by intros [= <-]|].
    destruct (_getStore_map (p :: ps) o s) as [[s1 obs]|] eqn:H1; simpl; [|done].
    intros [= <-]. by eapply timers__getStore_map.
  - unfold updateStoreValue. destruct (dict_get _ _); simpl; [|done].
    intros [(_ & -> & _) _]%quiet_updateValueRS_next.
    by destruct (init_logs p None s) as (_ & _ & _ & -> & _).
  - apply timers_forEach. apply timers_expireKey.
  - apply timers_forEach. intros k s0 s0'.
    destruct (dict_get _ _) as [eid|]; simpl; [|done].
    destruct (heap s0 !! eid) as [e|]; simpl; [|done].
    destruct (pr (params e)); [apply timers_expireKey|by intros [= <-]].
  - unfold subscribe. rewrite Hmon.
    destruct (shareReplay_subscribe _ _ _) as [s1|] eqn:H1; simpl; [|done].
    intros [= <-]. by apply timers_shareReplay_subscribe in H1.
  - unfold unsubscribe. destruct (heap s !! ob) as [e|]; simpl; [|done].
    case_decide; [|by intros [= <-]]. rewrite Hmon. by intros [= <-].
  - by intros [(_ & -> & _) _]%quiet_fetcher_notification.
Qed.

Lemma advance_no_timers dt s :
  timers s = [] → timers (advance dt s) = [] ∧ store (advance dt s) = store s.
Proof.
  intros Ht. unfold advance. simpl. rewrite Ht, !filter_nil. simpl.
  by rewrite Ht, filter_nil.
Qed.

Lemma unmonitored_run evs s s' :
  monitored = false → timers s = [] → run s evs = Some s' →
  timers s' = [] ∧
  ∀ k eid, dict_get k (store s) = Some eid → dict_get k (store s') = Some eid.
Proof.
  intros Hmon. revert s. induction evs as [|ev evs IH]; simpl; intros s Ht.
  - by intros [= <-].
  - destruct (step s ev) as [s1|] eqn:H1; simpl; [|done]. intros Hrun.
    assert (timers s1 = [] ∧
            ∀ k eid, dict_get k (store s) = Some eid → dict_get k (store s1) = Some eid)
      as [Ht1 Hst1].
    { destruct (is_Advance ev) eqn:Hadv.
      - destruct ev; try done. simpl in H1. injection H1 as <-.
        destruct (advance_no_timers dt s Ht) as [-> ->]. done.
      - split; [by rewrite (timers_step s ev s1 Hmon Hadv H1)|].
        by destruct (grows_step s ev s1 Hadv H1). }
    destruct (IH s1 Ht1 Hrun) as [Ht' Hst']. auto.
Qed.

(** When [deleteFromCacheTimeMS] is not given, or is zero, the store never
    sets a timer and never deletes a key: whatever is called, subscribed,
    unsubscribed or however much time passes, a key the store object holds
    stays bound to the same entry. *)
Theorem without_deleteFromCacheTimeMS_nothing_is_deleted b evs s evs' s' k eid :
  deleteFromCacheTimeMS = None ∨ deleteFromCacheTimeMS = Some 0 →
  run (new b) evs = Some s → run s evs' = Some s' →
  dict_get k (store s) = Some eid →
  timers s' = [] ∧ dict_get k (store s') = Some eid.
Proof.
  intros Httl Hrun Hrun' Hk.
  assert (monitored = false) as Hmon by (unfold monitored; by destruct Httl as [-> | ->]).
  destruct (unmonitored_run evs (new b) s Hmon eq_refl Hrun) as [Ht _].
  destruct (unmonitored_run evs' s s' Hmon Ht Hrun') as [Ht' Hst]. auto.
Qed.

(** *** The sources of [getStores] *)

Lemma _getStore_map_sources ps options s s' obs :
  _getStore_map ps options s = Some (s', obs) →
  Forall2 (λ p ob, dict_get (getKey p) (store s') = Some ob) ps obs.
Proof.
  revert s obs. induction ps as [|p ps IH]; simpl; intros s obs.
  - intros [= <- <-]. constructor.
  - destruct (_getStore p options s) as [[s1 ob]|] eqn:Hs1; simpl; [|done].
    destruct (_getStore_map ps options s1) as [[s2 obs']|] eqn:Hs2; simpl; [|done].
    intros [= <- <-]. constructor; [|by eapply IH].
    apply _getStore_ob in Hs1. by apply (grows__getStore_map _ _ _ _ _ Hs2).
Qed.

(** [getStores] of the empty list changes nothing and returns the constant
    [{ loading: false, value: [], error: [] }].  Otherwise it combines one
    source for each element of the list, in the order of the list: the
    observable of the entry the store object holds under that element's key
    when the call returns (an element that comes twice gives the same source
    twice), which is also what a later [getStore] for that element returns. *)
Theorem getStores_sources ps options s s' r :
  getStores ps options s = Some (s', r) →
  match r with
  | of_ v =>
      ps = [] ∧ s' = s ∧ v = {| loadings := false; values := []; errors := [] |}
  | combineLatest obs =>
      ps ≠ [] ∧
      Forall2 (λ p ob,
        dict_get (getKey p) (store s') = Some ob ∧
        ∀ options' s'' ob', getStore p options' s' = Some (s'', ob') → ob' = ob)
        ps obs
  end.
Proof.
  unfold getStores. destruct ps as [|p ps]; [by intros [= <- <-]|].
  destruct (_getStore_map (p :: ps) options s) as [[s1 obs]|] eqn:H1; simpl; [|done].
  intros [= <- <-]. split; [done|].
  apply _getStore_map_sources in H1.
  eapply Forall2_impl; [exact H1|]. simpl. intros p' ob Hk. split; [done|].
  intros options' s'' ob' Hg. by eapply _getStore_existing.
Qed.

(** A subscription to [getStores] delivers nothing for as long as one of its
    keys has not reported. *)
Lemma Combined_run_waits inputs c j :
  latest c !! j = Some None → j ∉ inputs.*1 → Combined_run inputs c = [].
Proof.
  revert c. induction inputs as [|[i r] inputs IH]; simpl; intros c Hj Hnin; [done|].
  apply not_elem_of_cons in Hnin as [Hne Hnin].
  destruct (Combined_next i r c) as [c' o] eqn:Hn.
  apply Combined_next_inv in Hn as [Hl Hm].
  assert (latest c' !! j = Some None) as Hj'.
  { rewrite Hl, list_lookup_insert_ne; done. }
  destruct (mapM id _) as [l|] eqn:Hmap.
  - apply mapM_Some in Hmap. rewrite <- Hl in Hmap.
    destruct (Forall2_lookup_l _ _ _ _ _ Hmap Hj') as (y & _ & Hy). done.
  - destruct Hm as [-> _]. simpl. by apply IH.
Qed.

(** A subscription to the [getStores] of [n] keys receives nothing until
    every one of the keys has sent a first result. *)
Theorem getStores_waits_for_every_key n inputs j :
  j < n → j ∉ inputs.*1 → Combined_run inputs (Combined_new n) = [].
Proof.
  intros Hj. apply Combined_run_waits. simpl. by apply lookup_replicate_2.
Qed.

(** *** The subscribers of a store *)

(** [kept s s']: the step added no subscriber and removed none, left the
    counters of the monitors alone, delivered to observers only, and left the
    streams nobody has subscribed to untouched. *)
Definition kept (s s' : State) : Prop :=
  nextSubscriber s' = nextSubscriber s ∧
  (∀ j e', heap s' !! j = Some e' →
     ∃ e, heap s !! j = Some e ∧
       observers e' = observers e ∧ counter e' = counter e ∧
       (connected e' = false →
        connected e = false ∧ previousValue e' = previousValue e ∧
        replay e' = replay e)) ∧
  ∃ l, out s' = out s ++ l ∧
    ∀ o, o ∈ l → ∃ j e, heap s !! j = Some e ∧ o.1 ∈ observers e.

Lemma kept_refl s : kept s s.
Proof.
  split; [done|]. split; [intros j e He; eauto 10|].
  exists []. split; [by rewrite app_nil_r|]. by intros o ?%elem_of_nil.
Qed.

Lemma kept_trans s1 s2 s3 : kept s1 s2 → kept s2 s3 → kept s1 s3.
Proof.
  intros (Hn12 & H12 & l12 & Ho12 & Hl12) (Hn23 & H23 & l23 & Ho23 & Hl23).
  split; [congruence|]. split.
  - intros j e3 He3. destruct (H23 _ _ He3) as (e2 & He2 & Hob & Hc & Hp).
    destruct (H12 _ _ He2) as (e1 & He1 & Hob' & Hc' & Hp').
    exists e1. split; [done|]. split; [congruence|]. split; [congruence|].
    intros Hcon. destruct (Hp Hcon) as (Hcon2 & ? & ?).
    destruct (Hp' Hcon2) as (? & ? & ?). repeat split; congruence.
  - exists (l12 ++ l23). split; [by rewrite Ho23, Ho12, <- app_assoc|].
    intros o [Ho|Ho]%elem_of_app; [by apply Hl12|].
    destruct (Hl23 _ Ho) as (j & e2 & He2 & Hin).
    destruct (H12 _ _ He2) as (e1 & He1 & Hob & _).
    exists j, e1. split; [done|]. by rewrite <- Hob.
Qed.

Lemma kept_update j f s :
  (∀ e, heap s !! j = Some e →
     observers (f e) = observers e ∧ counter (f e) = counter e ∧
     (connected (f e) = false →
      connected e = false ∧ previousValue (f e) = previousValue e ∧
      replay (f e) = replay e)) →
  kept s (update j f s).
Proof.
  intros Hf. split; [done|]. split.
  - intros i e'. rewrite heap_update. case_decide; subst; [|by eauto 10].
    destruct (heap s !! i) as [e|] eqn:He; simpl; [|done]. intros [= <-].
    exists e. split; [done|]. by apply Hf.
  - exists []. split; [by rewrite app_nil_r|]. by intros o ?%elem_of_nil.
Qed.

Lemma kept_same s s' :
  heap s' = heap s → out s' = out s → nextSubscriber s' = nextSubscriber s →
  kept s s'.
Proof.
  intros Hh Ho Hn. split; [done|]. split.
  - intros j e'. rewrite Hh. eauto 10.
  - exists []. split; [by rewrite app_nil_r|]. by intros o ?%elem_of_nil.
Qed.

Lemma kept_emit eid r s s' e :
  heap s !! eid = Some e → connected e = true →
  emit eid r s = Some s' → kept s s'.
Proof.
  intros He Hcon. rewrite (emit_Some _ _ _ e He). intros [= <-].
  split; [done|]. split.
  - intros i e'. simpl. rewrite list_lookup_alter. case_decide; subst; [|by eauto 10].
    rewrite He. simpl. intros [= <-]. exists e. split; [done|].
    simpl. split; [done|]. split; [done|]. congruence.
  - eexists. split; [done|]. intros o (sid & -> & Hin)%list_elem_of_fmap. eauto.
Qed.

Lemma quiet_connected s s' eid e :
  quiet s s' → heap s !! eid = Some e → connected e = true →
  ∃ e', heap s' !! eid = Some e' ∧ connected e' = true.
Proof.
  intros [_ Hle] He Hcon. destruct (Hle _ _ He) as (e' & He' & _ & _ & _ & _ & Hc & _).
  eauto.
Qed.

Lemma kept_fetcher_notification eid n s s' :
  (∀ e, heap s !! eid = Some e → fetching e = true → connected e = true) →
  fetcher_notification eid n s = Some s' → kept s s'.
Proof.
  intros Hpre. unfold fetcher_notification.
  destruct (heap s !! eid) as [e|] eqn:He; simpl; [|done].
  destruct (fetching e) eqn:Hf; [|intros [= <-]; apply kept_refl].
  specialize (Hpre e eq_refl Hf).
  destruct n as [v|err|].
  - by apply (kept_emit _ _ _ _ e).
  - destruct (storeRef e) as [c|]; simpl; [|done].
    destruct (heap s !! c); simpl; [|done].
    set (s2 := update eid (set_fetching false) (update c (set_lastFetchFailed true) s)).
    assert (quiet s s2) as Hq.
    { eapply quiet_trans; [apply (quiet_update c (set_lastFetchFailed true))|
                           apply (quiet_update eid (set_fetching false))];
        intros e' _; by repeat split. }
    destruct (quiet_connected s s2 eid e Hq He Hpre) as (e2 & He2 & Hc2).
    intros Hemit%(kept_emit _ _ _ _ e2); [|done..].
    eapply kept_trans; [|exact Hemit].
    eapply kept_trans; [apply (kept_update c (set_lastFetchFailed true))|
                        apply (kept_update eid (set_fetching false))];
      intros e' _; by repeat split.
  - intros [= <-]. apply kept_update. intros e' _. by repeat split.
Qed.

Lemma kept_fetcher_notifications eid ns s s' e :
  heap s !! eid = Some e → connected e = true →
  fetcher_notifications eid ns s = Some s' → kept s s'.
Proof.
  revert s e. induction ns as [|n ns IH]; simpl; intros s e He Hcon.
  - intros [= <-]. apply kept_refl.
  - destruct (fetcher_notification eid n s) as [s1|] eqn:H1; simpl; [|done].
    intros H2.
    destruct (quiet_connected s s1 eid e) as (e1 & He1 & Hc1); try done.
    { by eapply quiet_fetcher_notification. }
    eapply kept_trans; [|by eapply (IH s1 e1)].
    eapply kept_fetcher_notification; [|exact H1].
    intros e0 He0 _. congruence.
Qed.

Lemma kept_networkFetchOb eid s s' e :
  heap s !! eid = Some e → connected e = true →
  networkFetchOb eid s = Some s' → kept s s'.
Proof.
  intros He Hcon. unfold networkFetchOb. rewrite He. simpl.
  set (r := dict_get (key e) (store s)).
  rewrite (emit_Some _ _ _ (set_storeRef r e)) by by apply heap_update_eq.
  simpl. destruct (fetch_subscribe _ _ _ _) as [b sync].
  set (m := merge _ _).
  set (s1 := update eid (set_storeRef r) s).
  set (s2 := add_out _ (update eid (set_emitted _ m) s1)).
  set (s3 := update eid (set_fetching true) _).
  assert (kept s s1) as H1.
  { apply kept_update. intros e' _. by repeat split. }
  assert (kept s1 s2) as H2.
  { apply (kept_emit eid {| loading := true; value := None; error := None |} s1 s2
             (set_storeRef r e)); [by apply heap_update_eq|done|].
    by rewrite (emit_Some _ _ _ (set_storeRef r e)) by by apply heap_update_eq. }
  assert (kept s2 s3) as H3.
  { eapply kept_trans; [|apply (kept_update eid (set_fetching true));
                          intros e' _; by repeat split].
    by apply kept_same. }
  intros Hns. eapply kept_trans; [exact H1|]. eapply kept_trans; [exact H2|].
  eapply kept_trans; [exact H3|].
  eapply (kept_fetcher_notifications eid sync s3 s'); [| |exact Hns].
  - unfold s3, s2, s1. simpl. rewrite !list_lookup_alter_eq, He. simpl. done.
  - done.
Qed.

Lemma kept_switchMap eid val s s' e :
  heap s !! eid = Some e → connected e = true →
  switchMap eid val s = Some s' → kept s s'.
Proof.
  intros He Hcon. unfold switchMap. rewrite He. simpl.
  set (s1 := if fetching e then _ else s).
  assert (kept s s1 ∧ ∃ e1, heap s1 !! eid = Some e1 ∧ connected e1 = true)
    as (H1 & e1 & He1 & Hc1).
  { unfold s1. destruct (fetching e); [|split; [apply kept_refl|eauto]].
    split.
    - eapply kept_trans; [|apply (kept_update eid (set_fetching false));
                            intros e' _; by repeat split].
      by apply kept_same.
    - exists (set_fetching false e). split; [by apply heap_update_eq|done]. }
  clearbody s1. intros Hk. eapply kept_trans; [exact H1|].
  destruct val; [by eapply kept_emit|by eapply kept_networkFetchOb].
Qed.

Lemma kept_updateValueRS_next eid val s s' :
  updateValueRS_next eid val s = Some s' → kept s s'.
Proof.
  unfold updateValueRS_next.
  destruct (heap s !! eid) as [e|] eqn:He; simpl; [|done].
  intros Hk. eapply kept_trans.
  - apply (kept_update eid (set_updateValueRS val)). intros e' _. by repeat split.
  - destruct (connected e) eqn:Hcon.
    + eapply (kept_switchMap eid val _ s' (set_updateValueRS val e)); [|done..].
      by apply heap_update_eq.
    + injection Hk as <-. apply kept_refl.
Qed.

(** What holds of the subscribers of an entry when the next subscription
    is [n]: no subscription is counted twice, each is older than [n], the
    monitor's counter is the number of observers (it stays zero when there
    is no monitor), and a stream nobody ever subscribed to has no observer
    and has sent nothing. *)
Definition subs_ok (n : nat) (e : StoreEntry) : Prop :=
  NoDup (observers e) ∧ (∀ sid, sid ∈ observers e → sid < n) ∧
  counter e = (if monitored then Z.of_nat (length (observers e)) else 0%Z) ∧
  (connected e = false →
   observers e = [] ∧ previousValue e = None ∧ replay e = None).

Definition Subs (s : State) : Prop :=
  (∀ eid e, heap s !! eid = Some e → subs_ok (nextSubscriber s) e) ∧
  (∀ o, o ∈ out s → o.1 < nextSubscriber s).

Lemma Subs_new b : Subs (new b).
Proof.
  split; simpl.
  - intros eid e He. by rewrite lookup_nil in He.
  - by intros o ?%elem_of_nil.
Qed.

Lemma kept_subs_ok n s s' :
  kept s s' →
  (∀ eid e, heap s !! eid = Some e → subs_ok n e) →
  ∀ eid e', heap s' !! eid = Some e' → subs_ok n e'.
Proof.
  intros (_ & Hk & _) Hs eid e' He'.
  destruct (Hk _ _ He') as (e & He & Hob & Hc & Hp).
  destruct (Hs _ _ He) as (Hnd & Hb & Hcnt & Hpr).
  unfold subs_ok. rewrite Hob, Hc. repeat (split; [done|]).
  intros Hcon. destruct (Hp Hcon) as (Hcon0 & -> & ->). by apply Hpr.
Qed.

Lemma kept_out n s s' :
  kept s s' →
  (∀ eid e, heap s !! eid = Some e → subs_ok n e) →
  (∀ o, o ∈ out s → o.1 < n) → ∀ o, o ∈ out s' → o.1 < n.
Proof.
  intros (_ & _ & l & -> & Hl) Hs Ho o [Hin|Hin]%elem_of_app; [by apply Ho|].
  destruct (Hl _ Hin) as (j & e & He & Hobs).
  destruct (Hs _ _ He) as (_ & Hb & _). by apply Hb.
Qed.

Lemma Subs_kept s s' : Subs s → kept s s' → Subs s'.
Proof.
  intros [Hs Ho] Hk. pose proof Hk as (Hn & _). rewrite <- Hn in Hs, Ho.
  split; [by eapply kept_subs_ok|by eapply kept_out].
Qed.

Lemma subs_ok_mono n n' e : n ≤ n' → subs_ok n e → subs_ok n' e.
Proof.
  intros Hle (Hnd & Hb & Hrest). split; [done|]. split; [|done].
  intros sid Hsid. specialize (Hb _ Hsid). lia.
Qed.

Lemma Subs_init p x s : Subs s → Subs (init p x s).
Proof.
  intros [Hs Ho]. destruct (init_logs p x s) as (_ & Hout & _ & _ & Hn).
  split.
  - intros eid e He. rewrite Hn. apply init_lookup in He as [He|[_ ->]]; [by eapply Hs|].
    repeat split; try done.
    + apply NoDup_nil_2.
    + by intros sid ?%elem_of_nil.
    + simpl. by destruct monitored.
  - by rewrite Hout, Hn.
Qed.

Lemma Subs__getStore p options s s' ob :
  Subs s → _getStore p options s = Some (s', ob) → Subs s'.
Proof.
  intros HS. apply (Subs_init p (extra options)) in HS. unfold _getStore.
  destruct (dict_get _ _) as [eid|]; simpl; [|done].
  destruct (heap _ !! eid) as [e|]; simpl; [|done].
  destruct (force options || lastFetchFailed e).
  - destruct (updateValueRS_next _ _ _) as [s1|] eqn:H1; simpl; [|done].
    destruct (dict_get _ (store s1)); simpl; [|done]. intros [= <- _].
    eauto using Subs_kept, kept_updateValueRS_next.
  - simpl. destruct (dict_get _ _); simpl; [|done]. by intros [= <- _].
Qed.

Lemma Subs__getStore_map ps options s s' obs :
  Subs s → _getStore_map ps options s = Some (s', obs) → Subs s'.
Proof.
  revert s obs. induction ps as [|p ps IH]; simpl; intros s obs HS.
  - by intros [= <- _].
  - destruct (_getStore p options s) as [[s1 ob]|] eqn:H1; simpl; [|done].
    destruct (_getStore_map ps options s1) as [[s2 obs']|] eqn:H2; simpl; [|done].
    intros [= <- _]. eauto using Subs__getStore.
Qed.

Lemma Subs_forEach {A} (f : A → State → option State) l s s' :
  (∀ a s s', Subs s → f a s = Some s' → Subs s') →
  Subs s → forEach f l s = Some s' → Subs s'.
Proof.
  intros Hf. revert s. induction l as [|a l IH]; simpl; intros s HS.
  - by intros [= <-].
  - destruct (f a s) as [s1|] eqn:H1; simpl; [|done]. eauto.
Qed.

Lemma Subs_expireKey k s s' : Subs s → expireKey k s = Some s' → Subs s'.
Proof.
  intros HS. unfold expireKey. destruct (dict_get _ _); simpl; [|done].
  eauto using Subs_kept, kept_updateValueRS_next.
Qed.

Lemma advance_out dt s :
  out (advance dt s) = out s ∧ nextSubscriber (advance dt s) = nextSubscriber s.
Proof.
  unfold advance. set (s0 := set_timers _ _).
  change (out s) with (out s0). change (nextSubscriber s) with (nextSubscriber s0).
  clearbody s0. revert s0.
  induction (filter _ _) as [|t due IH]; simpl; intros s0; [done|].
  apply (IH (set_store (dict_delete t.2.2) s0)).
Qed.

(** What [shareReplay(1)] does with a subscription. *)
Lemma shareReplay_subscribe_inv eid sid s s' :
  shareReplay_subscribe eid sid s = Some s' →
  ∃ s1 e1,
    kept s s1 ∧ heap s1 !! eid = Some e1 ∧ connected e1 = true ∧
    s' = add_out (option_list ((λ m, (sid, m)) <$> replay e1))
           (update eid (set_observers (observers e1 ++ [sid])) s1).
Proof.
  unfold shareReplay_subscribe.
  destruct (heap s !! eid) as [e|] eqn:He; simpl; [|done].
  destruct (if connected e then _ else _) as [s1|] eqn:H1; simpl; [|done].
  destruct (heap s1 !! eid) as [e1|] eqn:He1; simpl; [|done]. intros [= <-].
  exists s1, e1. split; [|split; [done|split; [|done]]].
  - destruct (connected e) eqn:Hcon; [injection H1 as <-; apply kept_refl|].
    eapply kept_trans; [apply (kept_update eid (set_connected true)); intros e' _; by repeat split|].
    eapply (kept_switchMap eid _ _ s1 (set_connected true e)); [|done|exact H1].
    by apply heap_update_eq.
  - destruct (connected e) eqn:Hcon; [injection H1 as <-; congruence|].
    destruct (quiet_connected (update eid (set_connected true) s) s1 eid
                (set_connected true e)) as (e1' & He1' & Hc1); try done.
    + by eapply quiet_switchMap.
    + by apply heap_update_eq.
    + congruence.
Qed.

Lemma length_filter_remove (l : list nat) x :
  NoDup l → x ∈ l → S (length (filter (λ y, y ≠ x) l)) = length l.
Proof.
  induction l as [|a l IH]; [by intros _ ?%elem_of_nil|].
  intros [Hnin Hnd]%NoDup_cons Hin. rewrite filter_cons. case_decide as Ha.
  - apply elem_of_cons in Hin as [->|Hin]; [done|]. simpl. by rewrite IH.
  - subst a. simpl. f_equal.
    clear -Hnin. induction l as [|b l IH]; [done|].
    apply not_elem_of_cons in Hnin as [Hne Hnin].
    rewrite filter_cons, decide_True by done. simpl. by rewrite IH.
Qed.

Lemma Subs_subscribe ob s s' sid : Subs s → subscribe ob s = Some (s', sid) → Subs s'.
Proof.
  intros [Hs Ho]. unfold subscribe.
  set (n := nextSubscriber s). set (s0 := set_nextSubscriber (S n) s).
  assert (∀ s1 e1,
    kept s0 s1 → heap s1 !! ob = Some e1 → connected e1 = true →
    ∀ c, c = (if monitored then Z.of_nat (length (observers e1 ++ [n])) else 0%Z) →
    Subs (update ob (set_counter c)
            (add_out (option_list ((λ m, (n, m)) <$> replay e1))
               (update ob (set_observers (observers e1 ++ [n])) s1)))) as Hfinal.
  { intros s1 e1 Hk He1 Hc1 c ->.
    assert (∀ eid e, heap s1 !! eid = Some e → subs_ok n e) as Hs1.
    { by apply (kept_subs_ok n s0 s1 Hk). }
    assert (∀ o, o ∈ out s1 → o.1 < n) as Ho1.
    { by apply (kept_out n s0 s1 Hk). }
    pose proof Hk as (Hn1 & _).
    split.
    - intros eid e. simpl. rewrite Hn1. simpl.
      destruct (decide (ob = eid)) as [<-|Hne].
      + rewrite !list_lookup_alter_eq, He1. simpl. intros [= <-].
        destruct (Hs1 _ _ He1) as (Hnd & Hb & Hcnt & _).
        split; [|split; [|split; [done|simpl; congruence]]]; simpl.
        * apply NoDup_app. split; [done|]. split; [|apply NoDup_singleton].
          intros x Hx ->%list_elem_of_singleton. specialize (Hb _ Hx). lia.
        * intros x [Hx|Hx]%elem_of_app;
            [specialize (Hb _ Hx)|apply list_elem_of_singleton in Hx]; lia.
      + rewrite !list_lookup_alter_ne by done.
        intros He. apply (subs_ok_mono n); [lia|]. by eapply Hs1.
    - intros o. simpl. rewrite Hn1. simpl.
      intros [Hin|Hin]%elem_of_app; [specialize (Ho1 _ Hin); lia|].
      destruct (replay e1); simpl in Hin; [|by apply elem_of_nil in Hin].
      apply list_elem_of_singleton in Hin as ->. simpl. lia. }
  destruct monitored eqn:Hmon.
  - unfold SubscriberMonitor_subscribe.
    destruct (shareReplay_subscribe _ _ _) as [s2|] eqn:H2; simpl; [|done].
    apply shareReplay_subscribe_inv in H2 as (s1 & e1 & Hk & He1 & Hc1 & ->).
    simpl. rewrite list_lookup_alter_eq, He1. simpl.
    unfold onSubscribe. simpl. destruct (dict_get _ _) as [c|]; simpl; [|done].
    destruct (_ !! c) as [ec|]; simpl; [|done]. intros [= <- _].
    specialize (Hfinal s1 e1 Hk He1 Hc1 _ eq_refl).
    assert (counter e1 + 1 = Z.of_nat (length (observers e1 ++ [n])))%Z as Hcnt.
    { destruct (kept_subs_ok n s0 s1 Hk Hs _ _ He1) as (_ & _ & -> & _).
      rewrite Hmon, length_app. simpl. lia. }
    rewrite Hcnt.
    unfold clearTimeout. destruct (clearFromStorageTimer ec); [|done].
    destruct Hfinal as [Hf1 Hf2]. split; done.
  - destruct (shareReplay_subscribe _ _ _) as [s2|] eqn:H2; simpl; [|done].
    apply shareReplay_subscribe_inv in H2 as (s1 & e1 & Hk & He1 & Hc1 & ->).
    intros [= <- _].
    specialize (Hfinal s1 e1 Hk He1 Hc1 _ eq_refl).
    eapply Subs_kept; [exact Hfinal|].
    split; [done|]. split.
    + intros j e'. simpl. destruct (decide (ob = j)) as [<-|Hne].
      * rewrite !list_lookup_alter_eq, He1. simpl. intros [= <-].
        eexists. split; [done|]. simpl.
        split; [done|]. split; [|simpl; congruence].
        destruct (kept_subs_ok n s0 s1 Hk Hs _ _ He1) as (_ & _ & -> & _).
        by rewrite Hmon.
      * rewrite !list_lookup_alter_ne by done.
        intros He'. exists e'. by repeat split.
    + exists []. split; [by rewrite app_nil_r|]. by intros o ?%elem_of_nil.
Qed.

Lemma Subs_same s s' :
  heap s' = heap s → out s' = out s → nextSubscriber s' = nextSubscriber s →
  Subs s → Subs s'.
Proof. unfold Subs. intros -> -> ->. done. Qed.

Lemma Subs_update j f s e :
  Subs s → heap s !! j = Some e → subs_ok (nextSubscriber s) (f e) →
  Subs (update j f s).
Proof.
  intros [Hs Ho] He Hf. split; [|done].
  intros eid e'. rewrite heap_update. change (nextSubscriber (update j f s)) with (nextSubscriber s).
  case_decide; subst; [|by apply Hs].
  rewrite He. simpl. by intros [= <-].
Qed.

Lemma kept_onUnsubscribe k n s s' : onUnsubscribe k n s = Some s' → kept s s'.
Proof.
  unfold onUnsubscribe. case_decide; [|intros [= <-]; apply kept_refl].
  destruct (dict_get _ _) as [c|]; simpl; [|done].
  destruct (heap s !! c) as [e|]; simpl; [|done]. intros [= <-].
  eapply kept_trans; [|apply kept_update; intros e' _; by repeat split].
  by apply kept_same.
Qed.

Lemma Subs_unsubscribe ob sid s s' : Subs s → unsubscribe ob sid s = Some s' → Subs s'.
Proof.
  intros HS. unfold unsubscribe.
  destruct (heap s !! ob) as [e|] eqn:He; simpl; [|done].
  case_decide as Hin; [|by intros [= <-]].
  pose proof HS as [Hs _]. destruct (Hs _ _ He) as (Hnd & Hb & Hcnt & Hpr).
  set (l := filter (λ x, x ≠ sid) (observers e)).
  assert (NoDup l ∧ (∀ x, x ∈ l → x < nextSubscriber s) ∧ connected e = true)
    as (Hnd' & Hb' & Hcon).
  { split; [by apply NoDup_filter|]. split.
    - intros x [_ Hx]%list_elem_of_filter. by apply Hb.
    - destruct (connected e); [done|]. destruct Hpr as (Hnil & _); [done|].
      rewrite Hnil in Hin. by apply elem_of_nil in Hin. }
  destruct monitored eqn:Hmon.
  - unfold SubscriberMonitor_unsubscribe. rewrite He. simpl.
    intros Hun%kept_onUnsubscribe. eapply Subs_kept; [|exact Hun].
    eapply Subs_same; [| | |apply (Subs_update ob (set_counter (counter e - 1)%Z ∘ set_observers l) s e HS He)];
      try done.
    + simpl. by rewrite list_alter_alter_eq.
    + unfold subs_ok. simpl. rewrite Hmon. repeat (split; [done|]). split; [|congruence].
      rewrite Hcnt. pose proof (length_filter_remove (observers e) sid Hnd Hin).
      fold l in H1. lia.
  - intros [= <-]. apply (Subs_update ob (set_observers l) s e HS He).
    unfold subs_ok. simpl. rewrite Hmon. repeat (split; [done|]). congruence.
Qed.

Lemma Subs_step s ev s' : Inv s → Subs s → step s ev = Some s' → Subs s'.
Proof.
  intros HI HS. destruct ev as [p o|ps o|p v| |pr|ob|ob sid|eid n|dt]; simpl.
  - unfold getStore. destruct (_getStore p o s) as [[s1 ob]|] eqn:H1; simpl; [|done].
    intros [= <-]. by eapply Subs__getStore.
  - unfold getStores. destruct ps as [|p ps]; [by intros [= <-]|].
    destruct (_getStore_map (p :: ps) o s) as [[s1 obs]|] eqn:H1; simpl; [|done].
    intros [= <-]. by eapply Subs__getStore_map.
  - unfold updateStoreValue. destruct (dict_get _ _); simpl; [|done].
    intros Hn%kept_updateValueRS_next. eapply Subs_kept; [|exact Hn].
    by apply Subs_init.
  - apply Subs_forEach; [|done]. apply Subs_expireKey.
  - apply Subs_forEach; [|done]. intros k s0 s0' HS0.
    destruct (dict_get _ _) as [eid|]; simpl; [|done].
    destruct (heap s0 !! eid) as [e|]; simpl; [|done].
    destruct (pr (params e)); [by apply Subs_expireKey|by intros [= <-]].
  - destruct (subscribe ob s) as [[s1 sid]|] eqn:H1; simpl; [|done].
    intros [= <-]. by eapply Subs_subscribe.
  - by apply Subs_unsubscribe.
  - intros Hn. eapply Subs_kept; [done|].
    eapply kept_fetcher_notification; [|exact Hn].
    intros e He Hf. by destruct (Inv_entry s eid e HI He) as (Hc & _); auto.
  - intros [= <-]. destruct (advance_out dt s) as [Ho Hn].
    eapply Subs_same; [apply advance_heap|done..].
Qed.

Lemma Subs_run evs s s' : Inv s → Subs s → run s evs = Some s' → Subs s'.
Proof.
  revert s. induction evs as [|ev evs IH]; simpl; intros s HI HS.
  - by intros [= <-].
  - destruct (step s ev) as [s1|] eqn:H1; simpl; [|done].
    eauto using Inv_step, Subs_step.
Qed.

Lemma reachable_Subs b evs s : run (new b) evs = Some s → Inv s ∧ Subs s.
Proof.
  intros Hrun. split.
  - eapply Inv_run; [apply Inv_new|exact Hrun].
  - eapply Subs_run; [apply Inv_new|apply Subs_new|exact Hrun].
Qed.


(** *** The first subscription *)

(** [{ loading: true, value: undefined }], the first value of
    [networkFetchOb]. *)
Definition loading_frame : IRxStore :=
  {| loading := true; value := None; error := None |}.

(** Notifications of the fetch of an entry that has no observer reach
    nobody. *)
Lemma fetcher_notifications_unobserved eid ns s s' e :
  heap s !! eid = Some e → observers e = [] → is_Some (replay e) →
  fetcher_notifications eid ns s = Some s' →
  out s' = out s ∧ fetchLog s' = fetchLog s ∧
  ∃ e', heap s' !! eid = Some e' ∧ observers e' = [] ∧ is_Some (replay e') ∧
    key e' = key e.
Proof.
  revert s e. induction ns as [|n ns IH]; simpl; intros s e He Hobs Hrep.
  - intros [= <-]. eauto 10.
  - destruct (fetcher_notification eid n s) as [s1|] eqn:H1; simpl; [|done].
    intros Hns.
    assert (out s1 = out s ∧ fetchLog s1 = fetchLog s ∧
            ∃ e1, heap s1 !! eid = Some e1 ∧ observers e1 = [] ∧
              is_Some (replay e1) ∧ key e1 = key e)
      as (Ho1 & Hl1 & e1 & He1 & Hobs1 & Hrep1 & Hk1).
    { revert H1. unfold fetcher_notification. rewrite He. simpl.
      destruct (fetching e); [|intros [= <-]; eauto 10].
      destruct n as [v|err|].
      - rewrite (emit_Some _ _ _ e He), Hobs. intros [= <-]. simpl.
        rewrite app_nil_r. repeat (split; [done|]).
        rewrite list_lookup_alter_eq, He. simpl. eauto 10.
      - destruct (storeRef e) as [c|]; simpl; [|done].
        destruct (heap s !! c) as [ec|]; simpl; [|done].
        assert (∃ e2, heap (update eid (set_fetching false)
                         (update c (set_lastFetchFailed true) s)) !! eid = Some e2 ∧
                  observers e2 = [] ∧ key e2 = key e) as (e2 & He2 & Hobs2 & Hk2).
        { rewrite heap_update_eq with (e := if decide (c = eid)
                                             then set_lastFetchFailed true e else e).
          - eexists. split; [done|]. by case_decide.
          - rewrite heap_update. case_decide; by rewrite He. }
        rewrite (emit_Some _ _ _ e2 He2), Hobs2. intros [= <-]. simpl.
        rewrite app_nil_r. repeat (split; [done|]).
        simpl in He2. rewrite list_lookup_alter_eq, He2. simpl. eauto 10.
      - intros [= <-]. simpl. repeat (split; [done|]).
        rewrite list_lookup_alter_eq, He. simpl. eauto 10. }
    destruct (IH s1 e1 He1 Hobs1 Hrep1 Hns) as (Ho & Hl & e' & He' & Hobs' & Hrep' & Hk').
    split; [congruence|]. split; [congruence|]. exists e'. repeat split; try done.
    congruence.
Qed.

(** The first subscription to the stream of an entry the store object
    holds. *)
Lemma shareReplay_subscribe_first s k eid e sid :
  Inv s → dict_get k (store s) = Some eid → heap s !! eid = Some e →
  connected e = false → observers e = [] → previousValue e = None →
  ∃ s' e' m,
    shareReplay_subscribe eid sid s = Some s' ∧ store s' = store s ∧
    nextSubscriber s' = nextSubscriber s ∧
    out s' = out s ++ [(sid, m)] ∧
    heap s' !! eid = Some e' ∧ observers e' = [sid] ∧ replay e' = Some m ∧
    key e' = key e ∧ connected e' = true ∧
    match updateValueRS e with
    | Some local => fetchLog s' = fetchLog s ∧ m = merge None local
    | None =>
        fetchLog s' = fetchLog s ++ [(eid, params e, extra0 e)] ∧
        ((fetch_subscribe (backend s) eid (params e) (extra0 e)).2 = [] →
         m = loading_frame ∧ fetching e' = true)
    end.
Proof.
  intros HI Hk He Hcon Hobs Hprev.
  pose proof HI as (Hst & _). destruct (Hst _ _ Hk) as (e0 & He0 & Hkey).
  rewrite He in He0. injection He0 as <-.
  destruct (Inv_entry s eid e HI He) as (Hfc & _).
  assert (fetching e = false) as Hf.
  { destruct (fetching e); [|done]. rewrite Hfc in Hcon; done. }
  unfold shareReplay_subscribe. rewrite He. simpl. rewrite Hcon.
  unfold switchMap. rewrite (heap_update_eq _ _ _ e He). simpl. rewrite Hf.
  destruct (updateValueRS e) as [local|].
  - rewrite (emit_Some _ _ _ (set_connected true e)) by by apply heap_update_eq.
    simpl. rewrite !list_lookup_alter_eq, He. simpl. rewrite Hobs, Hprev. simpl.
    eexists _, _, _. split; [done|]. simpl.
    rewrite !list_lookup_alter_eq, He. simpl. rewrite app_nil_r. by repeat split.
  - unfold networkFetchOb. rewrite (heap_update_eq _ _ _ e He). simpl.
    rewrite Hkey, Hk.
    rewrite (emit_Some _ _ _ (set_storeRef (Some eid) (set_connected true e))).
    2:{ apply heap_update_eq. by apply heap_update_eq. }
    simpl. rewrite Hobs, Hprev. simpl.
    destruct (fetch_subscribe (backend s) eid (params e) (extra0 e)) as [b' sync] eqn:Hfs.
    set (s3 := update eid (set_fetching true) _).
    set (e3 := set_fetching true (set_emitted loading_frame (merge None loading_frame)
                 (set_storeRef (Some eid) (set_connected true e)))).
    assert (heap s3 !! eid = Some e3) as He3.
    { unfold s3. simpl. by rewrite !list_lookup_alter_eq, He. }
    destruct (fetcher_notifications_total eid sync s3 e3 eid He3) as [s4 Hs4]; [done|..].
    { unfold s3. simpl. rewrite !length_alter. by eapply lookup_lt_Some. }
    fold loading_frame. rewrite Hs4. simpl.
    destruct (fetcher_notifications_unobserved eid sync s3 s4 e3 He3)
      as (Ho4 & Hl4 & e4 & He4 & Hobs4 & [m Hrep4] & Hk4); [done|by eexists|done|].
    destruct (quiet_fetcher_notifications _ _ _ _ Hs4) as [(Hst4 & _ & _ & _ & Hn4 & _) _].
    destruct (quiet_connected s3 s4 eid e3) as (e4' & He4' & Hc4); try done.
    { by eapply quiet_fetcher_notifications. }
    rewrite He4 in He4'. injection He4' as <-.
    rewrite He4. simpl. eexists _, (set_observers (observers e4 ++ [sid]) e4), m.
    split; [done|]. simpl. rewrite Hst4, Hn4, Ho4, Hl4, Hrep4. simpl.
    rewrite app_nil_r, list_lookup_alter_eq, He4, Hobs4. simpl.
    repeat (split; [done|]). split; [by rewrite Hk4|]. repeat (split; [done|]).
    intros ->. simpl in Hs4. injection Hs4 as <-.
    rewrite He3 in He4. injection He4 as <-. simpl in Hrep4. by injection Hrep4 as <-.
Qed.

Lemma filter_fresh sid (o : list (nat * IRxStore)) :
  (∀ x, x ∈ o → x.1 < sid) → filter (λ x, x.1 = sid) o = [].
Proof.
  induction o as [|x o IH]; intros Hlt; [done|].
  rewrite filter_cons, decide_False.
  - apply IH. intros y Hy. apply Hlt. by right.
  - assert (x.1 < sid) by (apply Hlt; by left). lia.
Qed.

Lemma subscribe_first s k eid e :
  Inv s → Subs s →
  dict_get k (store s) = Some eid → heap s !! eid = Some e →
  connected e = false →
  ∃ s' e' m,
    subscribe eid s = Some (s', nextSubscriber s) ∧
    received (nextSubscriber s) s' = [m] ∧
    out s' = out s ++ [(nextSubscriber s, m)] ∧
    heap s' !! eid = Some e' ∧ observers e' = [nextSubscriber s] ∧
    replay e' = Some m ∧ connected e' = true ∧
    match updateValueRS e with
    | Some local => fetchLog s' = fetchLog s ∧ m = merge None local
    | None =>
        fetchLog s' = fetchLog s ++ [(eid, params e, extra0 e)] ∧
        ((fetch_subscribe (backend s) eid (params e) (extra0 e)).2 = [] →
         m = loading_frame ∧ fetching e' = true)
    end.
Proof.
  intros HI [Hs Ho] Hk He Hcon.
  destruct (Hs _ _ He) as (_ & _ & _ & Hpr).
  destruct (Hpr Hcon) as (Hobs & Hprev & _).
  set (n := nextSubscriber s). set (s0 := set_nextSubscriber (S n) s).
  assert (Inv s0) as HI0 by by eapply Inv_same.
  destruct (shareReplay_subscribe_first s0 k eid e n HI0 Hk He Hcon Hobs Hprev)
    as (s1 & e1 & m & Hsh & Hst1 & Hn1 & Ho1 & He1 & Hobs1 & Hrep1 & Hk1 & Hc1 & Hcase).
  assert (received n s1 = [m]) as Hrec.
  { unfold received. rewrite Ho1, filter_app, filter_fresh by done. simpl.
    rewrite filter_cons, filter_nil. simpl. by rewrite decide_True. }
  unfold subscribe. fold n. fold s0. destruct monitored.
  - unfold SubscriberMonitor_subscribe. rewrite Hsh. simpl. rewrite He1. simpl.
    unfold onSubscribe. simpl. rewrite Hk1, Hst1.
    pose proof HI as (Hst & _). destruct (Hst _ _ Hk) as (e0 & He0 & Hkey).
    rewrite He in He0. injection He0 as <-. simpl. rewrite Hkey, Hk. simpl.
    rewrite list_lookup_alter_eq, He1. simpl.
    eexists _, (set_counter (counter e1 + 1)%Z e1), m. split; [done|].
    assert (∀ t s2, out (clearTimeout t s2) = out s2 ∧ heap (clearTimeout t s2) = heap s2 ∧
                    fetchLog (clearTimeout t s2) = fetchLog s2) as Hct.
    { intros [h|] s2; done. }
    unfold received. destruct (Hct (clearFromStorageTimer e1)
      (update eid (set_counter (counter e1 + 1)%Z) s1)) as (-> & -> & ->).
    simpl. rewrite list_lookup_alter_eq, He1. simpl.
    split; [exact Hrec|]. repeat (split; [done|]). done.
  - rewrite Hsh. simpl. exists s1, e1, m. by repeat split.
Qed.


(** *** What one subscriber receives *)

Lemma filter_deliveries (sid : nat) (obs : list nat) (r : IRxStore) :
  NoDup obs →
  filter (λ x : nat * IRxStore, x.1 = sid) ((λ sid, (sid, r)) <$> obs) =
  if decide (sid ∈ obs) then [(sid, r)] else [].
Proof.
  induction obs as [|a obs IH]; intros Hnd.
  - rewrite decide_False; [done|]. apply not_elem_of_nil.
  - apply NoDup_cons in Hnd as [Hnin Hnd]. rewrite fmap_cons, filter_cons. simpl.
    rewrite IH by done. destruct (decide (a = sid)) as [->|Hne].
    + rewrite decide_False by done. rewrite decide_True; [done|by left].
    + destruct (decide (sid ∈ obs)) as [Hin|Hnin'].
      * rewrite decide_True; [done|by right].
      * rewrite decide_False; [done|]. apply not_elem_of_cons. split; [congruence|done].
Qed.

Lemma received_values (sid : nat) (obs : list nat) (vs : list (option T)) :
  NoDup obs →
  (filter (λ x : nat * IRxStore, x.1 = sid)
     (vs ≫= λ v, (λ sid, (sid, ready v)) <$> obs)).*2 =
  if decide (sid ∈ obs) then ready <$> vs else [].
Proof.
  intros Hnd. induction vs as [|v vs IH]; [by case_decide|].
  change ((v :: vs) ≫= ?f) with (f v ++ (vs ≫= f)).
  rewrite filter_app, fmap_app, IH, filter_deliveries by done.
  by case_decide.
Qed.

Lemma observers_receive_values s eid e vs :
  Subs s → heap s !! eid = Some e → fetching e = true →
  Forall (λ v, truthy v = true) vs →
  ∃ s' e',
    run s (FetcherNotifies eid ∘ Next <$> vs) = Some s' ∧
    fetchLog s' = fetchLog s ∧
    heap s' !! eid = Some e' ∧ observers e' = observers e ∧ fetching e' = true ∧
    ∀ sid, received sid s' =
           received sid s ++ (if decide (sid ∈ observers e) then ready <$> vs else []).
Proof.
  intros [Hs _] He Hf Hvs.
  destruct (fetcher_values eid vs s e He Hf Hvs)
    as (s' & e' & Hrun' & Hout & Hlog & He' & Hobs & Hf' & _).
  exists s', e'. repeat (split; [done|]). intros sid.
  destruct (Hs _ _ He) as (Hnd & _).
  unfold received. by rewrite Hout, filter_app, fmap_app, received_values.
Qed.

(** While the fetch of an entry is live, each subscriber of the entry
    receives each truthy value of the fetcher's stream exactly once, in
    order, after what it had received before; the subscribers of the other
    entries receive nothing. *)
Theorem every_observer_receives_each_value_once b evs s eid e vs :
  run (new b) evs = Some s →
  heap s !! eid = Some e → fetching e = true →
  Forall (λ v, truthy v = true) vs →
  ∃ s',
    run s (FetcherNotifies eid ∘ Next <$> vs) = Some s' ∧
    (∀ sid, sid ∈ observers e →
       received sid s' = received sid s ++ (ready <$> vs)) ∧
    (∀ sid, sid ∉ observers e → received sid s' = received sid s).
Proof.
  intros Hrun He Hf Hvs. destruct (reachable_Subs b evs s Hrun) as [_ HS].
  destruct (observers_receive_values s eid e vs HS He Hf Hvs)
    as (s' & e' & Hrun' & _ & _ & _ & _ & Hrec).
  exists s'. split; [done|]. split; intros sid Hsid; rewrite Hrec.
  - by rewrite decide_True.
  - by rewrite decide_False, app_nil_r.
Qed.

(** *** RxStoreUtil

    The operators of [RxStoreUtil] are [filter] and [map]: they handle each
    result of the source on its own and keep the order.  A stream is given
    by the results it has sent, oldest first. *)

(** [source.pipe(filter((store) => !store.loading))] *)
Definition storeFilterOutLoading (source : list IRxStore) : list IRxStore :=
  filter (λ store, negb (loading store)) source.

(** [source.pipe(map((store) => store.loading))] *)
Definition storeMapToLoading (source : list IRxStore) : list bool :=
  (λ store, loading store) <$> source.

(** [source.pipe(map((store) => store.value))] *)
Definition storeMapToValue (source : list IRxStore) : list (option T) :=
  (λ store, value store) <$> source.

(** [source.pipe(map((store) => store.error))] *)
Definition storeMapToError (source : list IRxStore) : list (option TError) :=
  (λ store, error store) <$> source.

Lemma storeFilterOutLoading_ready (vs : list (option T)) :
  storeFilterOutLoading (ready <$> vs) = ready <$> vs.
Proof.
  unfold storeFilterOutLoading. induction vs as [|v vs IH]; [done|].
  rewrite fmap_cons, filter_cons. simpl. by rewrite IH.
Qed.

Lemma run_app s evs1 evs2 :
  run s (evs1 ++ evs2) = run s evs1 ≫= λ s1, run s1 evs2.
Proof.
  revert s. induction evs1 as [|ev evs1 IH]; simpl; intros s; [done|].
  destruct (step s ev) as [s1|]; simpl; [apply IH|done].
Qed.

(** The first subscriber of a key, while the fetcher's stream (which sends
    nothing during the subscription, as a request over the network does)
    produces the truthy values [vs]: it receives the loading state and then
    one result for each value.  Piped through [storeFilterOutLoading] and
    [storeMapToValue] that is exactly the values [vs]; through
    [storeMapToLoading], [true] and then [false] for each value; and
    [storeMapToError] finds no error. *)
Theorem first_subscriber_pipes b evs s k eid e vs :
  run (new b) evs = Some s →
  dict_get k (store s) = Some eid → heap s !! eid = Some e →
  connected e = false → updateValueRS e = None →
  (fetch_subscribe (backend s) eid (params e) (extra0 e)).2 = [] →
  Forall (λ v, truthy v = true) vs →
  ∃ s',
    run s (Subscribe eid :: (FetcherNotifies eid ∘ Next <$> vs)) = Some s' ∧
    fetches eid s' = S (fetches eid s) ∧
    let results := received (nextSubscriber s) s' in
    results = loading_frame :: (ready <$> vs) ∧
    storeMapToValue (storeFilterOutLoading results) = vs ∧
    storeMapToLoading results = true :: ((λ _, false) <$> vs) ∧
    storeMapToError results = (λ _, None) <$> (loading_frame :: (ready <$> vs)).
Proof.
  intros Hrun Hk He Hcon Hloc Hasync Hvs.
  destruct (subscribe_first s k eid e) as (s1 & e1 & m & Hsub & Hrec1 & _ & He1 & Hobs1 & _ & _ & Hcase);
    try done; try (by apply (reachable_Subs b evs s)).
  rewrite Hloc in Hcase. destruct Hcase as (Hlog1 & Hm). destruct (Hm Hasync) as [-> Hf1].
  assert (Subs s1) as HS1.
  { apply (reachable_Subs b (evs ++ [Subscribe eid])).
    rewrite run_app, Hrun. simpl. by rewrite Hsub. }
  destruct (observers_receive_values s1 eid e1 vs HS1 He1 Hf1 Hvs)
    as (s' & e' & Hrun' & Hlog' & _ & _ & _ & Hrec).
  exists s'. split; [simpl; by rewrite Hsub|].
  split.
  { unfold fetches. rewrite Hlog', Hlog1, filter_app, length_app.
    rewrite filter_cons, filter_nil. simpl. rewrite decide_True by done. simpl. lia. }
  cbv zeta. rewrite Hrec, Hrec1, Hobs1, decide_True by by left.
  split; [done|]. simpl. split; [|split].
  - unfold storeFilterOutLoading. rewrite filter_cons. simpl.
    fold (storeFilterOutLoading (ready <$> vs)). rewrite storeFilterOutLoading_ready.
    unfold storeMapToValue. clear. induction vs as [|v vs IH]; [done|].
    simpl. by f_equal.
  - unfold storeMapToLoading. simpl. f_equal.
    clear. induction vs as [|v vs IH]; [done|]. simpl. by f_equal.
  - unfold storeMapToError. simpl. f_equal.
    clear. induction vs as [|v vs IH]; [done|]. simpl. by f_equal.
Qed.

(** *** The eviction timer *)

Lemma two_observers (l : list nat) sid :
  sid ∈ l → l ≠ [sid] → 2 ≤ length l.
Proof.
  destruct l as [|a [|a' l]]; simpl; [by intros ?%elem_of_nil| |lia].
  intros ->%list_elem_of_singleton. done.
Qed.

(** With [deleteFromCacheTimeMS], the timer that deletes a key is set
    exactly when the last subscriber of its stream unsubscribes: while other
    subscribers remain, unsubscribing sets no timer; when the only
    subscriber leaves, one timer is set for [deleteFromCacheTimeMS] from
    now, the key stays in the store object for the moment, and once that
    time has passed it is deleted. *)
Theorem eviction_timer_starts_with_last_unsubscribe b evs s k eid e sid ttl :
  deleteFromCacheTimeMS = Some (S ttl) →
  run (new b) evs = Some s →
  dict_get k (store s) = Some eid → heap s !! eid = Some e →
  sid ∈ observers e →
  ∃ s1,
    unsubscribe eid sid s = Some s1 ∧ store s1 = store s ∧
    if decide (observers e = [sid]) then
      timers s1 = timers s ++ [(nextTimer s, (now s + S ttl, k))] ∧
      ∀ dt, S ttl ≤ dt → dict_get k (store (advance dt s1)) = None
    else timers s1 = timers s.
Proof.
  intros Httl Hrun Hk He Hsid.
  assert (monitored = true) as Hmon by (unfold monitored; by rewrite Httl).
  destruct (reachable_Subs b evs s Hrun) as [HI [Hs _]].
  destruct (Hs _ _ He) as (Hnd & _ & Hcnt & _). rewrite Hmon in Hcnt.
  pose proof HI as (Hst & _). destruct (Hst _ _ Hk) as (e0 & He0 & Hkey).
  rewrite He in He0. injection He0 as <-.
  case_decide as Hlast.
  - destruct (unsubscribe_last_starts_timer s k eid e sid Hmon Hk He Hkey Hsid)
      as (s1 & e1 & Hun & Hst1 & Hnow & Htimers & _).
    { rewrite Hcnt, Hlast. done. }
    exists s1. rewrite Httl in Htimers. simpl in Htimers.
    repeat (split; [done|]). intros dt Hdt.
    apply (due_timer_deletes s1 dt (nextTimer s) (now s + S ttl)).
    + rewrite Htimers. apply elem_of_app. right. by left.
    + lia.
  - pose proof (two_observers _ _ Hsid Hlast) as Hlen.
    unfold unsubscribe. rewrite He. simpl. rewrite decide_True by done. rewrite Hmon.
    unfold SubscriberMonitor_unsubscribe. rewrite He. simpl.
    unfold onUnsubscribe. rewrite decide_False by lia. eauto.
Qed.

(** A subscriber that arrives at an entry the store object holds while its
    eviction timer is pending cancels that timer. *)
Theorem resubscribe_cancels_eviction_timer b evs s k eid e h :
  monitored = true →
  run (new b) evs = Some s →
  dict_get k (store s) = Some eid → heap s !! eid = Some e →
  connected e = true → clearFromStorageTimer e = Some h →
  ∃ s',
    subscribe eid s = Some (s', nextSubscriber s) ∧ store s' = store s ∧
    fetchLog s' = fetchLog s ∧ h ∉ (timers s').*1.
Proof.
  intros Hmon Hrun Hk He Hcon Ht.
  assert (Inv s) as HI by (eapply Inv_run; [apply Inv_new|exact Hrun]).
  pose proof HI as (Hst & _). destruct (Hst _ _ Hk) as (e0 & He0 & Hkey).
  rewrite He in He0. injection He0 as <-.
  unfold subscribe. rewrite Hmon.
  unfold SubscriberMonitor_subscribe, shareReplay_subscribe. simpl.
  rewrite He. simpl. rewrite Hcon. simpl. rewrite He. simpl.
  rewrite list_lookup_alter_eq, He. simpl.
  unfold onSubscribe. simpl. rewrite Hkey, Hk. simpl.
  rewrite !list_lookup_alter_eq, He. simpl. rewrite Ht. simpl.
  eexists. split; [done|]. simpl. repeat (split; [done|]).
  intros ([h' t] & Hh & [Hne _]%list_elem_of_filter)%list_elem_of_fmap.
  simpl in *. congruence.
Qed.

(** *** Fetching again *)

(** The streams the fetcher returns send nothing during the subscription
    (a request over the network). *)
Definition asynchronous_fetcher : Prop :=
  ∀ b eid p x, (fetch_subscribe b eid p x).2 = [].

Lemma networkFetchOb_async eid s e :
  asynchronous_fetcher → heap s !! eid = Some e →
  ∃ s',
    networkFetchOb eid s = Some s' ∧ store s' = store s ∧
    fetchLog s' = fetchLog s ++ [(eid, params e, extra0 e)] ∧
    out s' = out s ++
      ((λ sid, (sid, merge (previousValue e) loading_frame)) <$> observers e) ∧
    heap s' !! eid =
      Some (set_fetching true
              (set_emitted loading_frame (merge (previousValue e) loading_frame)
                 (set_storeRef (dict_get (key e) (store s)) e))).
Proof.
  intros Hasync He. unfold networkFetchOb. rewrite He. simpl.
  rewrite (emit_Some _ _ _ (set_storeRef (dict_get (key e) (store s)) e))
    by by apply heap_update_eq.
  simpl. specialize (Hasync (backend s) eid (params e) (extra0 e)).
  destruct (fetch_subscribe _ _ _ _) as [b' sync]. simpl in Hasync. subst sync.
  simpl. eexists. split; [done|]. simpl. rewrite !list_lookup_alter_eq, He. done.
Qed.

Lemma refetch_async s eid e :
  asynchronous_fetcher → heap s !! eid = Some e → connected e = true →
  ∃ s' e',
    updateValueRS_next eid None s = Some s' ∧ store s' = store s ∧
    fetchLog s' = fetchLog s ++ [(eid, params e, extra0 e)] ∧
    out s' = out s ++
      ((λ sid, (sid, merge (previousValue e) loading_frame)) <$> observers e) ∧
    heap s' !! eid = Some e' ∧ previousValue e' = Some loading_frame ∧
    fetching e' = true ∧ observers e' = observers e.
Proof.
  intros Hasync He Hcon. unfold updateValueRS_next. rewrite He. simpl. rewrite Hcon.
  unfold switchMap. rewrite (heap_update_eq _ _ _ e He). simpl.
  set (s1 := if fetching e then _ else _).
  assert (∃ e1, heap s1 !! eid = Some e1 ∧ previousValue e1 = previousValue e ∧
            observers e1 = observers e ∧ params e1 = params e ∧ extra0 e1 = extra0 e ∧
            store s1 = store s ∧ fetchLog s1 = fetchLog s ∧ out s1 = out s)
    as (e1 & He1 & Hp1 & Ho1 & Hpa1 & Hx1 & Hst1 & Hl1 & Hout1).
  { unfold s1. destruct (fetching e).
    - exists (set_fetching false (set_updateValueRS None e)). repeat split.
      apply heap_update_eq. simpl. by rewrite list_lookup_alter_eq, He.
    - exists (set_updateValueRS None e). repeat split. by apply heap_update_eq. }
  clearbody s1.
  destruct (networkFetchOb_async eid s1 e1 Hasync He1) as (s' & Hn & Hst' & Hl' & Ho' & He').
  rewrite Hn. eexists _, _. split; [done|]. split; [congruence|].
  split; [by rewrite Hl', Hl1, Hpa1, Hx1|]. split; [by rewrite Ho', Hout1, Hp1, Ho1|].
  split; [done|]. by repeat split.
Qed.

(** A forced [getStore] right after the fetch produced the truthy value
    [v]: the observers have received [v], and they now receive the loading
    state with [v] still in it (the value stays visible while the entry
    fetches again), and the fetcher is called once more. *)
Theorem forced_refetch_shows_last_value b evs s p eid e v options :
  run (new b) evs = Some s →
  dict_get (getKey p) (store s) = Some eid → heap s !! eid = Some e →
  fetching e = true → truthy v = true → force options = true →
  ∃ s' rest,
    run s [FetcherNotifies eid (Next v); GetStore p options] = Some s' ∧
    fetchLog s' = fetchLog s ++ [(eid, params e, extra0 e)] ∧
    out s' = out s ++
      ((λ sid, (sid, ready v)) <$> observers e) ++
      ((λ sid, (sid, {| loading := true; value := v; error := None |}))
         <$> observers e) ++ rest.
Proof.
  intros Hrun Hk He Hf Hv Hforce.
  assert (Inv s) as HI by (eapply Inv_run; [apply Inv_new|exact Hrun]).
  destruct (Inv_entry s eid e HI He) as (Hcon & _). specialize (Hcon Hf).
  set (s1 := add_out ((λ sid, (sid, ready v)) <$> observers e)
               (update eid (set_emitted (ready v) (ready v)) s)).
  assert (step s (FetcherNotifies eid (Next v)) = Some s1) as Hstep.
  { simpl. unfold fetcher_notification. rewrite He. simpl. rewrite Hf.
    rewrite (emit_Some _ _ _ e He). fold (ready v). by rewrite merge_truthy. }
  assert (Inv s1) as HI1 by by eapply Inv_step.
  destruct (getStore_refetch s1 p options eid (set_emitted (ready v) (ready v) e) HI1)
    as (s' & e' & rest & Hget & Hlog & Hout & _); [done|by apply heap_update_eq|done|..].
  { by rewrite Hforce. }
  exists s', rest.
  change (run s [FetcherNotifies eid (Next v); GetStore p options])
    with (step s (FetcherNotifies eid (Next v)) ≫= λ s, run s [GetStore p options]).
  rewrite Hstep. simpl. rewrite Hget. simpl. split; [done|]. split; [done|].
  rewrite Hout. unfold s1. simpl. by rewrite <- app_assoc.
Qed.

(** A forced [getStore] on a connected entry the store object holds, whose
    new fetch then fails before it produced a value: the observers receive
    the loading state, and then a result with the parsed error (when it is
    truthy) and no value at all; the value that was shown before the fetch
    is not in the failed result. *)
Theorem failed_refetch_has_no_value b evs s p eid e err options :
  asynchronous_fetcher →
  run (new b) evs = Some s →
  dict_get (getKey p) (store s) = Some eid → heap s !! eid = Some e →
  connected e = true → force options = true →
  ∃ s',
    run s [GetStore p options; FetcherNotifies eid (Error err)] = Some s' ∧
    fetchLog s' = fetchLog s ++ [(eid, params e, extra0 e)] ∧
    out s' = out s ++
      ((λ sid, (sid, merge (previousValue e) loading_frame)) <$> observers e) ++
      ((λ sid, (sid, {| loading := false; value := None;
                        error := if truthy (errorParserLogger err)
                                 then errorParserLogger err else None |}))
         <$> observers e).
Proof.
  intros Hasync Hrun Hk He Hcon Hforce.
  destruct (refetch_async s eid e Hasync He Hcon)
    as (s1 & e1 & Hn & Hst1 & Hlog1 & Hout1 & He1 & Hprev1 & Hf1 & Hobs1).
  assert (getStore p options s = Some (s1, eid)) as Hget.
  { unfold getStore, _getStore, init. rewrite Hk. simpl. rewrite Hk. simpl.
    rewrite He. simpl. rewrite Hforce. simpl. rewrite Hn. simpl. rewrite Hst1, Hk. done. }
  assert (run (new b) (evs ++ [GetStore p options]) = Some s1) as Hrun1.
  { rewrite run_app, Hrun. simpl. by rewrite Hget. }
  rewrite <- Hst1 in Hk.
  destruct (fetch_failure b _ s1 _ eid e1 err Hrun1 Hk He1 Hf1)
    as (s' & e' & Hstep & _ & _ & Hlog' & Hout' & _).
  exists s'.
  assert (step s (GetStore p options) = Some s1) as Hstep0 by (simpl; by rewrite Hget).
  change (run s [GetStore p options; FetcherNotifies eid (Error err)])
    with (step s (GetStore p options) ≫= λ s, run s [FetcherNotifies eid (Error err)]).
  rewrite Hstep0. simpl in *. rewrite Hstep. simpl. split; [done|].
  split; [congruence|]. rewrite Hout', Hout1, Hprev1, Hobs1. simpl. by rewrite <- app_assoc.
Qed.

(** *** The state behind the fetcher

    The store touches it only by subscribing to a stream of the fetcher and
    by unsubscribing from one: what both keep, every call keeps. *)
Section backend_invariant.
Context (P : B → Prop).
Context (P_subscribe : ∀ b eid p x, P b → P (fetch_subscribe b eid p x).1).
Context (P_unsubscribe : ∀ b eid, P b → P (fetch_unsubscribe b eid)).

Lemma backend_fetcher_notifications eid ns s s' :
  fetcher_notifications eid ns s = Some s' → backend s' = backend s.
Proof.
  revert s. induction ns as [|n ns IH]; simpl; intros s.
  - by intros [= <-].
  - destruct (fetcher_notification eid n s) as [s1|] eqn:H1; simpl; [|done].
    intros H2. apply IH in H2. apply backend_fetcher_notification in H1. congruence.
Qed.

Lemma backend_inv_networkFetchOb eid s s' :
  P (backend s) → networkFetchOb eid s = Some s' → P (backend s').
Proof.
  intros HP. unfold networkFetchOb.
  destruct (heap s !! eid) as [e|] eqn:He; simpl; [|done].
  destruct (emit _ _ _) as [s1|] eqn:Hemit; simpl; [|done].
  apply backend_emit in Hemit. simpl in Hemit.
  destruct (fetch_subscribe _ _ _ _) as [b sync] eqn:Hfs.
  intros ->%backend_fetcher_notifications. simpl.
  change b with (b, sync).1. rewrite <- Hfs. apply P_subscribe. by rewrite Hemit.
Qed.

Lemma backend_inv_switchMap eid val s s' :
  P (backend s) → switchMap eid val s = Some s' → P (backend s').
Proof.
  intros HP. unfold switchMap.
  destruct (heap s !! eid) as [e|] eqn:He; simpl; [|done].
  set (s1 := if fetching e then _ else s).
  assert (P (backend s1)) as HP1.
  { unfold s1. destruct (fetching e); [|done]. simpl. by apply P_unsubscribe. }
  clearbody s1. destruct val.
  - by intros ->%backend_emit.
  - by apply backend_inv_networkFetchOb.
Qed.

Lemma backend_inv_updateValueRS_next eid val s s' :
  P (backend s) → updateValueRS_next eid val s = Some s' → P (backend s').
Proof.
  intros HP. unfold updateValueRS_next.
  destruct (heap s !! eid) as [e|] eqn:He; simpl; [|done].
  destruct (connected e); [by apply backend_inv_switchMap|by intros [= <-]].
Qed.

Lemma backend_inv__getStore p options s s' ob :
  P (backend s) → _getStore p options s = Some (s', ob) → P (backend s').
Proof.
  intros HP. destruct (init_logs p (extra options) s) as (_ & _ & Hb & _).
  rewrite <- Hb in HP. unfold _getStore.
  destruct (dict_get _ _) as [eid|]; simpl; [|done].
  destruct (heap _ !! eid) as [e|]; simpl; [|done].
  destruct (force options || lastFetchFailed e).
  - destruct (updateValueRS_next _ _ _) as [s1|] eqn:H1; simpl; [|done].
    destruct (dict_get _ (store s1)); simpl; [|done]. intros [= <- _].
    by eapply backend_inv_updateValueRS_next.
  - simpl. destruct (dict_get _ _); simpl; [|done]. by intros [= <- _].
Qed.

Lemma backend_inv__getStore_map ps options s s' obs :
  P (backend s) → _getStore_map ps options s = Some (s', obs) → P (backend s').
Proof.
  revert s obs. induction ps as [|p ps IH]; simpl; intros s obs HP.
  - by intros [= <- _].
  - destruct (_getStore p options s) as [[s1 ob]|] eqn:H1; simpl; [|done].
    destruct (_getStore_map ps options s1) as [[s2 obs']|] eqn:H2; simpl; [|done].
    intros [= <- _]. eauto using backend_inv__getStore.
Qed.

Lemma backend_inv_forEach {A} (f : A → State → option State) l s s' :
  (∀ a s s', P (backend s) → f a s = Some s' → P (backend s')) →
  P (backend s) → forEach f l s = Some s' → P (backend s').
Proof.
  intros Hf. revert s. induction l as [|a l IH]; simpl; intros s HP.
  - by intros [= <-].
  - destruct (f a s) as [s1|] eqn:H1; simpl; [|done]. eauto.
Qed.

Lemma backend_inv_expireKey k s s' :
  P (backend s) → expireKey k s = Some s' → P (backend s').
Proof.
  intros HP. unfold expireKey. destruct (dict_get _ _); simpl; [|done].
  by apply backend_inv_updateValueRS_next.
Qed.

Lemma backend_inv_shareReplay_subscribe eid sid s s' :
  P (backend s) → shareReplay_subscribe eid sid s = Some s' → P (backend s').
Proof.
  intros HP. unfold shareReplay_subscribe.
  destruct (heap s !! eid) as [e|] eqn:He; simpl; [|done].
  destruct (if connected e then _ else _) as [s1|] eqn:H1; simpl; [|done].
  destruct (heap s1 !! eid) as [e1|]; simpl; [|done]. intros [= <-]. simpl.
  destruct (connected e); [by injection H1 as <-|].
  by eapply backend_inv_switchMap; [|exact H1].
Qed.

Lemma backend_advance dt s : backend (advance dt s) = backend s.
Proof.
  unfold advance. set (s0 := set_timers _ _).
  change (backend s) with (backend s0). clearbody s0. revert s0.
  induction (filter _ _) as [|t due IH]; simpl; intros s0; [done|]. by rewrite IH.
Qed.

Lemma backend_inv_step s ev s' :
  P (backend s) → step s ev = Some s' → P (backend s').
Proof.
  intros HP. destruct ev as [p o|ps o|p v| |pr|ob|ob sid|eid n|dt]; simpl.
  - unfold getStore. destruct (_getStore p o s) as [[s1 ob]|] eqn:H1; simpl; [|done].
    intros [= <-]. by eapply backend_inv__getStore.
  - unfold getStores. destruct ps as [|p ps]; [by intros [= <-]|].
    destruct (_getStore_map (p :: ps) o s) as [[s1 obs]|] eqn:H1; simpl; [|done].
    intros [= <-]. by eapply backend_inv__getStore_map.
  - unfold updateStoreValue. destruct (dict_get _ _); simpl; [|done].
    apply backend_inv_updateValueRS_next.
    by destruct (init_logs p None s) as (_ & _ & -> & _).
  - apply backend_inv_forEach; [|done]. apply backend_inv_expireKey.
  - apply backend_inv_forEach; [|done]. intros k s0 s0' HP0.
    destruct (dict_get _ _) as [eid|]; simpl; [|done].
    destruct (heap s0 !! eid) as [e|]; simpl; [|done].
    destruct (pr (params e)); [by apply backend_inv_expireKey|by intros [= <-]].
  - unfold subscribe. destruct monitored.
    + unfold SubscriberMonitor_subscribe.
      destruct (shareReplay_subscribe _ _ _) as [s1|] eqn:H1; simpl; [|done].
      apply backend_inv_shareReplay_subscribe in H1; [|done].
      destruct (heap s1 !! ob) as [e|]; simpl; [|done].
      unfold onSubscribe. simpl. destruct (dict_get _ _) as [c|]; simpl; [|done].
      destruct (_ !! c) as [ec|]; simpl; [|done]. intros [= <-].
      unfold clearTimeout. by destruct (clearFromStorageTimer ec).
    + destruct (shareReplay_subscribe _ _ _) as [s1|] eqn:H1; simpl; [|done].
      intros [= <-]. by eapply backend_inv_shareReplay_subscribe; [|exact H1].
  - unfold unsubscribe. destruct (heap s !! ob) as [e|] eqn:He; simpl; [|done].
    case_decide; [|by intros [= <-]].
    destruct monitored; [|by intros [= <-]].
    unfold SubscriberMonitor_unsubscribe. rewrite He. simpl.
    unfold onUnsubscribe. case_decide; [|by intros [= <-]]. simpl.
    destruct (dict_get _ _) as [c|]; simpl; [|done].
    destruct (_ !! c) as [ec|]; simpl; [|done]. by intros [= <-].
  - by intros ->%backend_fetcher_notification.
  - intros [= <-]. by rewrite backend_advance.
Qed.
End backend_invariant.

(** *** Calls that do not raise *)


















End RxStore.
End RxStore.

(** ** SubscriberMonitor

    The class on its own, around any observable and any two callbacks.  The
    callbacks cannot reach the private [counter]; what matters of them here
    is with which count they are called, so the monitor keeps the calls it
    made.  The observable is given by whether it completes during a
    subscription (as [of(x)] does) or stays live (as [interval(500)]). *)
Module SubscriberMonitor.

Inductive Call :=
  | onSubscribe (subscriberCount : Z)
  | onUnsubscribe (subscriberCount : Z).

Definition subscriberCount (c : Call) : Z :=
  match c with onSubscribe n | onUnsubscribe n => n end.

(** - [completes]: the observable completes during the subscription;
    - [counter]: the field [counter];
    - [subscriptions]: the subscriptions that are open;
    - [next]: the next subscription;
    - [calls]: the calls of the callbacks, oldest first. *)
Record Monitor := {
  completes : bool;
  counter : Z;
  subscriptions : list nat;
  next : nat;
  calls : list Call;
}.

(** [new SubscriberMonitor(observable, onSubscribe, onUnsubscribe)] *)
Definition new (completes : bool) : Monitor :=
  {| completes := completes; counter := 0; subscriptions := []; next := 0;
     calls := [] |}.

(** The teardown:
    [subscription.unsubscribe(); this.counter--; onUnsubscribe(this.counter)]. *)
Definition teardown (sid : nat) (m : Monitor) : Monitor :=
  {| completes := completes m; counter := counter m - 1;
     subscriptions := filter (λ x, x ≠ sid) (subscriptions m); next := next m;
     calls := calls m ++ [onUnsubscribe (counter m - 1)] |}.

(** [monitor.subscribe()]:
    [observable.subscribe(subscriber); this.counter++;
     onSubscribe(this.counter)], and the teardown is returned.  A subscriber
    the observable has completed is closed, and a teardown handed to a
    closed subscriber runs at once. *)
Definition subscribe (m : Monitor) : Monitor * nat :=
  let sid := next m in
  let m :=
    {| completes := completes m; counter := counter m + 1;
       subscriptions := if completes m then subscriptions m else subscriptions m ++ [sid];
       next := S sid;
       calls := calls m ++ [onSubscribe (counter m + 1)] |} in
  (if completes m then teardown sid m else m, sid).

(** [subscription.unsubscribe()]; on a closed subscription it does nothing. *)
Definition unsubscribe (sid : nat) (m : Monitor) : Monitor :=
  if decide (sid ∈ subscriptions m) then teardown sid m else m.

Inductive Op :=
  | Subscribe
  | Unsubscribe (sid : nat).

Definition step (m : Monitor) (op : Op) : Monitor :=
  match op with
  | Subscribe => (subscribe m).1
  | Unsubscribe sid => unsubscribe sid m
  end.

Definition run (m : Monitor) (ops : list Op) : Monitor := foldl step m ops.

(** [counts_from n cs]: each call of [cs] reports one more (a subscription)
    or one less (an unsubscription) than the call before it reported, the
    first one than [n]. *)
Fixpoint counts_from (n : Z) (cs : list Call) : Prop :=
  match cs with
  | [] => True
  | c :: cs =>
      subscriberCount c =
        (match c with onSubscribe _ => n + 1 | onUnsubscribe _ => n - 1 end)%Z ∧
      counts_from (subscriberCount c) cs
  end.

(** The count the last call of [cs] reported, [n] when there is none. *)
Definition last_count (n : Z) (cs : list Call) : Z :=
  default n (subscriberCount <$> last cs).

Lemma counts_from_snoc n cs c :
  counts_from n cs →
  subscriberCount c =
    (match c with
     | onSubscribe _ => last_count n cs + 1
     | onUnsubscribe _ => last_count n cs - 1
     end)%Z →
  counts_from n (cs ++ [c]).
Proof.
  unfold last_count. revert n. induction cs as [|c0 cs IH]; simpl; intros n.
  - by intros _ ->.
  - intros [Hc0 Hcs] Hc. split; [done|]. apply IH; [done|].
    rewrite last_cons in Hc. by destruct (last cs).
Qed.

Lemma last_count_snoc n cs c : last_count n (cs ++ [c]) = subscriberCount c.
Proof. unfold last_count. by rewrite last_snoc. Qed.

(** What every step keeps. *)
Definition monitor_ok (m : Monitor) : Prop :=
  counter m = Z.of_nat (length (subscriptions m)) ∧
  counter m = last_count 0 (calls m) ∧
  counts_from 0 (calls m) ∧
  NoDup (subscriptions m) ∧ (∀ sid, sid ∈ subscriptions m → sid < next m).

Lemma monitor_ok_new completes : monitor_ok (new completes).
Proof.
  repeat split; simpl; try done; [apply NoDup_nil_2|]. by intros sid ?%elem_of_nil.
Qed.

Lemma monitor_ok_teardown sid m :
  monitor_ok m → sid ∈ subscriptions m → monitor_ok (teardown sid m).
Proof.
  intros (Hc & Hl & Hcs & Hnd & Hb) Hin. unfold monitor_ok. simpl.
  rewrite last_count_snoc. simpl.
  pose proof (RxStore.length_filter_remove _ _ Hnd Hin) as Hlen.
  split; [lia|]. split; [done|]. split; [|split].
  - apply counts_from_snoc; [done|]. simpl. by rewrite Hl.
  - by apply NoDup_filter.
  - intros x [_ Hx]%list_elem_of_filter. by apply Hb.
Qed.

Lemma monitor_ok_step m op : monitor_ok m → monitor_ok (step m op).
Proof.
  intros Hok. destruct op as [|sid]; simpl.
  - pose proof Hok as (Hc & Hl & Hcs & Hnd & Hb). unfold subscribe.
    destruct (completes m) eqn:Hcomp; simpl.
    + unfold monitor_ok. simpl. rewrite last_count_snoc. simpl.
      assert (filter (λ x, x ≠ next m) (subscriptions m) = subscriptions m) as ->.
      { clear -Hb. induction (subscriptions m) as [|a l IH]; [done|].
        rewrite filter_cons. rewrite decide_True.
        - rewrite IH; [done|]. intros x Hx. apply Hb. by right.
        - assert (a < next m) by (apply Hb; by left). lia. }
      split; [lia|]. split; [done|]. split; [|split; [done|]].
      * apply counts_from_snoc.
        -- apply counts_from_snoc; [done|]. simpl. by rewrite Hl.
        -- rewrite last_count_snoc. simpl. lia.
      * intros x Hx. specialize (Hb _ Hx). lia.
    + unfold monitor_ok. simpl. rewrite last_count_snoc, length_app. simpl.
      split; [lia|]. split; [done|]. split; [|split].
      * apply counts_from_snoc; [done|]. simpl. by rewrite Hl.
      * apply NoDup_app. split; [done|]. split; [|apply NoDup_singleton].
        intros x Hx ->%list_elem_of_singleton. specialize (Hb _ Hx). lia.
      * intros x [Hx|Hx]%elem_of_app;
          [specialize (Hb _ Hx)|apply list_elem_of_singleton in Hx]; lia.
  - unfold unsubscribe. case_decide; [by apply monitor_ok_teardown|done].
Qed.

Lemma monitor_ok_run ops m : monitor_ok m → monitor_ok (run m ops).
Proof.
  unfold run. revert m. induction ops as [|op ops IH]; simpl; intros m Hok; [done|].
  by apply IH, monitor_ok_step.
Qed.

(** Whatever is subscribed and unsubscribed, on a live or on a completed
    observable: the counter is the number of open subscriptions; every
    [onSubscribe] is called with one more than the count the call before it
    reported, every [onUnsubscribe] with one less, starting from zero; and
    the last call reported the current counter.  So a callback is told the
    number of subscriptions that are open right after the change. *)
Theorem callbacks_report_live_count completes ops :
  let m := run (new completes) ops in
  counter m = Z.of_nat (length (subscriptions m)) ∧
  counter m = last_count 0 (calls m) ∧
  counts_from 0 (calls m).
Proof.
  destruct (monitor_ok_run ops (new completes) (monitor_ok_new completes))
    as (? & ? & ? & _). done.
Qed.

Lemma completed_step m op :
  completes m = true → counter m = 0%Z → subscriptions m = [] →
  completes (step m op) = true ∧ counter (step m op) = 0%Z ∧
  subscriptions (step m op) = [] ∧
  calls (step m op) =
    calls m ++ match op with
               | Subscribe => [onSubscribe 1; onUnsubscribe 0]
               | Unsubscribe _ => []
               end.
Proof.
  intros Hcomp Hc Hs. destruct op as [|sid]; simpl.
  - unfold subscribe. rewrite Hcomp. simpl. rewrite Hc, Hs. simpl.
    by rewrite <- app_assoc.
  - unfold unsubscribe. rewrite Hs, decide_False by apply not_elem_of_nil.
    by rewrite app_nil_r.
Qed.

(** On an observable that completes during the subscription (the
    behaviour of RxJS the tests of the class document): every subscription
    calls [onSubscribe(1)] and then, at once, [onUnsubscribe(0)]; no
    subscription stays open, the counter is back at zero after each, and a
    later [unsubscribe] calls nothing. *)
Theorem completed_source_reports_one_then_zero ops :
  let m := run (new true) ops in
  counter m = 0%Z ∧ subscriptions m = [] ∧
  calls m =
    ops ≫= λ op, match op with
                 | Subscribe => [onSubscribe 1; onUnsubscribe 0]
                 | Unsubscribe _ => []
                 end.
Proof.
  cbv zeta.
  assert (∀ m, completes m = true → counter m = 0%Z → subscriptions m = [] →
            counter (run m ops) = 0%Z ∧ subscriptions (run m ops) = [] ∧
            calls (run m ops) =
              calls m ++ (ops ≫= λ op, match op with
                                       | Subscribe => [onSubscribe 1; onUnsubscribe 0]
                                       | Unsubscribe _ => []
                                       end)) as Hgen.
  { unfold run. induction ops as [|op ops IH]; intros m Hcomp Hc Hs.
    - simpl. by rewrite app_nil_r.
    - destruct (completed_step m op Hcomp Hc Hs) as (Hcomp' & Hc' & Hs' & Hcalls).
      destruct (IH (step m op) Hcomp' Hc' Hs') as (? & ? & Hcalls').
      simpl. repeat (split; [done|]). rewrite Hcalls', Hcalls.
      by rewrite <- app_assoc. }
  by apply (Hgen (new true)).
Qed.
End SubscriberMonitor.
(** ** RxBatchingStore *)
Module RxBatchingStore.
Import RxStore.
Section RxBatchingStore.
(** [TResponse], [TRequest], [Extra] and [TError] are the class's type
    parameters; [Err] is JavaScript's [Error]. *)
Context {TResponse TRequest Extra TError Err : Type}.
Context `{Truthy TResponse, Truthy TError, Truthy Extra}.

(** [nodeObjectSorter], the default hasher, which the class imports. *)
Context (nodeObjectSorter : TRequest → string).

(** [IRxBatchSingleResponse<TResponse, TRequest>]; an [Error] object is
    truthy, so [error] is tested by whether it is there. *)
Record IRxBatchSingleResponse := {
  response : option TResponse;
  request : TRequest;
  error : option Err;
}.

(** [IRequestWithExtra<TRequest, Extra>] *)
Record IRequestWithExtra := {
  request' : TRequest;
  extra' : option Extra;
}.

(** The constructor's arguments.  [batchFetchingFunction n reqs] is what the
    stream returned by the [n]-th call, made with [reqs], sends when it is
    subscribed to; what it sends later arrives as a notification of its
    own. *)
Context (batchFetchingFunction :
           nat → list IRequestWithExtra →
           list (Notification (list IRxBatchSingleResponse) Err)).
Context (errorParserLogger : Err → option TError).

(** lodash's [uniqBy(reqs, (req) => nodeObjectSorter(req.request))]: the
    first element of each hash, in the order of [reqs]. *)
Fixpoint uniqBy_from (seen : list string) (reqs : list IRequestWithExtra)
    : list IRequestWithExtra :=
  match reqs with
  | [] => []
  | req :: reqs =>
      let h := nodeObjectSorter (request' req) in
      if decide (h ∈ seen) then uniqBy_from seen reqs
      else req :: uniqBy_from (h :: seen) reqs
  end.

Definition uniqBy (reqs : list IRequestWithExtra) : list IRequestWithExtra :=
  uniqBy_from [] reqs.

(** lodash's [keyBy(results, (result) => nodeObjectSorter(result.request))]:
    a later result replaces an earlier one of the same hash. *)
Definition keyBy (results : list IRxBatchSingleResponse)
    : gmap string IRxBatchSingleResponse :=
  foldl (λ d result, <[nodeObjectSorter (request result) := result]> d) ∅ results.

(** The last [switchMap] of [fetch], applied to
    [responsesDictionary[requestHash]]: [throwError(v.error)],
    [of(v.response)] or [of(undefined)], as the notification the stream of
    [fetch] sends. *)
Definition respond (v : option IRxBatchSingleResponse)
    : Notification (option TResponse) Err :=
  match v with
  | Some v =>
      match error v with
      | Some err => Error err
      | None => Next (response v)
      end
  | None => Next None
  end.

(** [IBatchEvent], with the state of its [responsesOb], the stream of the
    call of [batchFetchingFunction] under [map(keyBy)] and
    [shareReplay({ refCount: true, bufferSize: 1 })]:
    - [source]: what the stream sends when subscribed to;
    - [subscribed]: [shareReplay] has subscribed to it;
    - [replayed]: the buffer of [shareReplay];
    - [ended]: the stream has completed ([Some None]) or failed;
    - [members]: the subscriptions of [fetch] that switched to it, by the
      entry they fetch for and the [requestHash] they wait for. *)
Record IBatchEvent := {
  requestHashes : gset string;
  source : list (Notification (list IRxBatchSingleResponse) Err);
  subscribed : bool;
  replayed : option (gmap string IRxBatchSingleResponse);
  ended : option (option Err);
  members : list (nat * string);
}.

(** The state behind the fetcher of the underlying [RxStore]:
    - [buffer]: the buffer of [bufferTime], [None] while [requests] has no
      subscriber ([share()] is then not subscribed to it);
    - [waiting]: the subscribers of [requests], the subscriptions of [fetch]
      that wait at [first], by entry and [requestHash];
    - [events]: the batch events made so far;
    - [batchLog]: the arguments of the calls of [batchFetchingFunction]. *)
Record Batching := {
  buffer : option (list IRequestWithExtra);
  waiting : list (nat * string);
  events : list IBatchEvent;
  batchLog : list (list IRequestWithExtra);
}.

(** [new RxBatchingStore(...)] *)
Definition Batching_new : Batching :=
  {| buffer := None; waiting := []; events := []; batchLog := [] |}.

(** Subscribing to the stream [fetch(request, extra)] returns:
    [this.requests.subscribe(observer)], which subscribes [share()] to
    [bufferTime] when it is the first, then
    [this.requestSubject.next(extra ? { request, extra } : { request })].
    Nothing is sent during the subscription. *)
Definition fetch (b : Batching) (eid : nat) (request : TRequest) (extra : option Extra)
    : Batching * list (Notification (option TResponse) Err) :=
  let requestHash := nodeObjectSorter request in
  let req := {| request' := request; extra' := if truthy extra then extra else None |} in
  ({| buffer := Some (default [] (buffer b) ++ [req]);
      waiting := waiting b ++ [(eid, requestHash)];
      events := events b; batchLog := batchLog b |}, []).

(** A subscriber of [requests] leaves; [share()] unsubscribes from
    [bufferTime] with the last one. *)
Definition leave_requests (eid : nat) (b : Batching) : Batching :=
  let waiting' := filter (λ w, w.1 ≠ eid) (waiting b) in
  {| buffer := if decide (waiting' = []) then None else buffer b;
     waiting := waiting';
     events := events b; batchLog := batchLog b |}.

(** A subscriber of a [responsesOb] leaves. *)
Definition leave_event (eid : nat) (ev : IBatchEvent) : IBatchEvent :=
  {| requestHashes := requestHashes ev; source := source ev;
     subscribed := subscribed ev; replayed := replayed ev; ended := ended ev;
     members := filter (λ m, m.1 ≠ eid) (members ev) |}.

(** Unsubscribing from the stream of [fetch]: from [requests] while it waits
    at [first], from [responsesOb] after. *)
Definition unsubscribe_fetch (b : Batching) (eid : nat) : Batching :=
  let b := leave_requests eid b in
  {| buffer := buffer b; waiting := waiting b;
     events := leave_event eid <$> events b; batchLog := batchLog b |}.

(** [fetchBatch]: the call of [batchFetchingFunction] and the batch event. *)
Definition fetchBatch (reqs : list IRequestWithExtra) (b : Batching)
    : Batching * IBatchEvent :=
  let uniqRequests := uniqBy reqs in
  let responsesOb := batchFetchingFunction (length (batchLog b)) uniqRequests in
  ({| buffer := buffer b; waiting := waiting b; events := events b;
      batchLog := batchLog b ++ [uniqRequests] |},
   {| requestHashes := list_to_set ((λ req, nodeObjectSorter (request' req)) <$> reqs);
      source := responsesOb; subscribed := false; replayed := None;
      ended := None; members := [] |}).

(** *** The batching store at work

    The store is the underlying [RxStore], built by
    [super((req, extra) => this.fetch(req, extra), errorParserLogger)]: no
    [deleteFromCacheTimeMS], the default hasher, and [Batching] behind the
    fetcher. *)
Definition Store : Type :=
  State (T := TResponse) (Params := TRequest) (Extra := Extra) (TError := TError)
    (B := Batching).

Definition set_events (f : list IBatchEvent → list IBatchEvent) (s : Store) : Store :=
  set_backend
    {| buffer := buffer (backend s); waiting := waiting (backend s);
       events := f (events (backend s)); batchLog := batchLog (backend s) |} s.

(** The stream of [fetch] of entry [eid] sends [n] to the underlying store. *)
Definition notify (eid : nat) (n : Notification (option TResponse) Err) (s : Store)
    : option Store :=
  fetcher_notification errorParserLogger eid n s.

(** [responsesOb] hands the dictionary [dict] to the member [m]:
    [map((responsesDictionary) => responsesDictionary[requestHash])] and the
    last [switchMap].  With [throwError] the stream of [fetch] ends, and the
    member is gone. *)
Definition member_next (wid : nat) (dict : gmap string IRxBatchSingleResponse)
    (m : nat * string) (s : Store) : option Store :=
  let n := respond (dict !! m.2) in
  s ← notify m.1 n s;
  Some (match n with
        | Error _ => set_events (alter (leave_event m.1) wid) s
        | _ => s
        end).

(** [responsesOb] ends, and with it the stream of [fetch] of the member. *)
Definition member_end (wid : nat) (e : option Err) (m : nat * string) (s : Store)
    : option Store :=
  s ← notify m.1 (match e with Some err => Error err | None => Complete end) s;
  Some (set_events (alter (leave_event m.1) wid) s).

(** [shareReplay] subscribes to the stream of the call: what the stream
    sends at once goes to the buffer, which keeps the last dictionary. *)
Fixpoint source_notifications
    (ns : list (Notification (list IRxBatchSingleResponse) Err)) (ev : IBatchEvent)
    : IBatchEvent :=
  match ns with
  | [] => ev
  | n :: ns =>
      match ended ev with
      | Some _ => ev
      | None =>
          source_notifications ns
            {| requestHashes := requestHashes ev; source := source ev;
               subscribed := subscribed ev;
               replayed := match n with
                           | Next results => Some (keyBy results)
                           | _ => replayed ev
                           end;
               ended := match n with
                        | Next _ => None
                        | Error err => Some (Some err)
                        | Complete => Some None
                        end;
               members := members ev |}
      end
  end.

(** [first((batchEvent) => batchEvent.requestHashes.has(requestHash))] lets
    the batch event [wid] through to [switchMap((batchEvent) =>
    batchEvent.responsesOb)], which subscribes [m] to [responsesOb]: the
    first subscription subscribes [shareReplay] to its source, and every
    subscriber receives the buffer, and the end if the stream has ended.
    Then [first] completes and leaves [requests]. *)
Definition join (wid : nat) (m : nat * string) (s : Store) : option Store :=
  ev ← events (backend s) !! wid;
  let ev :=
    if subscribed ev then ev
    else source_notifications (source ev)
           {| requestHashes := requestHashes ev; source := source ev;
              subscribed := true; replayed := replayed ev; ended := ended ev;
              members := members ev |} in
  let ev :=
    {| requestHashes := requestHashes ev; source := source ev;
       subscribed := subscribed ev; replayed := replayed ev; ended := ended ev;
       members := members ev ++ [m] |} in
  let s := set_events (alter (λ _, ev) wid) s in
  s ← match replayed ev with
      | Some dict => member_next wid dict m s
      | None => Some s
      end;
  s ← match ended ev with
      | Some e => member_end wid e m s
      | None => Some s
      end;
  Some (set_backend (leave_requests m.1 (backend s)) s).

(** The interval of [bufferTime(this.bufferTimeMS)] elapses: the buffer, empty
    or not, goes through [map((requests) => this.fetchBatch(requests))], and
    [share()] hands the batch event to the subscribers of [requests]. *)
Definition bufferTime (s : Store) : option Store :=
  match buffer (backend s) with
  | None => Some s
  | Some reqs =>
      let '(b, ev) := fetchBatch reqs (backend s) in
      let wid := length (events b) in
      let s := set_backend
                 {| buffer := Some []; waiting := waiting b;
                    events := events b ++ [ev]; batchLog := batchLog b |} s in
      forEach (λ m s, if decide (m.2 ∈ requestHashes ev) then join wid m s else Some s)
        (waiting b) s
  end.

(** The stream of the call behind the batch event [wid] sends [n] to
    [shareReplay]; it is subscribed to only while it has not ended and
    [responsesOb] has subscribers. *)
Definition batch_notification (wid : nat)
    (n : Notification (list IRxBatchSingleResponse) Err) (s : Store) : option Store :=
  ev ← events (backend s) !! wid;
  if subscribed ev && bool_decide (ended ev = None) && bool_decide (members ev ≠ []) then
    let ev' := source_notifications [n] ev in
    let s := set_events (alter (λ _, ev') wid) s in
    match n with
    | Next results => forEach (member_next wid (keyBy results)) (members ev) s
    | Error err => forEach (member_end wid (Some err)) (members ev) s
    | Complete => forEach (member_end wid None) (members ev) s
    end
  else Some s.

(** What happens to a batching store: a call on the store or a subscription
    to one of its observables, a tick of [bufferTime], or a notification of
    the stream of a call of [batchFetchingFunction].  (The streams of
    [fetch] are the store's own: nothing else sends on them.) *)
Inductive Event :=
  | OnStore (ev : RxStore.Event (T := TResponse) (Params := TRequest)
                    (Extra := Extra) (Err := Err))
  | BufferTime
  | BatchNotifies (wid : nat) (n : Notification (list IRxBatchSingleResponse) Err).

Definition step (s : Store) (ev : Event) : option Store :=
  match ev with
  | OnStore (FetcherNotifies _ _) => Some s
  | OnStore ev =>
      RxStore.step fetch unsubscribe_fetch errorParserLogger None nodeObjectSorter s ev
  | BufferTime => bufferTime s
  | BatchNotifies wid n => batch_notification wid n s
  end.

Fixpoint run (s : Store) (evs : list Event) : option Store :=
  match evs with
  | [] => Some s
  | ev :: evs => s ← step s ev; run s evs
  end.

(** [new RxBatchingStore(batchFetchingFunction, errorParserLogger)] *)
Definition new : Store := RxStore.new Batching_new.

(** *** De-duplication of a window *)

(** The hash of a buffered request. *)
Definition hash_of (req : IRequestWithExtra) : string :=
  nodeObjectSorter (request' req).

















(** *** The dictionary of a batch *)

Lemma keyBy_foldl_last results (d : gmap string IRxBatchSingleResponse) h :
  foldl (λ d result, <[nodeObjectSorter (request result) := result]> d) d results !! h =
  match last (filter (λ r, nodeObjectSorter (request r) = h) results) with
  | Some r => Some r
  | None => d !! h
  end.
Proof.
  revert d. induction results as [|r results IH]; intros d; simpl; [done|].
  rewrite IH, filter_cons. case_decide as Hh.
  - rewrite last_cons. destruct (last (filter _ results)); [done|].
    subst h. by rewrite lookup_insert_eq.
  - destruct (last (filter _ results)); [done|]. by rewrite lookup_insert_ne.
Qed.

(** When the collective fetch returns several results for one request, the
    dictionary holds the last of them, and that one is what the stream of
    [fetch] for the request turns into its notification; results for other
    requests do not matter. *)
Theorem keyBy_last_result_wins results h :
  keyBy results !! h =
  last (filter (λ r, nodeObjectSorter (request r) = h) results).
Proof.
  unfold keyBy. rewrite keyBy_foldl_last, lookup_empty.
  by destruct (last _).
Qed.

(** *** The subscribers of [requests] *)

(** What holds of the state behind the fetcher between two steps:
    [bufferTime] is subscribed to exactly while a subscription of [fetch]
    waits at [first]; the request of each of them is in the buffer; and no
    call of [batchFetchingFunction] was made with an empty list. *)
Definition requests_ok (b : Batching) : Prop :=
  (buffer b = None ↔ waiting b = []) ∧
  (∀ w, w ∈ waiting b →
     ∃ reqs, buffer b = Some reqs ∧ w.2 ∈ hash_of <$> reqs) ∧
  Forall (λ reqs, reqs ≠ []) (batchLog b).

Lemma requests_ok_fetch b eid request extra :
  requests_ok b → requests_ok (fetch b eid request extra).1.
Proof.
  intros (Hbuf & Hw & Hlog). split; [|split; [|done]]; simpl.
  - split; [done|]. intros Hnil. by destruct (waiting b).
  - intros w [Hin|Hin]%elem_of_app.
    + destruct (Hw _ Hin) as (reqs & -> & Hh). eexists. split; [done|]. simpl.
      rewrite fmap_app. apply elem_of_app. by left.
    + apply list_elem_of_singleton in Hin as ->.
      eexists. split; [done|]. rewrite fmap_app. apply elem_of_app. right.
      simpl. by left.
Qed.

Lemma requests_ok_unsubscribe_fetch b eid :
  requests_ok b → requests_ok (unsubscribe_fetch b eid).
Proof.
  intros (Hbuf & Hw & Hlog). split; [|split; [|done]]; simpl.
  - case_decide as Hnil; [done|]. split; [|done].
    intros Hnone. apply Hbuf in Hnone. by rewrite Hnone in Hnil.
  - intros w Hin. pose proof Hin as [_ Hin']%list_elem_of_filter.
    rewrite decide_False; [by apply Hw|]. intros Hnil. rewrite Hnil in Hin.
    by apply elem_of_nil in Hin.
Qed.

(** [same_requests s s']: the step left [requests] and the log alone. *)
Definition same_requests (s s' : Store) : Prop :=
  buffer (backend s') = buffer (backend s) ∧
  waiting (backend s') = waiting (backend s) ∧
  batchLog (backend s') = batchLog (backend s).

Lemma same_requests_refl s : same_requests s s.
Proof. done. Qed.

Lemma same_requests_trans s1 s2 s3 :
  same_requests s1 s2 → same_requests s2 s3 → same_requests s1 s3.
Proof. intros (?&?&?) (?&?&?). repeat split; congruence. Qed.

Lemma same_requests_notify eid n s s' : notify eid n s = Some s' → same_requests s s'.
Proof. intros Hb%backend_fetcher_notification. unfold same_requests. by rewrite Hb. Qed.

Lemma same_requests_member_next wid dict m s s' :
  member_next wid dict m s = Some s' → same_requests s s'.
Proof.
  unfold member_next. destruct (notify _ _ _) as [s1|] eqn:Hn1; simpl; [|done].
  intros [= <-]. apply same_requests_notify in Hn1.
  destruct (respond _); [done| |done].
  eapply same_requests_trans; [exact Hn1|done].
Qed.

Lemma same_requests_member_end wid e m s s' :
  member_end wid e m s = Some s' → same_requests s s'.
Proof.
  unfold member_end. destruct (notify _ _ _) as [s1|] eqn:Hn1; simpl; [|done].
  intros [= <-]. apply same_requests_notify in Hn1.
  eapply same_requests_trans; [exact Hn1|done].
Qed.

Lemma same_requests_forEach {A} (f : A → Store → option Store) l s s' :
  (∀ a s s', f a s = Some s' → same_requests s s') →
  forEach f l s = Some s' → same_requests s s'.
Proof.
  intros Hf. revert s. induction l as [|a l IH]; simpl; intros s.
  - intros [= <-]. done.
  - destruct (f a s) as [s1|] eqn:Hn1; simpl; [|done].
    intros Hn2. eapply same_requests_trans; eauto.
Qed.

Lemma same_requests_batch_notification wid n s s' :
  batch_notification wid n s = Some s' → same_requests s s'.
Proof.
  unfold batch_notification.
  destruct (events (backend s) !! wid) as [ev|]; simpl; [|done].
  destruct (_ && _); [|by intros [= <-]].
  destruct n as [results|err|]; intros Hall.
  - by apply (same_requests_forEach _ _ _ _
                (same_requests_member_next wid (keyBy results))) in Hall.
  - by apply (same_requests_forEach _ _ _ _
                (same_requests_member_end wid (Some err))) in Hall.
  - by apply (same_requests_forEach _ _ _ _
                (same_requests_member_end wid None)) in Hall.
Qed.

(** A subscription of [fetch] that joins a batch event leaves [requests]. *)
Lemma join_requests wid m s s' :
  join wid m s = Some s' →
  backend s' =
  {| buffer := buffer (leave_requests m.1 (backend s));
     waiting := waiting (leave_requests m.1 (backend s));
     events := events (backend s');
     batchLog := batchLog (backend s) |}.
Proof.
  unfold join. destruct (events (backend s) !! wid) as [ev|]; simpl; [|done].
  set (ev' := {| members := _ ++ [m] |}).
  destruct (match replayed ev' with Some _ => _ | None => _ end) as [s1|] eqn:Hn1;
    simpl; [|done].
  destruct (match ended ev' with Some _ => _ | None => _ end) as [s2|] eqn:Hn2;
    simpl; [|done].
  intros [= <-].
  assert (same_requests (set_events (alter (λ _, ev') wid) s) s1) as Hs1.
  { destruct (replayed ev'); [by eapply same_requests_member_next|].
    by injection Hn1 as <-. }
  assert (same_requests s1 s2) as Hs2.
  { destruct (ended ev'); [by eapply same_requests_member_end|].
    by injection Hn2 as <-. }
  destruct (same_requests_trans _ _ _ Hs1 Hs2) as (Hb & Hw & Hl).
  simpl in *. unfold leave_requests. rewrite Hb, Hw, Hl. done.
Qed.

Lemma tick_joins (hashes : gset string) wid l s s' :
  forEach (λ m s, if decide (m.2 ∈ hashes) then join wid m s else Some s) l s = Some s' →
  (∀ m, m ∈ l → m.2 ∈ hashes) →
  batchLog (backend s') = batchLog (backend s) ∧
  (∀ w, w ∈ waiting (backend s') → w ∈ waiting (backend s) ∧ w.1 ∉ l.*1) ∧
  ((waiting (backend s) = [] → buffer (backend s) = None) ∨ l ≠ [] →
   waiting (backend s') = [] → buffer (backend s') = None).
Proof.
  revert s. induction l as [|m l IH]; simpl; intros s.
  - intros [= <-] _. split; [done|]. split.
    + intros w Hw. split; [done|]. apply not_elem_of_nil.
    + by intros [?|?].
  - intros Hrun Hall. rewrite decide_True in Hrun by (apply Hall; by left).
    destruct (join wid m s) as [s1|] eqn:Hj; simpl in Hrun; [|done].
    apply join_requests in Hj. unfold leave_requests in Hj. simpl in Hj.
    destruct (IH s1 Hrun) as (Hl & Hw & Hq).
    { intros m' Hm'. apply Hall. by right. }
    rewrite Hj in Hl, Hw, Hq. simpl in Hl, Hw, Hq.
    split; [done|]. split.
    + intros w Hin. destruct (Hw _ Hin) as [[Hne Hin']%list_elem_of_filter Hnin].
      split; [done|]. apply not_elem_of_cons. split; [done|done].
    + intros _. apply Hq. left. intros Hnil. by rewrite decide_True.
Qed.

Lemma uniqBy_nonempty reqs : reqs ≠ [] → uniqBy reqs ≠ [].
Proof.
  destruct reqs as [|req reqs]; [done|]. intros _ Hu. unfold uniqBy in Hu.
  cbn [uniqBy_from] in Hu. case_decide as Hin; [by apply elem_of_nil in Hin|done].
Qed.

(** A tick of [bufferTime]. *)
Lemma requests_ok_bufferTime s s' :
  requests_ok (backend s) → bufferTime s = Some s' →
  requests_ok (backend s') ∧ waiting (backend s') = [] ∧ buffer (backend s') = None.
Proof.
  intros (Hbuf & Hw & Hlog). unfold bufferTime.
  destruct (buffer (backend s)) as [reqs|] eqn:Hb.
  2:{ intros [= <-]. destruct Hbuf as [Hnil _]. specialize (Hnil eq_refl).
      split; [|by rewrite Hb]. split; [by rewrite Hb, Hnil|].
      split; [|done]. rewrite Hnil. by intros w ?%elem_of_nil. }
  simpl. intros Hall. apply tick_joins in Hall as (Hl & Hin & Hq).
  2:{ intros m Hm. destruct (Hw _ Hm) as (reqs' & [= <-] & Hh).
      by apply elem_of_list_to_set. }
  simpl in *.
  assert (waiting (backend s') = []) as Hnil.
  { destruct (waiting (backend s')) as [|w ws] eqn:Hws; [done|].
    destruct (Hin w) as [Hw1 Hw2]; [by left|]. destruct Hw2.
    apply list_elem_of_fmap. by exists w. }
  assert (buffer (backend s') = None) as Hnone.
  { apply Hq; [|done]. left. intros Hnil'. destruct Hbuf as [_ Hbuf].
    by specialize (Hbuf Hnil'). }
  split; [|done]. split; [by rewrite Hnil, Hnone|]. split.
  - rewrite Hnil. by intros w ?%elem_of_nil.
  - rewrite Hl. apply Forall_app. split; [done|]. apply Forall_singleton.
    apply uniqBy_nonempty. destruct (waiting (backend s)) as [|w ws] eqn:Hws.
    + destruct Hbuf as [_ Hbuf]. by specialize (Hbuf eq_refl).
    + destruct (Hw w) as (reqs' & [= <-] & Hh); [by left|].
      intros ->. by apply elem_of_nil in Hh.
Qed.

Lemma requests_ok_step s ev s' :
  requests_ok (backend s) → step s ev = Some s' → requests_ok (backend s').
Proof.
  intros Hok. destruct ev as [ev| |wid n]; simpl.
  - assert (RxStore.step fetch unsubscribe_fetch errorParserLogger None
              nodeObjectSorter s ev = Some s' → requests_ok (backend s')) as Hcore.
    { apply (backend_inv_step _ _ _ _ _ requests_ok); [| |done].
      - intros b eid p x. apply requests_ok_fetch.
      - intros b eid. apply requests_ok_unsubscribe_fetch. }
    destruct ev; try done. by intros [= <-].
  - intros Ht. by apply requests_ok_bufferTime in Ht as [? _].
  - intros (Hb & Hw & Hl)%same_requests_batch_notification.
    unfold requests_ok. by rewrite Hb, Hw, Hl.
Qed.

Lemma requests_ok_run evs s s' :
  requests_ok (backend s) → run s evs = Some s' → requests_ok (backend s').
Proof.
  revert s. induction evs as [|ev evs IH]; simpl; intros s Hok.
  - by intros [= <-].
  - destruct (step s ev) as [s1|] eqn:Hs1; simpl; [|done].
    eauto using requests_ok_step.
Qed.

(** In every state a batching store reaches: [bufferTime] is subscribed to
    exactly while a subscription of [fetch] waits for its batch; the request
    of every waiting subscription is in the buffer; a tick of [bufferTime]
    serves them all, so that none is left waiting and the interval stops;
    and [batchFetchingFunction] is never called with an empty list of
    requests. *)
Theorem every_window_serves_all_waiting evs s :
  run new evs = Some s →
  (buffer (backend s) = None ↔ waiting (backend s) = []) ∧
  (∀ w, w ∈ waiting (backend s) →
     ∃ reqs, buffer (backend s) = Some reqs ∧ w.2 ∈ hash_of <$> reqs) ∧
  Forall (λ reqs, reqs ≠ []) (batchLog (backend s)) ∧
  (∀ s', step s BufferTime = Some s' →
     waiting (backend s') = [] ∧ buffer (backend s') = None ∧
     (buffer (backend s) = None → s' = s) ∧
     ∀ reqs, buffer (backend s) = Some reqs →
       batchLog (backend s') = batchLog (backend s) ++ [uniqBy reqs] ∧ reqs ≠ []).
Proof.
  intros Hrun.
  assert (requests_ok (backend s)) as Hok.
  { eapply requests_ok_run; [|exact Hrun]. unfold new, requests_ok. simpl.
    split; [done|]. split; [by intros w ?%elem_of_nil|constructor]. }
  pose proof Hok as (Hbuf & Hw & Hlog). repeat (split; [done|]).
  intros s' Ht. simpl in Ht.
  destruct (requests_ok_bufferTime s s' Hok Ht) as (_ & Hnil & Hnone).
  repeat (split; [done|]). split.
  - intros Hb. revert Ht. unfold bufferTime. rewrite Hb. by intros [= <-].
  - intros reqs Hb. split.
    + revert Ht. unfold bufferTime. rewrite Hb. simpl.
      intros Hall. apply tick_joins in Hall as (Hl & _).
      * by rewrite Hl.
      * intros m Hm. destruct (Hw _ Hm) as (reqs' & Hb' & Hh).
        rewrite Hb in Hb'. injection Hb' as <-. by apply elem_of_list_to_set.
    + destruct (waiting (backend s)) as [|w ws] eqn:Hws.
      * destruct Hbuf as [_ Hbuf]. specialize (Hbuf eq_refl). congruence.
      * destruct (Hw w) as (reqs' & Hb' & Hh); [by left|].
        rewrite Hb in Hb'. injection Hb' as <-.
        intros ->. by apply elem_of_nil in Hh.
Qed.

(** *** The keys of a batching store *)

(** [same_keys s s']: the step left the store object and the timers alone. *)
Definition same_keys (s s' : Store) : Prop :=
  store s' = store s ∧ timers s' = timers s.

Lemma same_keys_trans s1 s2 s3 : same_keys s1 s2 → same_keys s2 s3 → same_keys s1 s3.
Proof. intros [] []. split; congruence. Qed.

Lemma same_keys_notify eid n s s' : notify eid n s = Some s' → same_keys s s'.
Proof. by intros [(? & ? & _) _]%quiet_fetcher_notification. Qed.

Lemma same_keys_member_next wid dict m s s' :
  member_next wid dict m s = Some s' → same_keys s s'.
Proof.
  unfold member_next. destruct (notify _ _ _) as [s1|] eqn:Hn1; simpl; [|done].
  intros [= <-]. apply same_keys_notify in Hn1. by destruct (respond _).
Qed.

Lemma same_keys_member_end wid e m s s' :
  member_end wid e m s = Some s' → same_keys s s'.
Proof.
  unfold member_end. destruct (notify _ _ _) as [s1|] eqn:Hn1; simpl; [|done].
  intros [= <-]. by apply same_keys_notify in Hn1.
Qed.

Lemma same_keys_join wid m s s' : join wid m s = Some s' → same_keys s s'.
Proof.
  unfold join. destruct (events (backend s) !! wid) as [ev|]; simpl; [|done].
  set (ev' := {| members := _ ++ [m] |}).
  destruct (match replayed ev' with Some _ => _ | None => _ end) as [s1|] eqn:Hn1;
    simpl; [|done].
  destruct (match ended ev' with Some _ => _ | None => _ end) as [s2|] eqn:Hn2;
    simpl; [|done].
  intros [= <-].
  assert (same_keys (set_events (alter (λ _, ev') wid) s) s1) as Hs1.
  { destruct (replayed ev'); [by eapply same_keys_member_next|].
    by injection Hn1 as <-. }
  assert (same_keys s1 s2) as Hs2.
  { destruct (ended ev'); [by eapply same_keys_member_end|].
    by injection Hn2 as <-. }
  by destruct (same_keys_trans _ _ _ Hs1 Hs2).
Qed.

Lemma same_keys_forEach {A} (f : A → Store → option Store) l s s' :
  (∀ a s s', f a s = Some s' → same_keys s s') →
  forEach f l s = Some s' → same_keys s s'.
Proof.
  intros Hf. revert s. induction l as [|a l IH]; simpl; intros s.
  - by intros [= <-].
  - destruct (f a s) as [s1|] eqn:Hn1; simpl; [|done].
    intros Hn2. eapply same_keys_trans; eauto.
Qed.

Lemma same_keys_bufferTime s s' : bufferTime s = Some s' → same_keys s s'.
Proof.
  unfold bufferTime. destruct (buffer (backend s)); [|by intros [= <-]].
  simpl. intros Hall. apply same_keys_forEach in Hall; [done|].
  intros m s0 s0'. case_decide; [apply same_keys_join|by intros [= <-]].
Qed.

Lemma same_keys_batch_notification wid n s s' :
  batch_notification wid n s = Some s' → same_keys s s'.
Proof.
  unfold batch_notification.
  destruct (events (backend s) !! wid) as [ev|]; simpl; [|done].
  destruct (_ && _); [|by intros [= <-]].
  destruct n as [results|err|]; intros Hall.
  - by apply (same_keys_forEach _ _ _ _
                (same_keys_member_next wid (keyBy results))) in Hall.
  - by apply (same_keys_forEach _ _ _ _
                (same_keys_member_end wid (Some err))) in Hall.
  - by apply (same_keys_forEach _ _ _ _
                (same_keys_member_end wid None)) in Hall.
Qed.

Lemma keys_stay_step s ev s' :
  timers s = [] → step s ev = Some s' →
  timers s' = [] ∧
  ∀ k eid, dict_get k (store s) = Some eid → dict_get k (store s') = Some eid.
Proof.
  intros Ht. destruct ev as [ev| |wid n]; simpl.
  - destruct (is_Advance ev) eqn:Hadv.
    + destruct ev; try done. simpl. intros [= <-].
      by destruct (advance_no_timers dt s Ht) as [-> ->].
    + assert (RxStore.step fetch unsubscribe_fetch errorParserLogger None
                nodeObjectSorter s ev = Some s' →
              timers s' = [] ∧
              ∀ k eid, dict_get k (store s) = Some eid →
                       dict_get k (store s') = Some eid) as Hcore.
      { intros Hs. split.
        - by rewrite (timers_step fetch unsubscribe_fetch errorParserLogger None
                        nodeObjectSorter s ev s' eq_refl Hadv Hs).
        - by destruct (grows_step _ _ _ _ _ s ev s' Hadv Hs). }
      destruct ev; try done. by intros [= <-].
  - intros [Hst Htm]%same_keys_bufferTime. by rewrite Hst, Htm.
  - intros [Hst Htm]%same_keys_batch_notification. by rewrite Hst, Htm.
Qed.

(** A batching store is built without [deleteFromCacheTimeMS]: it never
    sets a timer and never deletes a key.  Whatever is called on the store,
    however the batches answer and however much time passes, a key the store
    object holds stays bound to the same entry. *)
Theorem batching_store_never_deletes evs s evs' s' k eid :
  run new evs = Some s → run s evs' = Some s' →
  dict_get k (store s) = Some eid →
  timers s' = [] ∧ dict_get k (store s') = Some eid.
Proof.
  assert (∀ evs s s', timers s = [] → run s evs = Some s' →
            timers s' = [] ∧
            ∀ k eid, dict_get k (store s) = Some eid →
                     dict_get k (store s') = Some eid) as Hruns.
  { clear. induction evs as [|ev evs IH]; simpl; intros s s' Ht.
    - by intros [= <-].
    - destruct (step s ev) as [s1|] eqn:Hs1; simpl; [|done]. intros Hrun.
      destruct (keys_stay_step s ev s1 Ht Hs1) as [Ht1 Hst1].
      destruct (IH s1 s' Ht1 Hrun) as [Ht' Hst']. auto. }
  intros Hrun Hrun' Hk.
  destruct (Hruns evs new s eq_refl Hrun) as [Ht _].
  destruct (Hruns evs' s s' Ht Hrun') as [Ht' Hst]. auto.
Qed.
End RxBatchingStore.
End RxBatchingStore.

(** ** The stores at work on concrete requests *)
Module Examples.
Import RxStore.

(** A store of numbers under string keys, with string errors:
    [new RxStore(fetcher, (err) => err.message, deleteFromCacheTimeMS)] with
    the identity as hasher.  The number [0] and the empty string are
    falsy. *)
#[local] Instance number_truthy : Truthy Z := λ z, negb (z =? 0)%Z.
#[local] Instance string_truthy : Truthy string := λ s, negb (String.eqb s EmptyString).

Definition Fetcher : Type :=
  nat → string → option string → list (Notification (option Z) string).

(** The state behind a fetcher is the number of its calls. *)
Definition subscribe_to (fetcher : Fetcher) (b eid : nat) (p : string) (x : option string)
    : nat * list (Notification (option Z) string) :=
  (S b, fetcher b p x).

Definition unsubscribe_from (b eid : nat) : nat := b.

Definition message (err : string) : option string := Some err.

Definition Store : Type :=
  State (T := Z) (Params := string) (Extra := string) (TError := string) (B := nat).

Definition run_store (ttl : option nat) (fetcher : Fetcher) (s : Store)
    (evs : list (Event (T := Z) (Params := string) (Extra := string) (Err := string)))
    : option Store :=
  run (subscribe_to fetcher) unsubscribe_from message ttl id s evs.

(** A fetcher that answers later, as [of(val).pipe(delay(100))], and one that
    fails at once, as [throwError(err)]. *)
Definition delayed : Fetcher := λ _ _ _, [].
Definition failing : Fetcher := λ _ _ _, [Error "This is an error!"%string].

Definition unforced : IRxStoreOptions (Extra := string) :=
  {| force := false; extra := None |}.
Definition forced : IRxStoreOptions (Extra := string) :=
  {| force := true; extra := None |}.

Definition start : Store := new 0.

(** The state after [evs], when they do not raise. *)
Definition after (ttl : option nat) (fetcher : Fetcher) (evs : list Event) : Store :=
  default start (run_store ttl fetcher start evs).

Definition entry (s : Store) (eid : nat) : StoreEntry :=
  default (new_entry EmptyString EmptyString None) (heap s !! eid).

Definition loading_state : IRxStore (T := Z) (TError := string) :=
  {| loading := true; value := None; error := None |}.

(** The tests of getStore in the repository. *)
Example subsequent_subscriptions_do_not_trigger_fetch :
  fetchLog <$> run_store None delayed start
    [GetStore "TEST" unforced; Subscribe 0; GetStore "TEST" unforced; Subscribe 0]
  = Some [(0, "TEST"%string, None)].
Proof. reflexivity. Qed.

Example subscriptions_with_force_do_trigger_fetch :
  fetchLog <$> run_store None delayed start
    [GetStore "TEST" unforced; Subscribe 0; GetStore "TEST" forced; Subscribe 0]
  = Some [(0, "TEST"%string, None); (0, "TEST"%string, None)].
Proof. reflexivity. Qed.

Example subscriptions_after_failure_do_trigger_fetch :
  fetchLog <$> run_store None failing start
    [GetStore "TEST" unforced; Subscribe 0; GetStore "TEST" unforced; Subscribe 0]
  = Some [(0, "TEST"%string, None); (0, "TEST"%string, None)].
Proof. reflexivity. Qed.

Example emits_expected_values :
  received 0 <$> run_store None delayed start
    [GetStore "TEST" unforced; Subscribe 0; FetcherNotifies 0 (Next (Some 7%Z));
     FetcherNotifies 0 Complete]
  = Some [loading_state; {| loading := false; value := Some 7%Z; error := None |}].
Proof. reflexivity. Qed.

Example emits_local_value_then_refetches_when_forced :
  received 1 <$> run_store None delayed start
    [UpdateStoreValue "TEST" 5%Z; GetStore "TEST" unforced; Subscribe 0;
     Unsubscribe 0 0; GetStore "TEST" forced; GetStore "TEST" unforced; Subscribe 0;
     FetcherNotifies 0 (Next (Some 7%Z))]
  = Some [{| loading := true; value := Some 5%Z; error := None |};
          {| loading := false; value := Some 7%Z; error := None |}].
Proof. reflexivity. Qed.

Example respects_deleteFromCacheTimeMS :
  store <$> run_store (Some 200) delayed start
    [GetStore "TEST" unforced; Subscribe 0; Unsubscribe 0 0; GetStore "TEST" unforced;
     Advance 199]
  = Some [("TEST"%string, 0)] ∧
  store <$> run_store (Some 200) delayed start
    [GetStore "TEST" unforced; Subscribe 0; Unsubscribe 0 0; GetStore "TEST" unforced;
     Advance 200]
  = Some [].
Proof. split; reflexivity. Qed.

Example new_subscriber_cancels_the_timer :
  store <$> run_store (Some 200) delayed start
    [GetStore "TEST" unforced; Subscribe 0; Unsubscribe 0 0; Advance 100; Subscribe 0;
     Advance 500]
  = Some [("TEST"%string, 0)].
Proof. reflexivity. Qed.

Example respects_unset_deleteFromCacheTimeMS :
  store <$> run_store None delayed start
    [GetStore "TEST" unforced; Subscribe 0; Unsubscribe 0 0; GetStore "TEST" unforced;
     Advance 200]
  = Some [("TEST"%string, 0)].
Proof. reflexivity. Qed.

(** The documented race: with a fetcher that answers at once the first
    subscriber does not see [loading: true]. *)
Example synchronous_fetcher_skips_loading :
  received 0 <$> run_store None (λ _ _ _, [Next (Some 7%Z); Complete]) start
    [GetStore "TEST" unforced; Subscribe 0]
  = Some [{| loading := false; value := Some 7%Z; error := None |}].
Proof. reflexivity. Qed.

(** *** The theorems on a concrete store *)



(** The call is repeated, observers come and go, values arrive: one stream,
    one fetch. *)
Example one_stream_one_fetch :
  let s := after None delayed
             [GetStore "k" unforced; Subscribe 0; GetStore "k" unforced; Subscribe 0;
              Subscribe 0; Unsubscribe 0 1; FetcherNotifies 0 (Next (Some 1%Z));
              GetStore "k" unforced; Subscribe 0] in
  store s = [("k"%string, 0)] ∧ fetches 0 s = 1 ∧ length (heap s) = 1.
Proof. by vm_compute. Qed.

Definition subscribed : Store := after None delayed [GetStore "k" unforced; Subscribe 0].




(** After a failure every call fetches again, also when a later fetch has
    succeeded. *)
Example failed_once_fetches_on_every_call :
  fetchLog <$> run_store None delayed start
    [GetStore "k" unforced; Subscribe 0; FetcherNotifies 0 (Error "boom"%string);
     GetStore "k" unforced; FetcherNotifies 0 (Next (Some 1%Z));
     GetStore "k" unforced; GetStore "k" unforced]
  = Some [(0, "k"%string, None); (0, "k"%string, None);
          (0, "k"%string, None); (0, "k"%string, None)].
Proof. vm_compute. reflexivity. Qed.


(** Two values in a row reach the observer that is there and, as the last
    value, the one that attaches later. *)
Example two_values_in_order :
  out <$> run_store None delayed start
    [GetStore "k" unforced; Subscribe 0; FetcherNotifies 0 (Next (Some 1%Z));
     FetcherNotifies 0 (Next (Some 2%Z)); Subscribe 0]
  = Some [(0, loading_state);
          (0, {| loading := false; value := Some 1%Z; error := None |});
          (0, {| loading := false; value := Some 2%Z; error := None |});
          (1, {| loading := false; value := Some 2%Z; error := None |})].
Proof. vm_compute. reflexivity. Qed.


(** *** getStores *)


(** What a subscription to [getStores(["a", "b"])] delivers while the two
    fetches answer. *)
Definition two_keys : option Store :=
  run_store None delayed start
    [GetStores ["a"; "b"]%string unforced; Subscribe 0; Subscribe 1;
     FetcherNotifies 0 (Next (Some 1%Z)); FetcherNotifies 1 (Next (Some 2%Z));
     UpdateStoreValue "a" 3%Z].

(** C4 as stated fails: the value of ["a"] arrives while ["b"] is loading,
    and later changes while nothing is loading; the combined result changes
    both times and is not delivered. *)
Lemma contents_change_is_not_delivered :
  (λ s, Combined_inputs [0; 1] (out s)) <$> two_keys
  = Some [(0, loading_state); (1, loading_state);
          (0, {| loading := false; value := Some 1%Z; error := None |});
          (1, {| loading := false; value := Some 2%Z; error := None |});
          (0, {| loading := false; value := Some 3%Z; error := None |})] ∧
  (λ s, Combined_run (Combined_inputs [0; 1] (out s)) (Combined_new 2)) <$> two_keys
  = Some [{| loadings := true; values := []; errors := [] |};
          {| loadings := false; values := [1%Z; 2%Z]; errors := [] |}].
Proof. split; vm_compute; reflexivity. Qed.


(** *** Eviction *)

(** C9 fails on the code: the observable of an evicted entry still counts
    its subscribers against whatever entry the store holds under its key.
    The entry of ["k"] is evicted, a second one is built and subscribed to
    (subscription [1]); a subscription to the first observable is made and
    dropped, which starts a timer; 200 ms later the second entry is deleted
    while subscription [1] is live. *)
Theorem stale_observable_evicts_live_entry :
  let before :=
    [GetStore "k" unforced; Subscribe 0; Unsubscribe 0 0; Advance 200;
     GetStore "k" unforced; Subscribe 1; Subscribe 0; Unsubscribe 0 2] in
  (λ s, (store s, observers (entry s 1), timers s, now s))
    <$> run_store (Some 200) delayed start before
  = Some ([("k"%string, 1)], [1], [(1, (400, "k"%string))], 200) ∧
  (λ s, (store s, observers (entry s 1)))
    <$> run_store (Some 200) delayed start (before ++ [Advance 200])
  = Some ([], [1]).
Proof. split; vm_compute; reflexivity. Qed.

(** *** More of the store, on concrete runs *)

Definition requested : Store := after None delayed [GetStore "k" unforced].

Lemma getStore_is_cold_witness :
  fetchLog (after None delayed [GetStore "k" unforced; GetStore "k" forced]) =
  fetchLog requested.
Proof.
  destruct (getStore_is_cold (subscribe_to delayed) unsubscribe_from message id
              "k"%string forced requested
              (after None delayed [GetStore "k" unforced; GetStore "k" forced]) 0)
    as (Hlog & _); [|vm_compute; reflexivity|exact Hlog].
  intros e He. vm_compute in He. injection He as <-. reflexivity.
Defined.

(** A forced call before anybody has subscribed fetches nothing; the first
    subscription then fetches once. *)
Example forced_call_without_subscriber_does_not_fetch :
  fetchLog <$> run_store None delayed start [GetStore "k" forced; GetStore "k" forced]
  = Some [] ∧
  fetchLog <$> run_store None delayed start
    [GetStore "k" forced; GetStore "k" forced; Subscribe 0]
  = Some [(0, "k"%string, None)].
Proof. split; vm_compute; reflexivity. Qed.

Lemma updateStoreValue_is_local_witness :
  fetchLog (after None delayed
              [GetStore "k" unforced; Subscribe 0; UpdateStoreValue "k" 5%Z]) =
  fetchLog subscribed.
Proof.
  destruct (updateStoreValue_is_local
              (subscribe_to delayed) unsubscribe_from message None id
              0 [GetStore "k" unforced; Subscribe 0] subscribed "k"%string 5%Z
              (after None delayed
                 [GetStore "k" unforced; Subscribe 0; UpdateStoreValue "k" 5%Z]))
    as (eid & e' & _ & _ & _ & _ & Hlog & _); [vm_compute; reflexivity..|].
  exact Hlog.
Defined.

(** A local value set while the fetch is under way: the observer receives
    it, and the answer of the fetch, which arrives later, is dropped. *)
Example local_value_replaces_pending_fetch :
  received 0 <$> run_store None delayed start
    [GetStore "k" unforced; Subscribe 0; UpdateStoreValue "k" 5%Z;
     FetcherNotifies 0 (Next (Some 7%Z))]
  = Some [loading_state; {| loading := false; value := Some 5%Z; error := None |}].
Proof. vm_compute. reflexivity. Qed.

Definition two_entries : Store :=
  after None delayed
    [GetStore "x" unforced; Subscribe 0; GetStore "y" unforced; Subscribe 1;
     GetStore "z" unforced].

Lemma expireWhere_refetches_matching_only_witness :
  is_Some (expireWhere (subscribe_to delayed) unsubscribe_from message
             (λ p, String.eqb p "x") two_entries).
Proof.
  destruct (expireWhere_refetches_matching_only
              (subscribe_to delayed) unsubscribe_from message None id
              0 [GetStore "x" unforced; Subscribe 0; GetStore "y" unforced; Subscribe 1;
                 GetStore "z" unforced]
              two_entries (λ p, String.eqb p "x"))
    as (s' & Hs' & _); [vm_compute; reflexivity|].
  exact (mk_is_Some _ _ Hs').
Defined.

(** The test of [expireWhere] in the repository: of the keys ["x"], ["y"]
    and ["z"], only ["x"] is fetched again. *)
Example expireWhere_refetches_x_only :
  fetchLog <$> run_store None delayed start
    [GetStore "x" unforced; Subscribe 0; GetStore "y" unforced; Subscribe 1;
     GetStore "z" unforced; ExpireWhere (λ p, String.eqb p "x")]
  = Some [(0, "x"%string, None); (1, "y"%string, None); (0, "x"%string, None)].
Proof. vm_compute. reflexivity. Qed.

Lemma expireAll_refetches_every_connected_entry_witness :
  is_Some (expireAll (subscribe_to delayed) unsubscribe_from message two_entries).
Proof.
  destruct (expireAll_refetches_every_connected_entry
              (subscribe_to delayed) unsubscribe_from message None id
              0 [GetStore "x" unforced; Subscribe 0; GetStore "y" unforced; Subscribe 1;
                 GetStore "z" unforced]
              two_entries)
    as (s' & Hs' & _); [vm_compute; reflexivity|].
  exact (mk_is_Some _ _ Hs').
Defined.

Lemma without_deleteFromCacheTimeMS_nothing_is_deleted_witness :
  dict_get "k"%string
    (store (after (Some 0) delayed
              [GetStore "k" unforced; Subscribe 0; Unsubscribe 0 0; Advance 1000])) =
  Some 0.
Proof.
  apply (without_deleteFromCacheTimeMS_nothing_is_deleted
           (subscribe_to delayed) unsubscribe_from message (Some 0) id
           0 [GetStore "k" unforced; Subscribe 0]
           (after (Some 0) delayed [GetStore "k" unforced; Subscribe 0])
           [Unsubscribe 0 0; Advance 1000]
           (after (Some 0) delayed
              [GetStore "k" unforced; Subscribe 0; Unsubscribe 0 0; Advance 1000])
           "k"%string 0);
    [right; reflexivity|vm_compute; reflexivity..].
Defined.

Lemma getStores_sources_witness :
  Forall2 (λ p ob,
    dict_get p (store (after None delayed [GetStores ["a"; "b"; "a"]%string unforced]))
      = Some ob)
    ["a"; "b"; "a"]%string [0; 1; 0].
Proof.
  destruct (getStores_sources (subscribe_to delayed) unsubscribe_from message id
              ["a"; "b"; "a"]%string unforced start
              (after None delayed [GetStores ["a"; "b"; "a"]%string unforced])
              (combineLatest [0; 1; 0]))
    as [_ Hall]; [vm_compute; reflexivity|].
  eapply Forall2_impl; [exact Hall|]. by intros p ob [Hk _].
Defined.

Lemma getStores_waits_for_every_key_witness :
  Combined_run
    [(0, loading_state); (0, {| loading := false; value := Some 1%Z; error := None |})]
    (Combined_new 2) = [].
Proof.
  apply (getStores_waits_for_every_key 2
           [(0, loading_state);
            (0, {| loading := false; value := Some 1%Z; error := None |})] 1); [lia|].
  simpl. intros Hin. apply elem_of_cons in Hin as [?|Hin]; [done|].
  apply elem_of_cons in Hin as [?|Hin]; [done|]. by apply elem_of_nil in Hin.
Defined.



Lemma every_observer_receives_each_value_once_witness :
  is_Some (run_store None delayed subscribed
             (FetcherNotifies 0 ∘ Next <$> [Some 1%Z; Some 2%Z])).
Proof.
  destruct (every_observer_receives_each_value_once
              (subscribe_to delayed) unsubscribe_from message None id
              0 [GetStore "k" unforced; Subscribe 0] subscribed 0
              (entry subscribed 0) [Some 1%Z; Some 2%Z])
    as (s' & Hrun & _); try (vm_compute; reflexivity).
  { by repeat constructor. }
  unfold run_store. exact (mk_is_Some _ _ Hrun).
Defined.

(** The subscribers of another key receive nothing of the values of a
    key. *)
Example values_reach_the_subscribers_of_their_key :
  (λ s, (received 0 s, received 1 s)) <$> run_store None delayed start
    [GetStore "a" unforced; Subscribe 0; GetStore "b" unforced; Subscribe 1;
     FetcherNotifies 0 (Next (Some 1%Z)); FetcherNotifies 0 (Next (Some 2%Z))]
  = Some ([loading_state;
           {| loading := false; value := Some 1%Z; error := None |};
           {| loading := false; value := Some 2%Z; error := None |}],
          [loading_state]).
Proof. vm_compute. reflexivity. Qed.

Lemma first_subscriber_pipes_witness :
  ∃ s',
    run_store None delayed requested
      (Subscribe 0 :: (FetcherNotifies 0 ∘ Next <$> [Some 1%Z; Some 2%Z])) = Some s' ∧
    storeMapToValue (storeFilterOutLoading (received 0 s')) = [Some 1%Z; Some 2%Z].
Proof.
  destruct (first_subscriber_pipes
              (subscribe_to delayed) unsubscribe_from message None id
              0 [GetStore "k" unforced] requested "k"%string 0 (entry requested 0)
              [Some 1%Z; Some 2%Z])
    as (s' & Hrun & _ & _ & Hvalues & _); try (vm_compute; reflexivity).
  { by repeat constructor. }
  exists s'. split; [exact Hrun|exact Hvalues].
Defined.

(** The operators of [RxStoreUtil] on what a subscriber received, a failed
    fetch included. *)
Example operators_on_a_failed_fetch :
  let results :=
    received 0 (after None delayed
      [GetStore "k" unforced; Subscribe 0; FetcherNotifies 0 (Error "boom"%string)]) in
  storeMapToLoading results = [true; false] ∧
  storeMapToError (storeFilterOutLoading results) = [Some "boom"%string] ∧
  storeMapToValue (storeFilterOutLoading results) = [None].
Proof. by vm_compute. Qed.

Definition monitored_subscribed : Store :=
  after (Some 200) delayed [GetStore "k" unforced; Subscribe 0].

Lemma eviction_timer_starts_with_last_unsubscribe_witness :
  is_Some (unsubscribe (Some 200) 0 0 monitored_subscribed).
Proof.
  destruct (eviction_timer_starts_with_last_unsubscribe
              (subscribe_to delayed) unsubscribe_from message (Some 200) id
              0 [GetStore "k" unforced; Subscribe 0] monitored_subscribed
              "k"%string 0 (entry monitored_subscribed 0) 0 199)
    as (s1 & Hun & _); try (vm_compute; reflexivity).
  { vm_compute. by left. }
  exact (mk_is_Some _ _ Hun).
Defined.

(** While a second subscriber stays, the first one leaving sets no timer
    and the key outlives [deleteFromCacheTimeMS]. *)
Example remaining_subscriber_keeps_the_key :
  (λ s, (store s, timers s)) <$> run_store (Some 200) delayed start
    [GetStore "k" unforced; Subscribe 0; Subscribe 0; Unsubscribe 0 0; Advance 1000]
  = Some ([("k"%string, 0)], []).
Proof. vm_compute. reflexivity. Qed.

Lemma resubscribe_cancels_eviction_timer_witness :
  is_Some (subscribe (subscribe_to delayed) unsubscribe_from message (Some 200) 0
             (after (Some 200) delayed
                [GetStore "k" unforced; Subscribe 0; Unsubscribe 0 0])).
Proof.
  destruct (resubscribe_cancels_eviction_timer
              (subscribe_to delayed) unsubscribe_from message (Some 200) id
              0 [GetStore "k" unforced; Subscribe 0; Unsubscribe 0 0]
              (after (Some 200) delayed
                 [GetStore "k" unforced; Subscribe 0; Unsubscribe 0 0])
              "k"%string 0
              (entry (after (Some 200) delayed
                        [GetStore "k" unforced; Subscribe 0; Unsubscribe 0 0]) 0)
              0)
    as (s' & Hsub & _); try (vm_compute; reflexivity).
  exact (mk_is_Some _ _ Hsub).
Defined.

Lemma forced_refetch_shows_last_value_witness :
  is_Some (run_store None delayed subscribed
             [FetcherNotifies 0 (Next (Some 7%Z)); GetStore "k" forced]).
Proof.
  destruct (forced_refetch_shows_last_value
              (subscribe_to delayed) unsubscribe_from message None id
              0 [GetStore "k" unforced; Subscribe 0] subscribed "k"%string 0
              (entry subscribed 0) (Some 7%Z) forced)
    as (s' & rest & Hrun & _); try (vm_compute; reflexivity).
  unfold run_store. exact (mk_is_Some _ _ Hrun).
Defined.

Definition loaded : Store :=
  after None delayed
    [GetStore "k" unforced; Subscribe 0; FetcherNotifies 0 (Next (Some 7%Z))].

Lemma failed_refetch_has_no_value_witness :
  is_Some (run_store None delayed loaded
             [GetStore "k" forced; FetcherNotifies 0 (Error "boom"%string)]).
Proof.
  destruct (failed_refetch_has_no_value
              (subscribe_to delayed) unsubscribe_from message None id
              0 [GetStore "k" unforced; Subscribe 0; FetcherNotifies 0 (Next (Some 7%Z))]
              loaded "k"%string 0 (entry loaded 0) "boom"%string forced)
    as (s' & Hrun & _); try (vm_compute; reflexivity).
  unfold run_store. exact (mk_is_Some _ _ Hrun).
Defined.

(** The value [7] is shown while the entry fetches again, and is gone from
    the result of the failed fetch. *)
Example stale_value_is_lost_when_the_refetch_fails :
  received 0 <$> run_store None delayed start
    [GetStore "k" unforced; Subscribe 0; FetcherNotifies 0 (Next (Some 7%Z));
     GetStore "k" forced; FetcherNotifies 0 (Error "boom"%string)]
  = Some [loading_state;
          {| loading := false; value := Some 7%Z; error := None |};
          {| loading := true; value := Some 7%Z; error := None |};
          {| loading := false; value := None; error := Some "boom"%string |}].
Proof. vm_compute. reflexivity. Qed.

(** *** The tests of the SubscriberMonitor in the repository *)

Example calls_subscribe_callback_for_every_subscriber_on_a_live_observable :
  SubscriberMonitor.calls
    (SubscriberMonitor.run (SubscriberMonitor.new false)
       [SubscriberMonitor.Subscribe; SubscriberMonitor.Subscribe])
  = [SubscriberMonitor.onSubscribe 1; SubscriberMonitor.onSubscribe 2].
Proof. reflexivity. Qed.

Example calls_subscribe_then_unsubscribe_callback_on_a_completed_observable :
  SubscriberMonitor.calls
    (SubscriberMonitor.run (SubscriberMonitor.new true)
       [SubscriberMonitor.Subscribe; SubscriberMonitor.Subscribe])
  = [SubscriberMonitor.onSubscribe 1; SubscriberMonitor.onUnsubscribe 0;
     SubscriberMonitor.onSubscribe 1; SubscriberMonitor.onUnsubscribe 0].
Proof. reflexivity. Qed.

Example calls_unsubscribe_callback_for_every_unsubscriber_on_a_live_observable :
  SubscriberMonitor.calls
    (SubscriberMonitor.run (SubscriberMonitor.new false)
       [SubscriberMonitor.Subscribe; SubscriberMonitor.Subscribe;
        SubscriberMonitor.Unsubscribe 0; SubscriberMonitor.Unsubscribe 1;
        SubscriberMonitor.Unsubscribe 1])
  = [SubscriberMonitor.onSubscribe 1; SubscriberMonitor.onSubscribe 2;
     SubscriberMonitor.onUnsubscribe 1; SubscriberMonitor.onUnsubscribe 0].
Proof. reflexivity. Qed.

End Examples.

(** ** The batching store at work *)
Module BatchingExamples.
Import RxStore RxBatchingStore.
Import Examples.

#[local] Existing Instance number_truthy.
#[local] Existing Instance string_truthy.

(** A batching store of numbers under string requests, as
    [new RxBatchingStore(batchFetchingFunction, (err) => err.message)], hashed
    by the identity. *)
Definition Request : Type := IRequestWithExtra (TRequest := string) (Extra := string).
Definition Response : Type :=
  IRxBatchSingleResponse (TResponse := Z) (TRequest := string) (Err := string).
Definition BatchFetcher : Type :=
  nat → list Request → list (Notification (list Response) string).

Definition run_batching (batchFetcher : BatchFetcher)
    (evs : list (RxBatchingStore.Event (TResponse := Z) (TRequest := string)
                   (Extra := string) (Err := string)))
    : option (RxBatchingStore.Store (TResponse := Z) (TRequest := string)
                (Extra := string) (TError := string) (Err := string)) :=
  RxBatchingStore.run (TError := string) id batchFetcher message RxBatchingStore.new evs.

(** A batch fetcher that answers later, one that answers at once with
    [results], as [of(results)]. *)
Definition delayed_batch : BatchFetcher := λ _ _, [].
Definition of_batch (results : list Response) : BatchFetcher :=
  λ _ _, [Next results; Complete].

Definition request_of (r : string) : Request := {| request' := r; extra' := None |}.

Definition entry_of
    (s : RxBatchingStore.Store (TResponse := Z) (TRequest := string)
           (Extra := string) (TError := string) (Err := string)) (eid : nat)
    : StoreEntry :=
  default (new_entry EmptyString EmptyString None) (heap s !! eid).
Definition result_of (r : string) (v : Z) : Response :=
  {| response := Some v; request := r; RxBatchingStore.error := None |}.

(** The tests of the batching store in the repository. *)
Example calls_fetcher_after_delay_with_request :
  (λ s, batchLog (backend s)) <$> run_batching delayed_batch
    [OnStore (GetStore "TEST" unforced); OnStore (Subscribe 0)]
  = Some [] ∧
  (λ s, batchLog (backend s)) <$> run_batching delayed_batch
    [OnStore (GetStore "TEST" unforced); OnStore (Subscribe 0); BufferTime]
  = Some [[request_of "TEST"]].
Proof. split; vm_compute; reflexivity. Qed.

Example batchFetcher_is_called_with_request_and_extra :
  (λ s, batchLog (backend s)) <$> run_batching delayed_batch
    [OnStore (GetStore "TEST" {| force := false; extra := Some "ExtraParams"%string |});
     OnStore (Subscribe 0); BufferTime]
  = Some [[{| request' := "TEST"%string; extra' := Some "ExtraParams"%string |}]].
Proof. vm_compute. reflexivity. Qed.

Example error_of_batchFetcher_is_promoted :
  received 0 <$> run_batching
    (of_batch [{| response := None; request := "TEST"%string;
                  RxBatchingStore.error := Some "BatchTestError"%string |}])
    [OnStore (GetStore "TEST" unforced); OnStore (Subscribe 0); BufferTime]
  = Some [loading_state;
          {| loading := false; value := None; RxStore.error := Some "BatchTestError"%string |}].
Proof. vm_compute. reflexivity. Qed.

Example no_value_for_request_is_undefined :
  received 0 <$> run_batching (of_batch [])
    [OnStore (GetStore "TEST" unforced); OnStore (Subscribe 0); BufferTime]
  = Some [loading_state; {| loading := false; value := None; RxStore.error := None |}].
Proof. vm_compute. reflexivity. Qed.

Example live_stream_keeps_downstream_updated :
  received 0 <$> run_batching delayed_batch
    [OnStore (GetStore "TEST" unforced); OnStore (Subscribe 0); BufferTime;
     BatchNotifies 0 (Next [result_of "TEST" 1]);
     BatchNotifies 0 (Next [result_of "TEST" 2])]
  = Some [loading_state;
          {| loading := false; value := Some 1%Z; RxStore.error := None |};
          {| loading := false; value := Some 2%Z; RxStore.error := None |}].
Proof. vm_compute. reflexivity. Qed.

(** A request forced twice within one window reaches the batch fetcher
    once. *)
Example duplicates_are_collapsed :
  (λ s, batchLog (backend s)) <$> run_batching delayed_batch
    [OnStore (GetStore "a" unforced); OnStore (Subscribe 0);
     OnStore (GetStore "b" unforced); OnStore (Subscribe 1);
     OnStore (GetStore "a" forced); BufferTime]
  = Some [[request_of "a"; request_of "b"]].
Proof. vm_compute. reflexivity. Qed.

(** C7 fails on the code.  The keys ["a"], ["b"] and ["c"] are requested and
    subscribed to within one window: one call, for the three of them.  The
    answers arrive, the only subscriber of ["b"] unsubscribes, and
    [expireAll()] is called: the next window calls the batch fetcher for the
    three keys again, ["b"] included, since [shareReplay(1)] keeps the stream
    of ["b"] subscribed to its source. *)
Theorem expireAll_refetches_unsubscribed_key :
  let window :=
    [OnStore (GetStore "a" unforced); OnStore (Subscribe 0);
     OnStore (GetStore "b" unforced); OnStore (Subscribe 1);
     OnStore (GetStore "c" unforced); OnStore (Subscribe 2); BufferTime] in
  let answers :=
    [BatchNotifies 0 (Next [result_of "a" 1; result_of "b" 2; result_of "c" 3])] in
  (λ s, batchLog (backend s)) <$> run_batching delayed_batch window
  = Some [[request_of "a"; request_of "b"; request_of "c"]] ∧
  (λ s, (observers (entry_of s 1), batchLog (backend s)))
    <$> run_batching delayed_batch
          (window ++ answers ++ [OnStore (Unsubscribe 1 1); OnStore ExpireAll; BufferTime])
  = Some ([], [[request_of "a"; request_of "b"; request_of "c"];
               [request_of "a"; request_of "b"; request_of "c"]]).
Proof. split; vm_compute; reflexivity. Qed.

(** *** More of the batching store, on concrete runs *)

(** The state after [evs], when they do not raise. *)
Definition batching_after (batchFetcher : BatchFetcher)
    (evs : list (RxBatchingStore.Event (TResponse := Z) (TRequest := string)
                   (Extra := string) (Err := string)))
    : RxBatchingStore.Store (TResponse := Z) (TRequest := string)
        (Extra := string) (TError := string) (Err := string) :=
  default RxBatchingStore.new (run_batching batchFetcher evs).

Definition two_waiting
    : list (RxBatchingStore.Event (TResponse := Z) (TRequest := string)
              (Extra := string) (Err := string)) :=
  [OnStore (GetStore "a" unforced); OnStore (Subscribe 0);
   OnStore (GetStore "b" unforced); OnStore (Subscribe 1)].

Lemma every_window_serves_all_waiting_witness :
  Forall (λ reqs, reqs ≠ [])
    (batchLog (backend (batching_after delayed_batch (two_waiting ++ [BufferTime])))).
Proof.
  destruct (every_window_serves_all_waiting (TError := string) id delayed_batch message
              (two_waiting ++ [BufferTime])
              (batching_after delayed_batch (two_waiting ++ [BufferTime])))
    as (_ & _ & Hlog & _); [vm_compute; reflexivity|].
  exact Hlog.
Defined.

(** Two keys wait for the window; the tick serves both and stops the
    interval, and a tick while nobody waits calls nothing. *)
Example tick_serves_both_and_stops :
  (λ s, (waiting (backend s), buffer (backend s)))
    <$> run_batching delayed_batch two_waiting
  = Some ([(0, "a"%string); (1, "b"%string)], Some [request_of "a"; request_of "b"]) ∧
  (λ s, (waiting (backend s), buffer (backend s), batchLog (backend s)))
    <$> run_batching delayed_batch (two_waiting ++ [BufferTime; BufferTime])
  = Some ([], None, [[request_of "a"; request_of "b"]]).
Proof. split; vm_compute; reflexivity. Qed.

(** Of two results for one request the last one is delivered. *)
Example last_result_of_a_request_is_delivered :
  received 0 <$> run_batching (of_batch [result_of "TEST" 1; result_of "TEST" 2])
    [OnStore (GetStore "TEST" unforced); OnStore (Subscribe 0); BufferTime]
  = Some [loading_state; {| loading := false; value := Some 2%Z; RxStore.error := None |}].
Proof. vm_compute. reflexivity. Qed.

Lemma batching_store_never_deletes_witness :
  dict_get "a"%string
    (store (batching_after delayed_batch
              (two_waiting ++ [OnStore (Unsubscribe 0 0); BufferTime;
                               OnStore (Advance 1000)]))) = Some 0.
Proof.
  apply (batching_store_never_deletes (TError := string) id delayed_batch message
           two_waiting (batching_after delayed_batch two_waiting)
           [OnStore (Unsubscribe 0 0); BufferTime; OnStore (Advance 1000)]
           (batching_after delayed_batch
              (two_waiting ++ [OnStore (Unsubscribe 0 0); BufferTime;
                               OnStore (Advance 1000)]))
           "a"%string 0);
    vm_compute; reflexivity.
Defined.
End BatchingExamples.
